(** * Spherical k-means (spkmeans.cpp): a shallow embedding and its properties

    The development follows the single translation unit
    [Galois/src/spkmeans.cpp]:

    - [Float32]    the C++ [float] and [double] arithmetic the program uses,
                   as IEEE-754 binary32 / binary64 values of the standard
                   library's [SpecFloat] (round to nearest even, with
                   signed zeros, infinities and NaN);
    - [Vectors]    the helpers of [vectors.h], which the program includes;
    - [SPKMeans]   [cosineSimilarity], [computeConcept], [computeQuality],
                   [txnScheme] and [runSPKMeans];
    - [Loader]     [loadDocFile], together with the stream extraction
                   [operator>>] and [getline] it is written with;
    - [Statements] the notions the properties are stated with, and sample
                   inputs.

    Conventions.  C arrays are lists, written and read by index; a
    [float*] that points to a row of the document matrix is the index of
    that row; [int] and [unsigned] values are integers of [Z], and a [for]
    loop counting up from zero is [for_loop].  Every floating-point
    operation is rounded once, in the type the source gives it (as on a
    target that evaluates [float] expressions in [float]).  Memory
    management ([new], [delete], the [clear...] functions) and the console
    output are left out. *)

From Stdlib Require Import ZArith Lia ZifyBool Bool String Ascii.
From Stdlib Require Import Floats.SpecFloat.
From stdpp Require Import base list.

(** ** Counting loops *)

(** [for (int i = 0; i < n; i++) s = body i s;] *)
Fixpoint for_loop {St : Type} (n : nat) (body : nat -> St -> St) (s : St) : St :=
  match n with
  | O => s
  | S m => body m (for_loop m body s)
  end.

(** ** Floating point *)

Module Float32.

(** A C++ [float] is a binary32 value (24 bits of precision, infinities
    at exponent 128), a [double] a binary64 value (53 and 1024). *)
Definition float := spec_float.
Definition double := spec_float.

Definition f0 : float := S754_zero false.

Definition fadd : float -> float -> float := SFadd 24 128.
Definition fsub : float -> float -> float := SFsub 24 128.
Definition fmul : float -> float -> float := SFmul 24 128.
Definition fdiv : float -> float -> float := SFdiv 24 128.
Definition fsqrt : float -> float := SFsqrt 24 128.

Definition dmul : double -> double -> double := SFmul 53 1024.
Definition ddiv : double -> double -> double := SFdiv 53 1024.

(** [a > b], [a <= b] and [a == b]; all three are false when an operand
    is NaN. *)
Definition fgt (a b : spec_float) : bool := SFltb b a.
Definition fle (a b : spec_float) : bool := SFleb a b.
Definition feq (a b : spec_float) : bool := SFeqb a b.

Definition is_nan (x : spec_float) : bool :=
  match x with
  | S754_nan => true
  | _ => false
  end.

(** Conversions: [int] to [float] and to [double], the promotion of a
    [float] to [double] (exact) and the rounding of a [double] to
    [float]. *)
Definition float_of_int (z : Z) : float := binary_normalize 24 128 z 0 false.
Definition double_of_int (z : Z) : double := binary_normalize 53 1024 z 0 false.

Definition double_of_float (x : float) : double :=
  match x with
  | S754_finite s m e => binary_round 53 1024 s m e
  | _ => x
  end.

Definition float_of_double (x : double) : float :=
  match x with
  | S754_finite s m e => binary_round 24 128 s m e
  | _ => x
  end.

(** The integer a float denotes when it is finite and integral, as the
    cast [(long) x] computes it (truncation towards zero); zero for
    infinities and NaN. *)
Definition int_value (x : float) : Z :=
  match x with
  | S754_finite s m e =>
      let a := match e with
               | Zneg p => Z.shiftr (Zpos m) (Zpos p)
               | _ => Z.shiftl (Zpos m) e
               end in
      if s then Z.opp a else a
  | _ => 0%Z
  end.

End Float32.

Import Float32.

Abbreviation vec := (list float).
Abbreviation matrix := (list (list float)).

(** Array reads.  Reading outside the allocated buffer has no defined
    behaviour in C++; the model answers [+0] (resp. the empty row), and the
    statements that depend on the contents read assume the rows have the
    length the program is told. *)
Definition rd (v : vec) (i : nat) : float := default f0 (v !! i).
Definition row (m : matrix) (i : nat) : vec := default [] (m !! i).

(** ** The helpers of vectors.h *)

Module Vectors.

(** Modelled from the spec: [vec_dot] of vectors.h, which spkmeans.cpp
    includes but which is not part of the sources at hand: "dot(a, b):
    elementwise product sum", over the first [n] entries. *)
Definition vec_dot (a b : vec) (n : Z) : float :=
  for_loop (Z.to_nat n) (fun i acc => fadd acc (fmul (rd a i) (rd b i))) f0.

(** Modelled from the spec: [vec_norm] of vectors.h: "norm(v): Euclidean
    (L2) norm"; the zero vector has norm zero. *)
Definition vec_norm (v : vec) (n : Z) : float := fsqrt (vec_dot v v n).

(** Modelled from the spec: [vec_sum] of vectors.h: "elementwise sum
    across count vectors of length n; returns a newly allocated length-n
    vector.  Sum of zero vectors (empty partition) yields the zero
    vector." *)
Definition vec_sum (vectors : list vec) (n : Z) (count : Z) : vec :=
  for_loop (Z.to_nat count)
    (fun j res =>
       for_loop (Z.to_nat n)
         (fun i r => <[i := fadd (rd r i) (rd (row vectors j) i)]> r) res)
    (replicate (Z.to_nat n) f0).

(** Modelled from the spec: [vec_multiply] and [vec_divide] of vectors.h:
    "in-place elementwise scale"; dividing by zero follows IEEE-754
    (infinities, and NaN for 0/0).  In place: the function returns the
    buffer after the call. *)
Definition vec_multiply (v : vec) (n : Z) (scalar : float) : vec :=
  for_loop (Z.to_nat n) (fun i r => <[i := fmul (rd r i) scalar]> r) v.

Definition vec_divide (v : vec) (n : Z) (scalar : float) : vec :=
  for_loop (Z.to_nat n) (fun i r => <[i := fdiv (rd r i) scalar]> r) v.

(** Modelled from the spec: [vec_normalize] of vectors.h: "divides v by
    its own norm, in place". *)
Definition vec_normalize (v : vec) (n : Z) : vec :=
  vec_divide v n (vec_norm v n).

End Vectors.

Import Vectors.

(** ** The clustering engine *)

Module SPKMeans.

Local Open Scope Z_scope.

(** [#define Q_THRESHOLD 0.001]: a [double] literal, the binary64 value
    nearest to 1/1000. *)
Definition Q_THRESHOLD : double := ddiv (double_of_int 1) (double_of_int 1000).

(** The conversion of an [int] to [unsigned int] (32 bits). *)
Definition to_unsigned (z : Z) : Z := z mod 2 ^ 32.

(** [partitions[i]] and [p_sizes[i]]. *)
Definition part_at (partitions : list (list nat)) (i : nat) : list nat :=
  default [] (partitions !! i).

Definition size_at (p_sizes : list Z) (i : nat) : Z := default 0 (p_sizes !! i).

(** A partition is a [float**]: an array of pointers to rows of the
    document matrix.  [deref] reads the rows it points to. *)
Definition deref (doc_matrix : matrix) (partition : list nat) : list vec :=
  map (row doc_matrix) partition.

(** [txnScheme]: normalize every document vector, in place. *)
Definition txnScheme (doc_matrix : matrix) (dc wc : Z) : matrix :=
  for_loop (Z.to_nat dc)
    (fun i m => <[i := vec_normalize (row m i) wc]> m) doc_matrix.

(** [computeQuality] of one partition. *)
Definition computeQuality (doc_matrix : matrix) (partition : list nat)
    (p_size : Z) (concept : vec) (wc : Z) : float :=
  let sum_p := vec_sum (deref doc_matrix partition) wc p_size in
  vec_dot sum_p concept wc.

(** [computeQuality] of all partitions (the overload that takes the
    arrays). *)
Definition computeQuality_total (doc_matrix : matrix)
    (partitions : list (list nat)) (p_sizes : list Z) (concepts : list vec)
    (k wc : Z) : float :=
  for_loop (Z.to_nat k)
    (fun i quality =>
       fadd quality
         (computeQuality doc_matrix (part_at partitions i) (size_at p_sizes i)
            (row concepts i) wc))
    f0.

(** [cosineSimilarity]. *)
Definition cosineSimilarity (dv cv : vec) (wc : Z) : float :=
  fdiv (vec_dot dv cv wc) (fmul (vec_norm dv wc) (vec_norm cv wc)).

(** [computeConcept]: [vec_sum] allocates [cv]; [vec_multiply] scales it
    in place by [1.0 / wc] (a [double] division, passed on as a [float]);
    [vec_divide] then divides it in place by the norm it has at that
    point. *)
Definition computeConcept (doc_matrix : matrix) (partition : list nat)
    (p_size : Z) (wc : Z) : vec :=
  let cv := vec_sum (deref doc_matrix partition) wc p_size in
  let cv := vec_multiply cv wc
              (float_of_double (ddiv (double_of_int 1) (double_of_int wc))) in
  let cv := vec_divide cv wc (vec_norm cv wc) in
  cv.

(** Lines 196-198: [partitions[i] = new float*[p_size]], filled with the
    pointers to the rows [base - 1 .. base + p_size - 2]. *)
Definition fill_partition (base p_size : Z) : list nat :=
  for_loop (Z.to_nat p_size)
    (fun j p => <[j := Z.to_nat (base + Z.of_nat j - 1)]> p)
    (replicate (Z.to_nat p_size) 0%nat).

(** Lines 188-200: the body of the loop over the [k] groups.  [k] is an
    [unsigned int], so [i == k-1] compares unsigned values. *)
Definition partition_step (split k dc : Z) (i : nat)
    (st : Z * list (list nat) * list Z) : Z * list (list nat) * list Z :=
  let '(base, partitions, p_sizes) := st in
  let top := if Z.of_nat i =? to_unsigned (k - 1)
             then dc else base + split - 1 in
  let p_size := top - base + 1 in
  (base + split,
   <[i := fill_partition base p_size]> partitions,
   <[i := p_size]> p_sizes).

(** The first, arbitrary partitioning ([runSPKMeans], lines 184-201), with
    [split = floor(dc / k)] an unsigned division and [base] starting
    at 1. *)
Definition initial_partitioning (k dc : Z) : list (list nat) * list Z :=
  let split := to_unsigned dc / k in
  let '(_, partitions, p_sizes) :=
    for_loop (Z.to_nat k) (partition_step split k dc)
      (1, replicate (Z.to_nat k) [], replicate (Z.to_nat k) 0) in
  (partitions, p_sizes).

(** Lines 228-232: the body of the scan over the clusters [1 .. k-1];
    the running best is replaced only on a strict [>]. *)
Definition scan_step (sim : nat -> float) (j' : nat) (best : nat * float)
    : nat * float :=
  let '(cIndx, cVal) := best in
  let j := S j' in
  let new_cVal := sim j in
  if fgt new_cVal cVal then (j, new_cVal) else (cIndx, cVal).

(** Lines 225-233: the scan starts from cluster 0 with its similarity. *)
Definition closest_scan (sim : nat -> float) (k : Z) : nat * float :=
  for_loop (Z.to_nat k - 1) (scan_step sim) (0%nat, sim 0%nat).

(** [cosineSimilarity(doc_matrix[i], concepts[j], wc)]. *)
Definition similarity (doc_matrix : matrix) (concepts : list vec) (wc : Z)
    (i j : nat) : float :=
  cosineSimilarity (row doc_matrix i) (row concepts j) wc.

(** [cIndx] when the scan of document [i] is over. *)
Definition assigned_cluster (doc_matrix : matrix) (concepts : list vec)
    (k wc : Z) (i : nat) : nat :=
  fst (closest_scan (similarity doc_matrix concepts wc i) k).

(** The reassignment pass (lines 221-235): [k] empty vectors, then every
    document is pushed to the back of the vector of its cluster. *)
Definition reassign (doc_matrix : matrix) (concepts : list vec)
    (k dc wc : Z) : list (list nat) :=
  for_loop (Z.to_nat dc)
    (fun i new_partitions =>
       alter (fun p => p ++ [i]) (assigned_cluster doc_matrix concepts k wc i)
         new_partitions)
    (replicate (Z.to_nat k) []).

(** The variables of [runSPKMeans] that the loop reads and writes. *)
Record state := mkState {
  partitions : list (list nat);
  p_sizes : list Z;
  concepts : list vec;
  quality : float;
  dQ : float;
  iterations : Z
}.

(** [while (dQ > Q_THRESHOLD)]: the [float] is promoted to [double]. *)
Definition loop_cond (st : state) : bool :=
  fgt (double_of_float (dQ st)) Q_THRESHOLD.

(** Lines 239-242: the new partitions replace the old ones. *)
Definition transfer (new_partitions : list (list nat)) (k : Z)
    (partitions : list (list nat)) (p_sizes : list Z)
    : list (list nat) * list Z :=
  for_loop (Z.to_nat k)
    (fun i '(ps, szs) =>
       (<[i := part_at new_partitions i]> ps,
        <[i := Z.of_nat (length (part_at new_partitions i))]> szs))
    (partitions, p_sizes).

(** Lines 205-206 and 246-247: one concept vector per partition. *)
Definition compute_concepts (doc_matrix : matrix)
    (partitions : list (list nat)) (p_sizes : list Z) (k wc : Z)
    (concepts : list vec) : list vec :=
  for_loop (Z.to_nat k)
    (fun i cs =>
       <[i := computeConcept doc_matrix (part_at partitions i)
                (size_at p_sizes i) wc]> cs)
    concepts.

(** The body of the loop (lines 218-253). *)
Definition loop_body (doc_matrix : matrix) (k dc wc : Z) (st : state) : state :=
  let new_partitions := reassign doc_matrix (concepts st) k dc wc in
  let '(partitions', p_sizes') :=
    transfer new_partitions k (partitions st) (p_sizes st) in
  let concepts' :=
    compute_concepts doc_matrix partitions' p_sizes' k wc (concepts st) in
  let n_quality :=
    computeQuality_total doc_matrix partitions' p_sizes' concepts' k wc in
  {| partitions := partitions';
     p_sizes := p_sizes';
     concepts := concepts';
     quality := n_quality;
     dQ := fsub n_quality (quality st);
     iterations := iterations st + 1 |}.

(** The [while] loop.  The source has no bound on the number of
    iterations; [None] means that [fuel] iterations were not enough. *)
Fixpoint spk_loop (fuel : nat) (doc_matrix : matrix) (k dc wc : Z)
    (st : state) : option state :=
  if loop_cond st then
    match fuel with
    | O => None
    | S fuel' => spk_loop fuel' doc_matrix k dc wc (loop_body doc_matrix k dc wc st)
    end
  else Some st.

(** The state in which the loop is entered (lines 174-216). *)
Definition initial_state (doc_matrix : matrix) (k dc wc : Z) : state :=
  let '(partitions, p_sizes) := initial_partitioning k dc in
  let concepts :=
    compute_concepts doc_matrix partitions p_sizes k wc
      (replicate (Z.to_nat k) []) in
  let quality :=
    computeQuality_total doc_matrix partitions p_sizes concepts k wc in
  {| partitions := partitions;
     p_sizes := p_sizes;
     concepts := concepts;
     quality := quality;
     dQ := float_of_double (dmul Q_THRESHOLD (double_of_int 10));
     iterations := 0 |}.

(** [struct Results]. *)
Record Results := mkResults {
  r_k : Z;
  r_dc : Z;
  r_wc : Z;
  r_partitions : list (list nat);
  r_p_sizes : list Z;
  r_concepts : list vec
}.

(** [runSPKMeans]; the matrix is normalized in place, so it is returned
    along with the results and the final loop state. *)
Definition runSPKMeans (fuel : nat) (doc_matrix : matrix) (k dc wc : Z)
    : option (matrix * state * Results) :=
  let doc_matrix := txnScheme doc_matrix dc wc in
  match spk_loop fuel doc_matrix k dc wc (initial_state doc_matrix k dc wc) with
  | Some st =>
      Some (doc_matrix, st,
            {| r_k := k; r_dc := dc; r_wc := wc;
               r_partitions := partitions st;
               r_p_sizes := p_sizes st;
               r_concepts := concepts st |})
  | None => None
  end.

End SPKMeans.

(** ** The loader *)

Module Loader.

Local Open Scope Z_scope.

Definition INT_MAX : Z := 2 ^ 31 - 1.
Definition INT_MIN : Z := - 2 ^ 31.

(** [isspace] in the "C" locale: space, and the controls 9 to 13. *)
Definition isspace (c : ascii) : bool :=
  let n := Z.of_nat (nat_of_ascii c) in
  (n =? 32) || ((9 <=? n) && (n <=? 13)).

Definition digit_value (c : ascii) : option Z :=
  let n := Z.of_nat (nat_of_ascii c) in
  if (48 <=? n) && (n <=? 57) then Some (n - 48) else None.

Fixpoint skip_ws (s : string) : string :=
  match s with
  | String c r => if isspace c then skip_ws r else s
  | EmptyString => s
  end.

Fixpoint read_digits (s : string) (acc : Z) (seen : bool) : Z * bool * string :=
  match s with
  | String c r =>
      match digit_value c with
      | Some d => read_digits r (10 * acc + d) true
      | None => (acc, seen, s)
      end
  | EmptyString => (acc, seen, s)
  end.

(** [stream >> n] for an [int n]: skip white space, read an optional sign
    and the longest run of decimal digits.  The extraction fails (and
    every later extraction on the stream with it) when there is no digit
    or when the value does not fit an [int]. *)
Definition read_int (s : string) : option (Z * string) :=
  let s := skip_ws s in
  let '(negative, s) :=
    match s with
    | String "-"%char r => (true, r)
    | String "+"%char r => (false, r)
    | _ => (false, s)
    end in
  let '(v, seen, rest) := read_digits s 0 false in
  let v := if negative then - v else v in
  if seen && (INT_MIN <=? v) && (v <=? INT_MAX) then Some (v, rest) else None.

(** The lines [getline] yields until it fails: the text up to each
    newline, and a last unterminated line when it is not empty. *)
Fixpoint getlines (s : string) (line : string) (extracted : bool) : list string :=
  match s with
  | EmptyString => if extracted then [line] else []
  | String c r =>
      if Ascii.eqb c "010"%char then line :: getlines r EmptyString false
      else getlines r (line ++ String c EmptyString)%string true
  end.

(** [iss >> doc_id >> word_id >> count] on one line. *)
Definition parse_triplet (line : string) : option (Z * Z * Z) :=
  match read_int line with
  | Some (doc_id, s1) =>
      match read_int s1 with
      | Some (word_id, s2) =>
          match read_int s2 with
          | Some (count, _) => Some (doc_id, word_id, count)
          | None => None
          end
      | None => None
      end
  | None => None
  end.

(** [mat[r][c] = v] in a matrix allocated with [dc] rows of [wc] floats.
    A write outside the allocation has no defined behaviour: [None]. *)
Definition store (dc wc : Z) (mat : matrix) (r c : Z) (v : float) : option matrix :=
  if (0 <=? r) && (r <? dc) && (0 <=? c) && (c <? wc)
  then Some (<[Z.to_nat r := <[Z.to_nat c := v]> (row mat (Z.to_nat r))]> mat)
  else None.

(** The body of the [while (getline ...)] loop. *)
Definition load_line (dc wc : Z) (mat : matrix) (line : string) : option matrix :=
  match parse_triplet line with
  | None => Some mat
  | Some (doc_id, word_id, count) =>
      store dc wc mat (doc_id - 1) (word_id - 1) (float_of_int count)
  end.

Fixpoint populate (dc wc : Z) (lines : list string) (mat : matrix) : option matrix :=
  match lines with
  | [] => Some mat
  | line :: rest =>
      match load_line dc wc mat line with
      | Some mat' => populate dc wc rest mat'
      | None => None
      end
  end.

(** The matrix after the allocation loop: [dc] rows of [wc] zeros. *)
Definition zero_matrix (dc wc : Z) : matrix :=
  for_loop (Z.to_nat dc)
    (fun i mat => <[i := replicate (Z.to_nat wc) f0]> mat)
    (replicate (Z.to_nat dc) []).

(** [loadDocFile], on the contents of the file.  [None] when the run has
    no defined result: the three header integers cannot be read, an
    allocation is asked for a negative size, or a triplet names a cell
    outside the matrix. *)
Definition loadDocFile (content : string) : option (Z * Z * matrix) :=
  match read_int content with
  | Some (dc, s1) =>
      match read_int s1 with
      | Some (wc, s2) =>
          match read_int s2 with
          | Some (nzwc, s3) =>
              if (dc <? 0) || ((0 <? dc) && (wc <? 0)) then None
              else
                match populate dc wc (getlines s3 EmptyString false)
                        (zero_matrix dc wc) with
                | Some mat => Some (dc, wc, mat)
                | None => None
                end
          | None => None
          end
      | None => None
      end
  | None => None
  end.

(** The triplets of a list of lines: those from which three integers
    are read, in file order. *)
Definition triplets (lines : list string) : list (Z * Z * Z) :=
  omap parse_triplet lines.

(** The lines [loadDocFile] reads after the header. *)
Definition body_lines (content : string) : list string :=
  match read_int content with
  | Some (_, s1) =>
      match read_int s1 with
      | Some (_, s2) =>
          match read_int s2 with
          | Some (_, s3) => getlines s3 EmptyString false
          | None => []
          end
      | None => []
      end
  | None => []
  end.

Definition names_doc (d : Z) (t : Z * Z * Z) : bool := fst (fst t) =? d.
Definition names_cell (d w : Z) (t : Z * Z * Z) : bool :=
  (fst (fst t) =? d) && (snd (fst t) =? w).

Definition sum_counts (ts : list (Z * Z * Z)) : Z :=
  foldr (fun t acc => snd t + acc) 0 ts.

(** The sum of the entries of a row, each taken at its exact value. *)
Definition row_sum (r : vec) : Z := foldr (fun x acc => int_value x + acc) 0 r.

End Loader.

(** ** Statements and sample inputs *)

Module Statements.

Import SPKMeans Loader.
Local Open Scope Z_scope.

(** Cluster [c] has the highest of the [k] similarities: every one of
    them is [<=] that of [c]. *)
Definition highest_similarity (sim : nat -> float) (k : Z) (c : nat) : Prop :=
  forall j : nat, Z.of_nat j < k -> fle (sim j) (sim c) = true.

(** The state after [n] passes of the loop body. *)
Definition after_passes (doc_matrix : matrix) (k dc wc : Z) (n : nat) : state :=
  Nat.iter n (loop_body doc_matrix k dc wc) (initial_state doc_matrix k dc wc).

(** The initial groups in closed form: group [c] starts at document
    [c * (dc / k)]; the groups before the last hold [dc / k] documents,
    the last one holds the rest. *)
Definition group_size (k dc : Z) (c : nat) : Z :=
  if Z.of_nat c =? k - 1 then dc / k + dc mod k else dc / k.

Definition group (k dc : Z) (c : nat) : list nat :=
  seq (c * Z.to_nat (dc / k)) (Z.to_nat (group_size k dc c)).

(** The initial group of document [i], from its position alone. *)
Definition initial_group (k dc : Z) (i : nat) : nat :=
  Nat.min (i / Z.to_nat (dc / k)) (Z.to_nat k - 1).

(** "The first [dc mod k] groups absorb the remainder": each of them
    holds one document more than the floor [dc / k]. *)
Definition first_groups_absorb_remainder (k dc : Z) (p_sizes : list Z) : Prop :=
  forall c : nat, Z.of_nat c < dc mod k -> size_at p_sizes c = dc / k + 1.

Definition sum_sizes (p_sizes : list Z) : Z := foldr Z.add 0 p_sizes.

(** The concept vector in the words of the specification: the
    elementwise sum of the member vectors, scaled by [1/wc], then divided
    by its own Euclidean norm. *)
Definition elementwise_sum (members : list vec) (wc : Z) : vec :=
  foldl (zip_with fadd) (replicate (Z.to_nat wc) f0) members.

Definition euclidean_norm (v : vec) : float :=
  fsqrt (foldl (fun acc x => fadd acc (fmul x x)) f0 v).

Definition one_over (wc : Z) : float :=
  float_of_double (ddiv (double_of_int 1) (double_of_int wc)).

Definition concept_spec (members : list vec) (wc : Z) : vec :=
  let total := elementwise_sum members wc in
  let scaled := map (fun x => fmul x (one_over wc)) total in
  map (fun x => fdiv x (euclidean_norm scaled)) scaled.

(** The loop ends in state [st]: it returns [st] whatever the bound on
    the number of iterations. *)
Definition terminates_at (doc_matrix : matrix) (k dc wc : Z) (st : state) : Prop :=
  forall fuel : nat, spk_loop fuel doc_matrix k dc wc st = Some st.

(** [dQ <= Q_THRESHOLD], the [float] promoted as in the loop test. *)
Definition small_change (st : state) : bool :=
  fle (double_of_float (dQ st)) Q_THRESHOLD.

(** [matrix[docId-1][wordId-1]]. *)
Definition cell (mat : matrix) (doc_id word_id : Z) : float :=
  rd (row mat (Z.to_nat (doc_id - 1))) (Z.to_nat (word_id - 1)).

(** A matrix of [dc] rows of [wc] entries. *)
Definition well_shaped (dc wc : Z) (mat : matrix) : Prop :=
  length mat = Z.to_nat dc /\ forall r, r ∈ mat -> length r = Z.to_nat wc.

Definition in_range (dc wc : Z) (t : Z * Z * Z) : Prop :=
  1 <= fst (fst t) <= dc /\ 1 <= snd (fst t) <= wc.

(** The count of the last triplet that names the cell, if any does. *)
Fixpoint last_count (d w : Z) (ts : list (Z * Z * Z)) : option Z :=
  match ts with
  | [] => None
  | t :: rest =>
      match last_count d w rest with
      | Some c => Some c
      | None => if names_cell d w t then Some (snd t) else None
      end
  end.

(** A count that the conversion to [float] keeps as it is. *)
Definition exact_count (t : Z * Z * Z) : Prop :=
  int_value (float_of_int (snd t)) = snd t.

(** The round trip for one file: the entries of every row sum to the
    counts of the triplets that name the document. *)
Definition load_preserves_sums (content : string) : Prop :=
  forall dc wc mat, loadDocFile content = Some (dc, wc, mat) ->
  forall d, 1 <= d <= dc ->
    row_sum (row mat (Z.to_nat (d - 1))) =
    sum_counts (filter (fun t => names_doc d t = true) (triplets (body_lines content))).

(** The first two integers of the header, when the three of them are
    read. *)
Definition header (content : string) : option (Z * Z) :=
  match read_int content with
  | Some (dc, s1) =>
      match read_int s1 with
      | Some (wc, s2) =>
          match read_int s2 with
          | Some _ => Some (dc, wc)
          | None => None
          end
      | None => None
      end
  | None => None
  end.

Definition nl : string := String "010"%char EmptyString.

(** One document, one word, named by two triplets. *)
Definition file_twice : string :=
  ("1 1 2" ++ nl ++ "1 1 5" ++ nl ++ "1 1 3" ++ nl)%string.

(** One document, one word, with a count above [2^24]. *)
Definition file_large : string :=
  ("1 1 1" ++ nl ++ "1 1 16777217" ++ nl)%string.

(** Two documents over three words; a line of text, a line of two
    integers and a cell named twice among the triplets. *)
Definition file_mixed : string :=
  ("2 3 4" ++ nl ++ "1 1 5" ++ nl ++ "2 3 7" ++ nl ++ "bad line" ++ nl
     ++ "1 2" ++ nl ++ " 1   2 +9 extra" ++ nl ++ "1 1 3")%string.

(** Two documents over three words, every cell named at most once. *)
Definition file_plain : string :=
  ("2 3 3" ++ nl ++ "1 1 5" ++ nl ++ "2 3 7" ++ nl ++ "no triplet" ++ nl
     ++ "1 2 9" ++ nl)%string.

(** Two documents over two words; no triplet names the first one. *)
Definition file_with_empty : string :=
  ("2 2 1" ++ nl ++ "2 1 1" ++ nl)%string.

(** Six documents over two words, one word each. *)
Definition file_six : string :=
  ("6 2 6" ++ nl ++ "1 1 1" ++ nl ++ "2 2 1" ++ nl ++ "3 1 1" ++ nl
     ++ "4 1 1" ++ nl ++ "5 2 1" ++ nl ++ "6 2 1" ++ nl)%string.

Definition fi (z : Z) : float := float_of_int z.

(** Two documents over two words, the first without any word. *)
Definition docs_with_empty : matrix := [[fi 0; fi 0]; [fi 1; fi 0]].

(** The scenario of the specification: four documents over three
    words. *)
Definition docs_scenario : matrix :=
  [[fi 1; fi 0; fi 0]; [fi 1; fi 0; fi 0]; [fi 0; fi 1; fi 0]; [fi 0; fi 0; fi 1]].

(** Four documents over two words whose first pass improves the
    quality. *)
Definition docs_improving : matrix :=
  [[fi 1; fi 0]; [fi 0; fi 1]; [fi 1; fi 0]; [fi 1; fi 0]].

(** Six documents over two words, for three clusters. *)
Definition docs_six : matrix :=
  [[fi 1; fi 0]; [fi 0; fi 1]; [fi 1; fi 0]; [fi 1; fi 0]; [fi 0; fi 1]; [fi 0; fi 1]].

(** The matrices after [txnScheme], and the states in which the loop is
    entered with them. *)
Definition scenario_matrix : matrix := txnScheme docs_scenario 4 3.
Definition scenario_start : state := initial_state scenario_matrix 2 4 3.

Definition with_empty_matrix : matrix := txnScheme docs_with_empty 2 2.
Definition with_empty_start : state := initial_state with_empty_matrix 2 2 2.

Definition improving_matrix : matrix := txnScheme docs_improving 4 2.
Definition improving_start : state := initial_state improving_matrix 2 4 2.

Definition six_matrix : matrix := txnScheme docs_six 6 2.
Definition six_start : state := initial_state six_matrix 3 6 2.

End Statements.

(** ** The report *)

Module Reporter.

Import SPKMeans Loader.
Local Open Scope Z_scope.

(** [operator<] of [std::pair<float, int>], the order of the priority
    queue: [x.first < y.first || (!(y.first < x.first) && x.second < y.second)]. *)
Definition pair_lt (x y : float * Z) : bool :=
  fgt (fst y) (fst x) || (negb (fgt (fst x) (fst y)) && (snd x <? snd y)).

(** A [std::priority_queue<pair<float, int>>] holds a bag of pairs:
    [push] adds one, [top] is the greatest for [operator<], [pop] removes
    it.  [top] on an empty queue has no defined result. *)
Definition pq_push (x : float * Z) (q : list (float * Z)) : list (float * Z) :=
  x :: q.

Fixpoint pq_top (q : list (float * Z)) : option (float * Z) :=
  match q with
  | [] => None
  | x :: r =>
      match pq_top r with
      | Some y => Some (if pair_lt x y then y else x)
      | None => Some x
      end
  end.

Fixpoint pq_pop (q : list (float * Z)) : list (float * Z) :=
  match q with
  | [] => []
  | x :: r =>
      match pq_top r with
      | Some y => if pair_lt x y then x :: pq_pop r else r
      | None => []
      end
  end.

(** What [displayResults] writes to [cout], line by line. *)
Inductive output : Type :=
  | Partition_header (number : Z)
  | Word_line (word : string).

(** Lines 288-289: every value is pushed with its index. *)
Definition fill_queue (values : vec) : list (float * Z) :=
  for_loop (length values)
    (fun i q => pq_push (rd values i, Z.of_nat i) q) [].

(** Lines 292-296: [n] times, print [words[q.top().second]] and pop.
    A slot of [words] that was never set ([None]) is an uninitialised
    pointer: printing it has no defined result. *)
Fixpoint show_top (n : nat) (q : list (float * Z)) (words : list (option string))
    : option (list output) :=
  match n with
  | O => Some []
  | S n' =>
      match pq_top q with
      | Some (_, index) =>
          match words !! Z.to_nat index with
          | Some (Some w) =>
              match show_top n' (pq_pop q) words with
              | Some out => Some (Word_line w :: out)
              | None => None
              end
          | _ => None
          end
      | None => None
      end
  end.

(** Line 283: the sum of the rows of partition [i]. *)
Definition partition_sum (doc_matrix : matrix) (r : Results) (i : nat) : vec :=
  vec_sum (deref doc_matrix (part_at (r_partitions r) i)) (r_wc r)
    (size_at (r_p_sizes r) i).

(** Lines 281-296, the body of the loop over the partitions.  [values] is
    a copy of the [wc] entries of the sum.  With a NaN among them
    [operator<] on the pairs is not a strict weak ordering, which the
    priority queue requires: no defined result. *)
Definition display_partition (doc_matrix : matrix) (r : Results)
    (words : list (option string)) (num_to_show : Z) (i : nat)
    : option (list output) :=
  let sum := partition_sum doc_matrix r i in
  if r_wc r <? 0 then None
  else
    let values := take (Z.to_nat (r_wc r)) sum in
    if existsb is_nan values then None
    else
      match show_top (Z.to_nat num_to_show) (fill_queue values) words with
      | Some out => Some (Partition_header (Z.of_nat i + 1) :: out)
      | None => None
      end.

Definition display_step (doc_matrix : matrix) (r : Results)
    (words : list (option string)) (num_to_show : Z) (i : nat)
    (out : option (list output)) : option (list output) :=
  match out with
  | Some lines =>
      match display_partition doc_matrix r words num_to_show i with
      | Some more => Some (lines ++ more)
      | None => None
      end
  | None => None
  end.

(** [displayResults]: the lines written, or [None] when the run has no
    defined result.  The partitions of [r] point into [doc_matrix]. *)
Definition displayResults (doc_matrix : matrix) (r : Results)
    (words : list (option string)) (num_to_show : Z) : option (list output) :=
  let num_to_show := if num_to_show >? r_wc r then r_wc r else num_to_show in
  for_loop (Z.to_nat (r_k r)) (display_step doc_matrix r words num_to_show)
    (Some []).

(** Lines 354-365: the loop over the lines of the vocabulary file, left
    at the first line read when the [wc] slots are taken. *)
Fixpoint read_words (lines : list string) (wc i : Z)
    (words : list (option string)) : list (option string) :=
  match lines with
  | [] => words
  | line :: rest =>
      if i >=? wc then words
      else read_words rest wc (i + 1) (<[Z.to_nat i := Some line]> words)
  end.

(** [loadWordsFile], on the contents of the file: an array of [wc]
    slots, not initialised ([None]), filled from the lines.  [None] when
    [new char*[wc]] is asked for a negative size. *)
Definition loadWordsFile (content : string) (wc : Z)
    : option (list (option string)) :=
  if wc <? 0 then None
  else Some (read_words (getlines content EmptyString false) wc 0
               (replicate (Z.to_nat wc) None)).

End Reporter.

(** ** Further notions *)

Module Notions.

Import SPKMeans Loader Statements Reporter.
Local Open Scope Z_scope.

Definition is_zero (x : float) : bool :=
  match x with
  | S754_zero _ => true
  | _ => false
  end.

(** The first [n] entries of a vector are zeros (of either sign). *)
Definition zero_vector (v : vec) (n : Z) : Prop :=
  forall i : nat, (i < Z.to_nat n)%nat -> is_zero (rd v i) = true.

(** A state whose arrays have [k] entries and whose sizes, concept
    vectors and quality are those of its partitions: what every state of
    the loop is, as the properties below show. *)
Definition coherent (doc_matrix : matrix) (k wc : Z) (st : state) : Prop :=
  length (partitions st) = Z.to_nat k /\
  length (p_sizes st) = Z.to_nat k /\
  length (concepts st) = Z.to_nat k /\
  (forall c : nat,
     size_at (p_sizes st) c = Z.of_nat (length (part_at (partitions st) c))) /\
  (forall c : nat, (c < Z.to_nat k)%nat ->
     row (concepts st) c =
     computeConcept doc_matrix (part_at (partitions st) c)
       (size_at (p_sizes st) c) wc) /\
  quality st =
  computeQuality_total doc_matrix (partitions st) (p_sizes st) (concepts st) k wc.



(** A sample file whose second document is named by no triplet. *)
Definition file_silent_document : string :=
  ("2 2 1" ++ nl ++ "1 2 4" ++ nl)%string.

(** Word [a] is shown before word [b]: its weight is greater, or the
    weights are equal and its index is the greater one. *)
Definition shown_before (values : vec) (a b : nat) : Prop :=
  fgt (rd values a) (rd values b) = true \/
  (feq (rd values a) (rd values b) = true /\ (b < a)%nat).

(** The word in a slot of the vocabulary. *)
Definition word_at (words : list (option string)) (j : nat) : string :=
  match words !! j with
  | Some (Some w) => w
  | _ => EmptyString
  end.

(** The pairs a queue gives when [top] and [pop] are called [n] times. *)
Fixpoint drain (n : nat) (q : list (float * Z)) : list (float * Z) :=
  match n with
  | O => []
  | S n' =>
      match pq_top q with
      | Some m => m :: drain n' (pq_pop q)
      | None => []
      end
  end.

(** A queue the order requirement holds for: no weight is NaN, no index
    occurs twice. *)
Definition good_queue (q : list (float * Z)) : Prop :=
  NoDup (map snd q) /\ Forall (fun x => is_nan (fst x) = false) q.

Fixpoint descending (l : list (float * Z)) : Prop :=
  match l with
  | [] => True
  | a :: r => (forall b, b ∈ r -> pair_lt b a = true) /\ descending r
  end.

(** The indices of the pairs drained from the queue of [values]. *)
Definition shown_indices (values : vec) (n : nat) : list nat :=
  map (fun m => Z.to_nat (snd m)) (drain n (fill_queue values)).

(** The lines of one partition in the report. *)
Definition partition_lines (words : list (option string)) (i : nat)
    (indices : list nat) : list output :=
  Partition_header (Z.of_nat i + 1) ::
  map (fun j => Word_line (word_at words j)) indices.

(** A sample report: two documents in one partition, three words. *)
Definition report_matrix : matrix := [[fi 1; fi 1; f0]; [fi 2; fi 2; fi 1]].
Definition report_results : Results :=
  mkResults 1 2 3 [[0; 1]%nat] [2] [[f0; f0; f0]].
Definition report_words : list (option string) :=
  [Some "ant"%string; Some "bee"%string; Some "cat"%string].

(** Two vocabulary files: four lines, and two lines. *)
Definition vocabulary_long : string :=
  ("ant" ++ nl ++ "bee" ++ nl ++ "cat" ++ nl ++ "dog" ++ nl)%string.
Definition vocabulary_short : string := ("ant" ++ nl ++ "bee")%string.

End Notions.

(** * Properties *)

(** ** The order of the floats *)

Section FloatOrder.

Ltac cmp_cases :=
  repeat match goal with
  | H : context [Pos.compare_cont Eq ?a ?b] |- _ =>
      change (Pos.compare_cont Eq a b) with (Pos.compare a b) in H
  | |- context [Pos.compare_cont Eq ?a ?b] =>
      change (Pos.compare_cont Eq a b) with (Pos.compare a b)
  end;
  repeat match goal with
  | H : context [Z.compare ?a ?b] |- _ =>
      destruct (Z.compare_spec a b); simpl in H
  | |- context [Z.compare ?a ?b] => destruct (Z.compare_spec a b); simpl
  | H : context [Pos.compare ?a ?b] |- _ =>
      destruct (Pos.compare_spec a b); simpl in H
  | |- context [Pos.compare ?a ?b] => destruct (Pos.compare_spec a b); simpl
  end;
  subst; try discriminate; try reflexivity; try lia.

Ltac by_float_cases :=
  unfold fgt, fle, feq, SFeqb, SFleb, SFltb, SFcompare;
  repeat match goal with
  | x : spec_float |- _ => destruct x as [[]|[]| |[] ? ?]
  end;
  simpl; intros; try discriminate; try reflexivity; cmp_cases.

(** [>] is a strict order on all floats, NaN included (nothing is above
    or below a NaN). *)
Lemma fgt_irrefl (x : spec_float) : fgt x x = false.
Proof. by_float_cases. Qed.

Lemma fgt_trans (x y z : spec_float) :
  fgt x y = true -> fgt y z = true -> fgt x z = true.
Proof. by_float_cases. Qed.

Lemma feq_fgt_l (x y z : spec_float) :
  feq x y = true -> fgt x z = fgt y z.
Proof. by_float_cases. Qed.

(** [<=] is the negation of [>] exactly on the floats that are not NaN. *)
Lemma fle_fgt (x y : spec_float) :
  fle x y = negb (is_nan x) && negb (is_nan y) && negb (fgt x y).
Proof. by_float_cases. Qed.

Lemma fgt_total (x y : spec_float) :
  is_nan x = false -> is_nan y = false ->
  fgt x y = false -> feq x y = false -> fgt y x = true.
Proof. by_float_cases. Qed.

Lemma fgt_nan_l (x : spec_float) : fgt S754_nan x = false.
Proof. by_float_cases. Qed.

Lemma fgt_nan_r (x : spec_float) : fgt x S754_nan = false.
Proof. by_float_cases. Qed.

End FloatOrder.

(** Rounding a finite value never yields NaN, so a promoted [float] is NaN
    exactly when the [float] is. *)
Section Rounding.

Variables prec emax : Z.

Lemma shr_1_nonneg (mrs : shr_record) :
  (0 <= shr_m mrs)%Z -> (0 <= shr_m (shr_1 mrs))%Z.
Proof.
  destruct mrs as [m r s]; destruct m as [|[p|p|]|[p|p|]]; simpl; lia.
Qed.

Lemma iter_pos_shr_1_nonneg (p : positive) (mrs : shr_record) :
  (0 <= shr_m mrs)%Z -> (0 <= shr_m (SpecFloat.iter_pos shr_1 p mrs))%Z.
Proof.
  revert mrs; induction p as [p IH|p IH|]; intros mrs H; simpl.
  - apply IH, IH, shr_1_nonneg, H.
  - apply IH, IH, H.
  - apply shr_1_nonneg, H.
Qed.

Lemma shr_fexp_nonneg (m e : Z) (l : location) :
  (0 <= m)%Z -> (0 <= shr_m (fst (shr_fexp prec emax m e l)))%Z.
Proof.
  intros H. unfold shr_fexp, shr.
  assert (H0 : (0 <= shr_m (shr_record_of_loc m l))%Z)
    by (destruct l as [|[]]; simpl; exact H).
  destruct (fexp prec emax (Zdigits2 m + e) - e)%Z; simpl; try exact H0.
  apply iter_pos_shr_1_nonneg, H0.
Qed.

Lemma round_nearest_even_nonneg (m : Z) (l : location) :
  (0 <= m)%Z -> (0 <= round_nearest_even m l)%Z.
Proof.
  intros H. destruct l as [|[]]; simpl; try lia.
  destruct (Z.even m); lia.
Qed.

Lemma binary_round_aux_not_nan (s : bool) (m e : Z) (l : location) :
  (0 <= m)%Z -> is_nan (binary_round_aux prec emax s m e l) = false.
Proof.
  intros H. unfold binary_round_aux.
  pose proof (shr_fexp_nonneg m e l H) as H1.
  destruct (shr_fexp prec emax m e l) as [mrs' e']. simpl in H1.
  pose proof (shr_fexp_nonneg _ e' loc_Exact
                (round_nearest_even_nonneg _ (loc_of_shr_record mrs') H1)) as H2.
  destruct (shr_fexp prec emax _ e' loc_Exact) as [mrs'' e'']. simpl in H2.
  destruct (shr_m mrs''); try reflexivity; try lia.
  destruct (e'' <=? emax - prec)%Z; reflexivity.
Qed.

Lemma binary_round_not_nan (s : bool) (m : positive) (e : Z) :
  is_nan (binary_round prec emax s m e) = false.
Proof.
  unfold binary_round. destruct (shl_align m e _) as [mz ez].
  apply binary_round_aux_not_nan. lia.
Qed.

End Rounding.

Lemma is_nan_double_of_float (x : float) : is_nan (double_of_float x) = is_nan x.
Proof.
  destruct x; simpl; try reflexivity. apply binary_round_not_nan.
Qed.

(** ** The reassignment pass *)

Section Closest.

Import SPKMeans.

Variable sim : nat -> float.

(** What holds of the running best after the clusters [0..n] have been
    looked at. *)
Lemma scan_invariant (n : nat) :
  let r := for_loop n (scan_step sim) (0, sim 0) in
  snd r = sim (fst r) /\
  fst r <= n /\
  (forall j, j <= n -> fgt (sim j) (snd r) = false) /\
  (forall j, j < fst r -> feq (sim j) (snd r) = false).
Proof.
  induction n as [|n IH]; simpl.
  - repeat split; try lia.
    intros j Hj. replace j with 0 by lia. apply fgt_irrefl.
  - destruct (for_loop n (scan_step sim) (0, sim 0)) as [c v] eqn:E.
    simpl in IH. destruct IH as (Hv & Hc & Hmax & Hlow).
    unfold scan_step.
    destruct (fgt (sim (S n)) v) eqn:G; simpl.
    + repeat split; try lia.
      * intros j Hj. destruct (decide (j = S n)) as [->|Hne].
        -- apply fgt_irrefl.
        -- destruct (fgt (sim j) (sim (S n))) eqn:G'; [|reflexivity].
           rewrite <- (Hmax j ltac:(lia)). symmetry.
           eapply fgt_trans; eassumption.
      * intros j Hj. destruct (feq (sim j) (sim (S n))) eqn:Q; [|reflexivity].
        rewrite <- (Hmax j ltac:(lia)).
        rewrite (feq_fgt_l _ _ v Q). symmetry. exact G.
    + repeat split; try lia; try assumption.
      intros j Hj. destruct (decide (j = S n)) as [->|Hne].
      * exact G.
      * apply Hmax. lia.
Qed.

Lemma closest_scan_spec (k : Z) :
  (1 <= k)%Z ->
  let c := fst (closest_scan sim k) in
  (Z.of_nat c < k)%Z /\
  (forall j, (Z.of_nat j < k)%Z -> fgt (sim j) (sim c) = false) /\
  (forall j, j < c -> feq (sim j) (sim c) = false).
Proof.
  intros Hk c. subst c. unfold closest_scan.
  destruct (scan_invariant (Z.to_nat k - 1)) as (Hv & Hc & Hmax & Hlow).
  remember (for_loop (Z.to_nat k - 1) (scan_step sim) (0, sim 0)) as r eqn:Er.
  clear Er. rewrite Hv in Hmax, Hlow. repeat split.
  - lia.
  - intros j Hj. apply Hmax. lia.
  - exact Hlow.
Qed.

End Closest.

Section Assignment.

Import SPKMeans Statements.

(** C1, as the code has it.  For [k >= 1] every document is assigned to
    a cluster [c < k] such that no cluster has a cosine similarity
    strictly greater than that of [c] and no cluster of lower index has a
    similarity equal to it (the running best is replaced only on a strict
    [>], so ties go to the lowest index).  When none of the [k]
    similarities is NaN this makes [c] the lowest index whose similarity
    is the highest: it is [>=] all of them and [>] those of the lower
    indices. *)
Theorem assigned_cluster_maximal (doc_matrix : matrix) (cs : list vec)
    (k wc : Z) (i : nat) :
  (1 <= k)%Z ->
  let sim := similarity doc_matrix cs wc i in
  let c := assigned_cluster doc_matrix cs k wc i in
  (Z.of_nat c < k)%Z /\
  (forall j, (Z.of_nat j < k)%Z -> fgt (sim j) (sim c) = false) /\
  (forall j, j < c -> feq (sim j) (sim c) = false) /\
  ((forall j, (Z.of_nat j < k)%Z -> is_nan (sim j) = false) ->
   highest_similarity sim k c /\
   forall j, j < c -> fgt (sim c) (sim j) = true).
Proof.
  intros Hk sim c.
  assert (Ec : c = fst (closest_scan sim k)) by reflexivity.
  clearbody c sim.
  destruct (closest_scan_spec sim k Hk) as (Hc & Hmax & Hlow).
  rewrite <- Ec in Hc, Hmax, Hlow.
  split; [exact Hc|]. split; [exact Hmax|]. split; [exact Hlow|].
  intros Hnan. split.
  - intros j Hj. rewrite fle_fgt, (Hnan j Hj), (Hnan c Hc), (Hmax j Hj).
    reflexivity.
  - intros j Hj. apply fgt_total.
    + apply Hnan. lia.
    + apply Hnan, Hc.
    + apply Hmax. lia.
    + apply Hlow, Hj.
Qed.

End Assignment.

Section AssignmentExamples.

Import SPKMeans Loader Statements.

Lemma assigned_cluster_maximal_witness :
  (1 <= 2)%Z /\
  assigned_cluster scenario_matrix (concepts scenario_start) 2 3 2 = 1 /\
  highest_similarity
    (similarity scenario_matrix (concepts scenario_start) 3 2) 2
    (assigned_cluster scenario_matrix (concepts scenario_start) 2 3 2).
Proof.
  split; [lia|]. split; [vm_compute; reflexivity|].
  destruct (assigned_cluster_maximal scenario_matrix (concepts scenario_start)
              2 3 2 ltac:(lia)) as (_ & _ & _ & H).
  apply H. intros j Hj.
  destruct j as [|[|j]]; [vm_compute; reflexivity | vm_compute; reflexivity | lia].
Defined.

(** C1 as stated fails when a similarity is NaN.  The file loads as two
    documents the first of which has no word: its normalized vector, and
    with it the concept vector of the initial cluster 0, is NaN.  In the
    first pass the second document meets similarity NaN for cluster 0 and
    1 for cluster 1; [1 > NaN] is false, so it is assigned to cluster 0,
    whose similarity is not the highest. *)
Lemma assigned_cluster_not_highest :
  loadDocFile file_with_empty = Some (2, 2, docs_with_empty)%Z /\
  similarity with_empty_matrix (concepts with_empty_start) 2 1 0 = S754_nan /\
  similarity with_empty_matrix (concepts with_empty_start) 2 1 1 = fi 1 /\
  assigned_cluster with_empty_matrix (concepts with_empty_start) 2 2 1 = 0 /\
  ~ highest_similarity
      (similarity with_empty_matrix (concepts with_empty_start) 2 1) 2
      (assigned_cluster with_empty_matrix (concepts with_empty_start) 2 2 1).
Proof.
  split; [vm_compute; reflexivity|].
  split; [vm_compute; reflexivity|].
  split; [vm_compute; reflexivity|].
  split; [vm_compute; reflexivity|].
  intros H. specialize (H 1 ltac:(lia)). vm_compute in H. discriminate.
Qed.

End AssignmentExamples.

(** ** Loops that fill an array *)

Section FillLoops.

Context {A : Type}.

Lemma for_loop_insert_length (g : nat -> list A -> A) (n : nat) (l : list A) :
  length (for_loop n (fun i r => <[i := g i r]> r) l) = length l.
Proof.
  induction n as [|n IH]; simpl; [reflexivity|].
  rewrite length_insert. exact IH.
Qed.

(** Writing [g i] to every slot [i < n]. *)
Lemma for_loop_insert_lookup (g : nat -> A) (n : nat) (l : list A) (j : nat) :
  for_loop n (fun i r => <[i := g i]> r) l !! j =
  if decide (j < n) then (fun _ => g j) <$> l !! j else l !! j.
Proof.
  induction n as [|n IH]; simpl.
  - reflexivity.
  - destruct (decide (j = n)) as [->|Hne].
    + destruct (decide (n < S n)); [|lia].
      destruct (decide (n < length l)) as [Hlt|Hge].
      * rewrite list_lookup_insert_eq
          by (rewrite (for_loop_insert_length (fun i _ => g i)); exact Hlt).
        destruct (lookup_lt_is_Some_2 l n Hlt) as [x ->]. reflexivity.
      * rewrite list_insert_ge
          by (rewrite (for_loop_insert_length (fun i _ => g i)); lia).
        rewrite IH. destruct (decide (n < n)); [lia|].
        rewrite (lookup_ge_None_2 l n) by lia. reflexivity.
    + rewrite list_lookup_insert_ne by congruence. rewrite IH.
      destruct (decide (j < n)), (decide (j < S n)); try lia; reflexivity.
Qed.

Lemma for_loop_insert_all (g : nat -> A) (n : nat) (l : list A) :
  length l = n ->
  for_loop n (fun i r => <[i := g i]> r) l = map g (seq 0 n).
Proof.
  intros Hl. apply list_eq. intros j.
  rewrite for_loop_insert_lookup, list_lookup_fmap.
  destruct (decide (j < n)) as [Hlt|Hge].
  - rewrite lookup_seq_lt by exact Hlt.
    destruct (lookup_lt_is_Some_2 l j ltac:(lia)) as [x ->]. reflexivity.
  - rewrite lookup_seq_ge by lia. apply lookup_ge_None_2. lia.
Qed.

(** Updating every slot [i < n] from its own content. *)
Lemma for_loop_map (f : A -> A) (d : A) (n : nat) (l : list A) :
  n <= length l ->
  for_loop n (fun i r => <[i := f (default d (r !! i))]> r) l =
  map f (take n l) ++ drop n l.
Proof.
  induction n as [|n IH]; intros Hn; simpl.
  - rewrite drop_0. reflexivity.
  - rewrite IH by lia.
    destruct (lookup_lt_is_Some_2 l n ltac:(lia)) as [x Hx].
    rewrite (take_S_r l n x Hx), (drop_S l x n Hx).
    assert (Hlen : length (map f (take n l)) = n)
      by (rewrite length_map, length_take; lia).
    rewrite lookup_app_r by lia. rewrite Hlen, Nat.sub_diag. simpl.
    rewrite insert_app_r_alt by lia. rewrite Hlen, Nat.sub_diag. simpl.
    rewrite map_app. simpl. rewrite <- app_assoc. reflexivity.
Qed.

End FillLoops.

(** ** The partitions rebuilt by a pass *)

Section Rebuild.

Import SPKMeans Statements.

(** Pushing every [i < n] to the back of the vector [f i]: vector [c]
    ends up with the [i] such that [f i = c], in increasing order. *)
Lemma push_loop_length (f : nat -> nat) (K n : nat) :
  length (for_loop n (fun i np => alter (fun p => p ++ [i]) (f i) np)
            (replicate K [])) = K.
Proof.
  induction n as [|n IH]; simpl.
  - apply length_replicate.
  - rewrite length_alter. exact IH.
Qed.

Lemma push_loop_lookup (f : nat -> nat) (K n c : nat) :
  c < K ->
  for_loop n (fun i np => alter (fun p => p ++ [i]) (f i) np)
    (replicate K []) !! c =
  Some (filter (fun i => f i = c) (seq 0 n)).
Proof.
  intros Hc. induction n as [|n IH]; cbn [for_loop].
  - apply lookup_replicate_2. exact Hc.
  - rewrite seq_S, filter_app. cbn [Nat.add].
    destruct (decide (f n = c)) as [E|E].
    + rewrite E, list_lookup_alter_eq, IH. simpl.
      rewrite filter_cons_True by exact E. reflexivity.
    + rewrite list_lookup_alter_ne by exact E. rewrite IH.
      rewrite filter_cons_False by exact E.
      rewrite filter_nil, app_nil_r. reflexivity.
Qed.

Lemma reassign_length (dm : matrix) (cs : list vec) (k dc wc : Z) :
  length (reassign dm cs k dc wc) = Z.to_nat k.
Proof. apply push_loop_length. Qed.

Lemma reassign_part_at (dm : matrix) (cs : list vec) (k dc wc : Z) (c : nat) :
  c < Z.to_nat k ->
  part_at (reassign dm cs k dc wc) c =
  filter (fun i => assigned_cluster dm cs k wc i = c) (seq 0 (Z.to_nat dc)).
Proof.
  intros Hc. unfold part_at, reassign.
  rewrite (push_loop_lookup _ _ _ _ Hc). reflexivity.
Qed.

(** The transfer loop copies the [k] new partitions and their sizes. *)
Lemma transfer_fst (np : list (list nat)) (k : Z) (ps : list (list nat))
    (szs : list Z) :
  fst (transfer np k ps szs) =
  for_loop (Z.to_nat k) (fun i r => <[i := part_at np i]> r) ps.
Proof.
  unfold transfer. induction (Z.to_nat k) as [|n IH]; simpl; [reflexivity|].
  destruct (for_loop n _ (ps, szs)) as [a b]. simpl in *. rewrite IH.
  reflexivity.
Qed.

Lemma transfer_snd (np : list (list nat)) (k : Z) (ps : list (list nat))
    (szs : list Z) :
  snd (transfer np k ps szs) =
  for_loop (Z.to_nat k)
    (fun i r => <[i := Z.of_nat (length (part_at np i))]> r) szs.
Proof.
  unfold transfer. induction (Z.to_nat k) as [|n IH]; simpl; [reflexivity|].
  destruct (for_loop n _ (ps, szs)) as [a b]. simpl in *. rewrite IH.
  reflexivity.
Qed.

Lemma partitions_loop_body (dm : matrix) (k dc wc : Z) (st : state) :
  partitions (loop_body dm k dc wc st) =
  fst (transfer (reassign dm (concepts st) k dc wc) k (partitions st) (p_sizes st)).
Proof.
  unfold loop_body. destruct (transfer _ k _ _) as [a b]. reflexivity.
Qed.

Lemma p_sizes_loop_body (dm : matrix) (k dc wc : Z) (st : state) :
  p_sizes (loop_body dm k dc wc st) =
  snd (transfer (reassign dm (concepts st) k dc wc) k (partitions st) (p_sizes st)).
Proof.
  unfold loop_body. destruct (transfer _ k _ _) as [a b]. reflexivity.
Qed.

Lemma part_at_transfer (np ps : list (list nat)) (k : Z) (szs : list Z) (c : nat) :
  length ps = Z.to_nat k ->
  part_at (fst (transfer np k ps szs)) c =
  if decide (c < Z.to_nat k) then part_at np c else [].
Proof.
  intros Hl. rewrite transfer_fst. unfold part_at at 1.
  rewrite for_loop_insert_lookup.
  destruct (decide (c < Z.to_nat k)) as [Hc|Hc].
  - destruct (lookup_lt_is_Some_2 ps c ltac:(lia)) as [x ->]. reflexivity.
  - rewrite (lookup_ge_None_2 ps c) by lia. reflexivity.
Qed.

Lemma size_at_transfer (np ps : list (list nat)) (k : Z) (szs : list Z) (c : nat) :
  length szs = Z.to_nat k ->
  size_at (snd (transfer np k ps szs)) c =
  if decide (c < Z.to_nat k) then Z.of_nat (length (part_at np c)) else 0%Z.
Proof.
  intros Hl. rewrite transfer_snd. unfold size_at at 1.
  rewrite for_loop_insert_lookup.
  destruct (decide (c < Z.to_nat k)) as [Hc|Hc].
  - destruct (lookup_lt_is_Some_2 szs c ltac:(lia)) as [x ->]. reflexivity.
  - rewrite (lookup_ge_None_2 szs c) by lia. reflexivity.
Qed.

End Rebuild.

Section PartitionInvariant.

Import SPKMeans Statements.

Lemma partition_loop_lengths (split k dc : Z) (n : nat)
    (st : Z * list (list nat) * list Z) :
  length (snd (fst (for_loop n (partition_step split k dc) st))) =
    length (snd (fst st)) /\
  length (snd (for_loop n (partition_step split k dc) st)) = length (snd st).
Proof.
  induction n as [|n IH]; simpl; [split; reflexivity|].
  destruct (for_loop n (partition_step split k dc) st) as [[b ps] szs].
  simpl in *. rewrite !length_insert. exact IH.
Qed.

Lemma initial_partitioning_lengths (k dc : Z) :
  length (fst (initial_partitioning k dc)) = Z.to_nat k /\
  length (snd (initial_partitioning k dc)) = Z.to_nat k.
Proof.
  unfold initial_partitioning.
  pose proof (partition_loop_lengths (to_unsigned dc / k) k dc (Z.to_nat k)
                (1%Z, replicate (Z.to_nat k) [], replicate (Z.to_nat k) 0%Z)) as H.
  destruct (for_loop _ _ _) as [[b ps] szs]. simpl in *.
  rewrite !length_replicate in H. exact H.
Qed.

Lemma initial_state_lengths (dm : matrix) (k dc wc : Z) :
  length (partitions (initial_state dm k dc wc)) = Z.to_nat k /\
  length (p_sizes (initial_state dm k dc wc)) = Z.to_nat k.
Proof.
  unfold initial_state.
  pose proof (initial_partitioning_lengths k dc) as H.
  destruct (initial_partitioning k dc) as [ps szs]. exact H.
Qed.

Lemma loop_body_lengths (dm : matrix) (k dc wc : Z) (st : state) :
  length (partitions (loop_body dm k dc wc st)) = length (partitions st) /\
  length (p_sizes (loop_body dm k dc wc st)) = length (p_sizes st).
Proof.
  rewrite partitions_loop_body, p_sizes_loop_body, transfer_fst, transfer_snd.
  split.
  - apply (for_loop_insert_length (fun i _ => part_at _ i)).
  - apply (for_loop_insert_length (fun i _ => Z.of_nat (length (part_at _ i)))).
Qed.

Lemma after_passes_lengths (dm : matrix) (k dc wc : Z) (n : nat) :
  length (partitions (after_passes dm k dc wc n)) = Z.to_nat k /\
  length (p_sizes (after_passes dm k dc wc n)) = Z.to_nat k.
Proof.
  induction n as [|n IH]; unfold after_passes; simpl.
  - apply initial_state_lengths.
  - destruct (loop_body_lengths dm k dc wc (after_passes dm k dc wc n)) as [H1 H2].
    unfold after_passes in H1, H2, IH. rewrite H1, H2. exact IH.
Qed.

(** C3.  After every pass of the loop body, for every matrix and every
    [k >= 1]: there are [k] partitions; every document below [dc] is in
    one of them; no document is in two of them; the partitions hold
    documents below [dc] only, each at most once; and the recorded sizes
    are the numbers of members. *)
Theorem partitions_after_pass (dm : matrix) (k dc wc : Z) (n : nat) :
  (1 <= k)%Z ->
  let st := after_passes dm k dc wc (S n) in
  let ps := partitions st in
  length ps = Z.to_nat k /\
  (forall i, i < Z.to_nat dc -> exists c, c < Z.to_nat k /\ i ∈ part_at ps c) /\
  (forall c c' i, i ∈ part_at ps c -> i ∈ part_at ps c' -> c = c') /\
  (forall c i, i ∈ part_at ps c -> i < Z.to_nat dc) /\
  (forall c, NoDup (part_at ps c)) /\
  (forall c, size_at (p_sizes st) c = Z.of_nat (length (part_at ps c))).
Proof.
  intros Hk st ps.
  destruct (after_passes_lengths dm k dc wc n) as [Lp Ls].
  destruct (after_passes_lengths dm k dc wc (S n)) as [Lp' _].
  set (prev := after_passes dm k dc wc n) in *.
  assert (Hps : forall c, part_at ps c =
            if decide (c < Z.to_nat k)
            then filter (fun i => assigned_cluster dm (concepts prev) k wc i = c)
                   (seq 0 (Z.to_nat dc))
            else []).
  { intros c. unfold ps, st, after_passes. simpl.
    fold (after_passes dm k dc wc n). fold prev.
    rewrite partitions_loop_body, part_at_transfer by exact Lp.
    destruct (decide (c < Z.to_nat k)) as [Hc|Hc]; [|reflexivity].
    apply reassign_part_at, Hc. }
  assert (Hin : forall c i, i ∈ part_at ps c <->
            c < Z.to_nat k /\ i < Z.to_nat dc /\
            assigned_cluster dm (concepts prev) k wc i = c).
  { intros c i. rewrite Hps. destruct (decide (c < Z.to_nat k)) as [Hc|Hc].
    - rewrite list_elem_of_filter, elem_of_seq. intuition lia.
    - rewrite elem_of_nil. intuition lia. }
  split; [exact Lp'|]. split; [|split; [|split; [|split]]].
  - intros i Hi. exists (assigned_cluster dm (concepts prev) k wc i).
    assert (Hc : assigned_cluster dm (concepts prev) k wc i < Z.to_nat k).
    { destruct (closest_scan_spec (similarity dm (concepts prev) wc i) k Hk)
        as (Hc & _). unfold assigned_cluster. lia. }
    split; [exact Hc|]. apply Hin. auto.
  - intros c c' i H1 H2. apply Hin in H1, H2.
    destruct H1 as (_ & _ & <-), H2 as (_ & _ & <-). reflexivity.
  - intros c i H. apply Hin in H. tauto.
  - intros c. rewrite Hps. destruct (decide (c < Z.to_nat k)).
    + apply NoDup_filter, NoDup_seq.
    + apply NoDup_nil_2.
  - intros c. unfold ps, st, after_passes. simpl.
    fold (after_passes dm k dc wc n). fold prev.
    rewrite p_sizes_loop_body, partitions_loop_body.
    rewrite size_at_transfer by exact Ls.
    rewrite part_at_transfer by exact Lp.
    destruct (decide (c < Z.to_nat k)); reflexivity.
Qed.

Lemma partitions_after_pass_witness :
  (1 <= 2)%Z /\
  partitions (after_passes scenario_matrix 2 4 3 1) = [[0; 1]; [2; 3]] /\
  (forall i, i < Z.to_nat 4 ->
     exists c, c < Z.to_nat 2 /\
       i ∈ part_at (partitions (after_passes scenario_matrix 2 4 3 1)) c).
Proof.
  split; [lia|]. split; [vm_compute; reflexivity|].
  exact (proj1 (proj2
    (partitions_after_pass scenario_matrix 2 4 3 0 ltac:(lia)))).
Defined.

End PartitionInvariant.

(** ** The initial partitioning *)

Section InitialPartitioning.

Import SPKMeans Statements.
Local Open Scope Z_scope.

Lemma fill_partition_seq (base p_size : Z) :
  1 <= base ->
  fill_partition base p_size = seq (Z.to_nat (base - 1)) (Z.to_nat p_size).
Proof.
  intros Hb. unfold fill_partition.
  rewrite (for_loop_insert_all (fun j => Z.to_nat (base + Z.of_nat j - 1)))
    by apply length_replicate.
  apply list_eq. intros j. rewrite list_lookup_fmap.
  destruct (decide (j < Z.to_nat p_size)%nat) as [Hj|Hj].
  - rewrite !lookup_seq_lt by exact Hj. simpl. f_equal. lia.
  - rewrite !lookup_seq_ge by lia. reflexivity.
Qed.

Lemma partition_loop_spec (k dc : Z) (n : nat) :
  1 <= k < 2 ^ 32 -> 0 <= dc -> (n <= Z.to_nat k)%nat ->
  let r := for_loop n (partition_step (dc / k) k dc)
             (1, replicate (Z.to_nat k) [], replicate (Z.to_nat k) 0) in
  fst (fst r) = 1 + Z.of_nat n * (dc / k) /\
  forall c, (c < n)%nat ->
    snd (fst r) !! c = Some (group k dc c) /\
    snd r !! c = Some (group_size k dc c).
Proof.
  intros Hk Hdc. induction n as [|n IH]; intros Hn; cbn [for_loop].
  - split; [simpl; lia|]. intros c Hc. lia.
  - specialize (IH ltac:(lia)). cbv zeta in IH.
    pose proof (partition_loop_lengths (dc / k) k dc n
                  (1, replicate (Z.to_nat k) [], replicate (Z.to_nat k) 0)) as HL.
    destruct (for_loop n _ _) as [[b ps] szs]. simpl in IH, HL.
    rewrite !length_replicate in HL. destruct HL as [Lp Ls].
    destruct IH as [Hb IH]. subst b.
    assert (Hs : 0 <= dc / k) by (apply Z.div_pos; lia).
    assert (Hu : to_unsigned (k - 1) = k - 1)
      by (unfold to_unsigned; apply Z.mod_small; lia).
    cbv zeta. unfold partition_step. rewrite Hu. simpl.
    split; [lia|]. intros c Hc.
    destruct (decide (c = n)) as [->|Hne].
    + rewrite !list_lookup_insert_eq by lia.
      assert (Hsz : (if Z.of_nat n =? k - 1 then dc
                     else 1 + Z.of_nat n * (dc / k) + dc / k - 1)
                    - (1 + Z.of_nat n * (dc / k)) + 1 = group_size k dc n).
      { unfold group_size. destruct (Z.of_nat n =? k - 1) eqn:E; [|lia].
        apply Z.eqb_eq in E. pose proof (Z.div_mod dc k ltac:(lia)). nia. }
      rewrite Hsz. split; [|reflexivity].
      rewrite fill_partition_seq by nia. unfold group. do 3 f_equal.
      replace (1 + Z.of_nat n * (dc / k) - 1) with (Z.of_nat n * (dc / k)) by lia.
      rewrite Z2Nat.inj_mul, Nat2Z.id by lia. reflexivity.
    + rewrite !list_lookup_insert_ne by congruence. apply IH. lia.
Qed.

Lemma initial_partitioning_closed (k dc : Z) (c : nat) :
  1 <= k < 2 ^ 32 -> 0 <= dc < 2 ^ 32 -> (c < Z.to_nat k)%nat ->
  part_at (fst (initial_partitioning k dc)) c = group k dc c /\
  size_at (snd (initial_partitioning k dc)) c = group_size k dc c.
Proof.
  intros Hk Hdc Hc. unfold initial_partitioning.
  replace (to_unsigned dc) with dc
    by (unfold to_unsigned; symmetry; apply Z.mod_small; lia).
  pose proof (partition_loop_spec k dc (Z.to_nat k) Hk ltac:(lia) ltac:(lia)) as H.
  cbv zeta in H. destruct (for_loop _ _ _) as [[b ps] szs]. simpl in *.
  destruct H as [_ H]. destruct (H c Hc) as [H1 H2].
  unfold part_at, size_at. rewrite H1, H2. split; reflexivity.
Qed.

End InitialPartitioning.

Section InitialPartitioningClaims.

Import SPKMeans Statements.
Local Open Scope Z_scope.

Lemma group_size_inner (k dc : Z) (c : nat) :
  Z.of_nat c < k - 1 -> group_size k dc c = dc / k.
Proof.
  intros Hc. unfold group_size.
  destruct (Z.of_nat c =? k - 1) eqn:E; [|reflexivity].
  apply Z.eqb_eq in E. lia.
Qed.

Lemma group_size_last (k dc : Z) :
  1 <= k -> group_size k dc (Z.to_nat k - 1) = dc / k + dc mod k.
Proof.
  intros Hk. unfold group_size.
  destruct (Z.of_nat (Z.to_nat k - 1) =? k - 1) eqn:E; [reflexivity|].
  apply Z.eqb_neq in E. lia.
Qed.

Lemma initial_partitions_map (k dc : Z) :
  1 <= k < 2 ^ 32 -> 0 <= dc < 2 ^ 32 ->
  fst (initial_partitioning k dc) = map (group k dc) (seq 0 (Z.to_nat k)) /\
  snd (initial_partitioning k dc) = map (group_size k dc) (seq 0 (Z.to_nat k)).
Proof.
  intros Hk Hdc. destruct (initial_partitioning_lengths k dc) as [Lp Ls].
  split; apply list_eq; intros c; rewrite list_lookup_fmap;
    destruct (decide (c < Z.to_nat k)%nat) as [Hc|Hc].
  - destruct (initial_partitioning_closed k dc c Hk Hdc Hc) as [H _].
    rewrite lookup_seq_lt by exact Hc. simpl. rewrite <- H. unfold part_at.
    destruct (lookup_lt_is_Some_2 _ c ltac:(rewrite Lp; exact Hc)) as [x ->].
    reflexivity.
  - rewrite lookup_seq_ge by lia. apply lookup_ge_None_2. lia.
  - destruct (initial_partitioning_closed k dc c Hk Hdc Hc) as [_ H].
    rewrite lookup_seq_lt by exact Hc. simpl. rewrite <- H. unfold size_at.
    destruct (lookup_lt_is_Some_2 _ c ltac:(rewrite Ls; exact Hc)) as [x ->].
    reflexivity.
  - rewrite lookup_seq_ge by lia. apply lookup_ge_None_2. lia.
Qed.

Lemma concat_inner_groups (k dc : Z) (n : nat) :
  0 <= dc -> 1 <= k -> Z.of_nat n <= k - 1 ->
  concat (map (group k dc) (seq 0 n)) = seq 0 (n * Z.to_nat (dc / k)).
Proof.
  intros Hdc Hk. induction n as [|n IH]; intros Hn; [reflexivity|].
  rewrite seq_S, map_app, concat_app, IH by lia. simpl.
  rewrite app_nil_r. unfold group. rewrite group_size_inner by lia.
  rewrite <- seq_app. f_equal. lia.
Qed.

Lemma sum_inner_sizes (k dc : Z) (n : nat) :
  Z.of_nat n <= k - 1 ->
  sum_sizes (map (group_size k dc) (seq 0 n)) = Z.of_nat n * (dc / k).
Proof.
  unfold sum_sizes. induction n as [|n IH]; intros Hn; [reflexivity|].
  rewrite seq_S, map_app, foldr_app. simpl.
  rewrite group_size_inner by lia.
  assert (G : forall (l : list Z) (a : Z), foldr Z.add a l = foldr Z.add 0 l + a).
  { induction l as [|x l IHl]; intros a; simpl; [lia|]. rewrite IHl. lia. }
  rewrite G, IH by lia. lia.
Qed.

(** C4, as the code has it.  The initial partitioning splits the [dc]
    documents into [k] contiguous groups in original order: each of the
    first [k - 1] groups holds exactly [floor (dc / k)] documents, and
    the last group takes all the rest, [floor (dc / k) + dc mod k]
    documents.  The remainder goes to the last group as a whole. *)
Theorem initial_partitioning_groups (k dc : Z) :
  1 <= k < 2 ^ 32 -> 0 <= dc < 2 ^ 31 ->
  let ps := fst (initial_partitioning k dc) in
  let szs := snd (initial_partitioning k dc) in
  let split := dc / k in
  length ps = Z.to_nat k /\
  concat ps = seq 0 (Z.to_nat dc) /\
  (forall c : nat, Z.of_nat c < k - 1 ->
     size_at szs c = split /\
     part_at ps c = seq (c * Z.to_nat split) (Z.to_nat split)) /\
  size_at szs (Z.to_nat k - 1) = split + dc mod k /\
  part_at ps (Z.to_nat k - 1) =
    seq ((Z.to_nat k - 1) * Z.to_nat split) (Z.to_nat (split + dc mod k)).
Proof.
  intros Hk Hdc ps szs split.
  assert (Hdc' : 0 <= dc < 2 ^ 32) by lia.
  destruct (initial_partitions_map k dc Hk Hdc') as [Hps Hszs].
  fold ps in Hps. fold szs in Hszs.
  assert (Hs : 0 <= dc / k) by (apply Z.div_pos; lia).
  pose proof (Z.div_mod dc k ltac:(lia)) as Hdm.
  pose proof (Z.mod_pos_bound dc k ltac:(lia)) as Hm.
  split; [|split; [|split; [|split]]].
  - rewrite Hps, length_map, length_seq. reflexivity.
  - rewrite Hps.
    replace (Z.to_nat k) with (S (Z.to_nat k - 1)) at 1 by lia.
    rewrite seq_S, map_app, concat_app, concat_inner_groups by lia.
    simpl. rewrite app_nil_r. unfold group.
    rewrite group_size_last by lia. rewrite <- seq_app. f_equal. nia.
  - intros c Hc.
    destruct (initial_partitioning_closed k dc c Hk Hdc' ltac:(lia)) as [H1 H2].
    fold ps in H1. fold szs in H2. rewrite H1, H2. unfold group.
    rewrite group_size_inner by exact Hc. split; reflexivity.
  - destruct (initial_partitioning_closed k dc (Z.to_nat k - 1) Hk Hdc' ltac:(lia))
      as [_ H2].
    fold szs in H2. rewrite H2. apply group_size_last. lia.
  - destruct (initial_partitioning_closed k dc (Z.to_nat k - 1) Hk Hdc' ltac:(lia))
      as [H1 _].
    fold ps in H1. rewrite H1. unfold group. rewrite group_size_last by lia.
    reflexivity.
Qed.

Lemma initial_partitioning_groups_witness :
  (1 <= 3 < 2 ^ 32) /\ (0 <= 5 < 2 ^ 31) /\
  concat (fst (initial_partitioning 3 5)) = seq 0 (Z.to_nat 5) /\
  size_at (snd (initial_partitioning 3 5)) (Z.to_nat 3 - 1) = 5 / 3 + 5 mod 3.
Proof.
  split; [lia|]. split; [lia|].
  pose proof (initial_partitioning_groups 3 5 ltac:(lia) ltac:(lia)) as H.
  cbv zeta in H. split; [apply H|apply H].
Defined.

(** C4 as stated fails: with five documents and three groups the two
    first groups hold one document each, the floor [5 / 3], and the last
    one holds three; no group before the last absorbs any of the
    remainder. *)
Lemma first_groups_do_not_absorb :
  initial_partitioning 3 5 = ([[0]; [1]; [2; 3; 4]]%nat, [1; 1; 3]) /\
  ~ first_groups_absorb_remainder 3 5 (snd (initial_partitioning 3 5)).
Proof.
  split; [vm_compute; reflexivity|].
  intros H. specialize (H 0%nat ltac:(vm_compute; reflexivity)).
  vm_compute in H. discriminate.
Qed.

End InitialPartitioningClaims.

Section InitialPartitioningSizes.

Import SPKMeans Statements.
Local Open Scope Z_scope.

Lemma elem_of_group (k dc : Z) (c i : nat) :
  1 <= k <= dc -> (c < Z.to_nat k)%nat ->
  i ∈ group k dc c <-> (i < Z.to_nat dc)%nat /\ c = initial_group k dc i.
Proof.
  intros Hk Hc. unfold group, initial_group. rewrite elem_of_seq.
  assert (Hs : 1 <= dc / k)
    by (apply Z.div_le_lower_bound; lia).
  pose proof (Z.div_mod dc k ltac:(lia)) as Hdm.
  pose proof (Z.mod_pos_bound dc k ltac:(lia)) as Hm.
  set (s := Z.to_nat (dc / k)).
  assert (Hs' : (1 <= s)%nat) by (unfold s; lia).
  assert (Hdc : (Z.to_nat dc = Z.to_nat k * s + Z.to_nat (dc mod k))%nat)
    by (unfold s; nia).
  pose proof (Nat.div_mod_eq i s) as Hi.
  pose proof (Nat.mod_upper_bound i s ltac:(lia)) as Hr.
  destruct (decide (Z.of_nat c < k - 1)) as [Hin|Hlast].
  - rewrite group_size_inner by exact Hin. fold s. split.
    + intros [H1 H2]. split; [nia|].
      assert (E : (i / s = c)%nat) by nia. lia.
    + intros [H1 H2].
      assert (E : (i / s = c)%nat) by lia. nia.
  - assert (Ec : c = (Z.to_nat k - 1)%nat) by lia. subst c.
    rewrite group_size_last by lia.
    replace (Z.to_nat (dc / k + dc mod k)) with (s + Z.to_nat (dc mod k))%nat
      by (unfold s; lia).
    split.
    + intros [H1 H2]. split; [nia|].
      assert (E : (Z.to_nat k - 1 <= i / s)%nat) by nia. lia.
    + intros [H1 H2].
      assert (E : (Z.to_nat k - 1 <= i / s)%nat) by lia. nia.
Qed.

(** C6.  For [dc >= 1] and [1 <= k <= dc] the initial partitioning
    produces [k] partitions whose sizes sum to [dc]; every recorded size
    is the number of members of its partition; and the partition of a
    document is a function of its position and of [(dc, k)] alone:
    document [i] is in partition [min (i / (dc / k)) (k - 1)] and in no
    other. *)
Theorem initial_partitioning_sizes (k dc : Z) :
  1 <= dc < 2 ^ 31 -> 1 <= k <= dc ->
  let ps := fst (initial_partitioning k dc) in
  let szs := snd (initial_partitioning k dc) in
  length ps = Z.to_nat k /\
  length szs = Z.to_nat k /\
  sum_sizes szs = dc /\
  (forall c : nat, size_at szs c = Z.of_nat (length (part_at ps c))) /\
  (forall i c : nat,
     i ∈ part_at ps c <-> (i < Z.to_nat dc)%nat /\ c = initial_group k dc i).
Proof.
  intros Hdc Hk ps szs.
  assert (Hk' : 1 <= k < 2 ^ 32) by lia.
  assert (Hdc' : 0 <= dc < 2 ^ 32) by lia.
  destruct (initial_partitions_map k dc Hk' Hdc') as [Hps Hszs].
  fold ps in Hps. fold szs in Hszs.
  pose proof (Z.div_mod dc k ltac:(lia)) as Hdm.
  pose proof (Z.mod_pos_bound dc k ltac:(lia)) as Hm.
  assert (Hs : 1 <= dc / k) by (apply Z.div_le_lower_bound; lia).
  assert (Hpart : forall c, part_at ps c =
            if decide (c < Z.to_nat k)%nat then group k dc c else []).
  { intros c. unfold part_at. rewrite Hps, list_lookup_fmap.
    destruct (decide (c < Z.to_nat k)%nat).
    - rewrite lookup_seq_lt by assumption. reflexivity.
    - rewrite lookup_seq_ge by lia. reflexivity. }
  assert (Hsize : forall c, size_at szs c =
            if decide (c < Z.to_nat k)%nat then group_size k dc c else 0).
  { intros c. unfold size_at. rewrite Hszs, list_lookup_fmap.
    destruct (decide (c < Z.to_nat k)%nat).
    - rewrite lookup_seq_lt by assumption. reflexivity.
    - rewrite lookup_seq_ge by lia. reflexivity. }
  split; [|split; [|split; [|split]]].
  - rewrite Hps, length_map, length_seq. reflexivity.
  - rewrite Hszs, length_map, length_seq. reflexivity.
  - rewrite Hszs.
    replace (Z.to_nat k) with (S (Z.to_nat k - 1)) by lia.
    rewrite seq_S, map_app. unfold sum_sizes. rewrite foldr_app. simpl.
    rewrite group_size_last by lia.
    pose proof (sum_inner_sizes k dc (Z.to_nat k - 1) ltac:(lia)) as Hsum.
    unfold sum_sizes in Hsum.
    assert (G : forall (l : list Z) (a : Z), foldr Z.add a l = foldr Z.add 0 l + a).
    { induction l as [|x l IHl]; intros a; simpl; [lia|]. rewrite IHl. lia. }
    rewrite G, Hsum. nia.
  - intros c. rewrite Hsize, Hpart.
    destruct (decide (c < Z.to_nat k)%nat) as [Hc|Hc]; [|reflexivity].
    unfold group. rewrite length_seq.
    assert (0 <= group_size k dc c); [|lia].
    unfold group_size. destruct (Z.of_nat c =? k - 1); lia.
  - intros i c. rewrite Hpart.
    destruct (decide (c < Z.to_nat k)%nat) as [Hc|Hc].
    + apply elem_of_group; [lia|exact Hc].
    + rewrite elem_of_nil. unfold initial_group. split; [tauto|].
      intros [_ E]. lia.
Qed.

Lemma initial_partitioning_sizes_witness :
  (1 <= 5 < 2 ^ 31) /\ (1 <= 3 <= 5) /\
  sum_sizes (snd (initial_partitioning 3 5)) = 5.
Proof.
  split; [lia|]. split; [lia|].
  apply (initial_partitioning_sizes 3 5); lia.
Defined.

End InitialPartitioningSizes.

(** ** The concept vector *)

Section Concept.

Import SPKMeans Statements.

(** Updating every slot [i < n] from its own content and its index. *)
Lemma for_loop_update_lookup {A : Type} (h : nat -> A -> A) (d : A)
    (n : nat) (l : list A) (j : nat) :
  for_loop n (fun i r => <[i := h i (default d (r !! i))]> r) l !! j =
  if decide (j < n) then h j <$> l !! j else l !! j.
Proof.
  induction n as [|n IH]; cbn [for_loop]; [reflexivity|].
  pose proof (for_loop_insert_length
                (fun i r => h i (default d (r !! i))) n l) as HL.
  destruct (decide (j = n)) as [->|Hne].
  - destruct (decide (n < S n)); [|lia].
    assert (IHn : for_loop n (fun i r => <[i := h i (default d (r !! i))]> r) l
                    !! n = l !! n)
      by (rewrite IH; destruct (decide (n < n)); [lia|reflexivity]).
    destruct (decide (n < length l)) as [Hlt|Hge].
    + rewrite list_lookup_insert_eq by (rewrite HL; exact Hlt).
      rewrite IHn. destruct (lookup_lt_is_Some_2 l n Hlt) as [x ->].
      reflexivity.
    + rewrite list_insert_ge by (rewrite HL; lia). rewrite IHn.
      rewrite (lookup_ge_None_2 l n) by lia. reflexivity.
  - rewrite list_lookup_insert_ne by congruence. rewrite IH.
    destruct (decide (j < n)), (decide (j < S n)); try lia; reflexivity.
Qed.

Lemma vec_multiply_map (v : vec) (n : Z) (scalar : float) :
  Z.to_nat n = length v ->
  vec_multiply v n scalar = map (fun x => fmul x scalar) v.
Proof.
  intros Hn. unfold vec_multiply, rd.
  rewrite (for_loop_map (fun x => fmul x scalar) f0) by lia.
  rewrite Hn, take_ge, drop_all, app_nil_r by lia. reflexivity.
Qed.

Lemma vec_divide_map (v : vec) (n : Z) (scalar : float) :
  Z.to_nat n = length v ->
  vec_divide v n scalar = map (fun x => fdiv x scalar) v.
Proof.
  intros Hn. unfold vec_divide, rd.
  rewrite (for_loop_map (fun x => fdiv x scalar) f0) by lia.
  rewrite Hn, take_ge, drop_all, app_nil_r by lia. reflexivity.
Qed.

Lemma vec_norm_euclidean (v : vec) (n : Z) :
  Z.to_nat n = length v -> vec_norm v n = euclidean_norm v.
Proof.
  intros Hn. unfold vec_norm, euclidean_norm, vec_dot. f_equal.
  assert (H : forall m, m <= length v ->
            for_loop m (fun i acc => fadd acc (fmul (rd v i) (rd v i))) f0 =
            foldl (fun acc x => fadd acc (fmul x x)) f0 (take m v)).
  { induction m as [|m IH]; intros Hm; cbn [for_loop]; [reflexivity|].
    destruct (lookup_lt_is_Some_2 v m ltac:(lia)) as [x Hx].
    rewrite (take_S_r v m x Hx), foldl_snoc, IH by lia.
    unfold rd. rewrite Hx. reflexivity. }
  rewrite H by lia. rewrite take_ge by lia. reflexivity.
Qed.

(** One pass of [vec_sum] over the entries adds a row elementwise. *)
Lemma add_row_zip_with (res v : vec) (n : nat) :
  length res = n -> length v = n ->
  for_loop n (fun i r => <[i := fadd (rd r i) (rd v i)]> r) res =
  zip_with fadd res v.
Proof.
  intros Hr Hv. apply list_eq. intros j. unfold rd.
  rewrite (for_loop_update_lookup (fun i x => fadd x (default f0 (v !! i))) f0).
  rewrite lookup_zip_with.
  destruct (decide (j < n)) as [Hj|Hj].
  - destruct (lookup_lt_is_Some_2 res j ltac:(lia)) as [x ->].
    destruct (lookup_lt_is_Some_2 v j ltac:(lia)) as [y ->]. reflexivity.
  - rewrite (lookup_ge_None_2 res j) by lia. reflexivity.
Qed.

Lemma vec_sum_elementwise (vectors : list vec) (n : Z) :
  (forall v, v ∈ vectors -> length v = Z.to_nat n) ->
  vec_sum vectors n (Z.of_nat (length vectors)) = elementwise_sum vectors n.
Proof.
  intros Hrows. unfold vec_sum, elementwise_sum. rewrite Nat2Z.id.
  assert (H : forall m, m <= length vectors ->
            for_loop m
              (fun j res =>
                 for_loop (Z.to_nat n)
                   (fun i r => <[i := fadd (rd r i) (rd (row vectors j) i)]> r) res)
              (replicate (Z.to_nat n) f0) =
            foldl (zip_with fadd) (replicate (Z.to_nat n) f0) (take m vectors) /\
            length (foldl (zip_with fadd) (replicate (Z.to_nat n) f0)
                      (take m vectors)) = Z.to_nat n).
  { induction m as [|m IH]; intros Hm; cbn [for_loop].
    - split; [reflexivity|]. simpl. apply length_replicate.
    - destruct (IH ltac:(lia)) as [IH1 IH2].
      destruct (lookup_lt_is_Some_2 vectors m ltac:(lia)) as [v Hv].
      assert (Lv : length v = Z.to_nat n)
        by (apply Hrows; eapply list_elem_of_lookup_2; exact Hv).
      rewrite (take_S_r vectors m v Hv), foldl_snoc, IH1.
      unfold row at 1. rewrite Hv. simpl.
      rewrite add_row_zip_with by assumption.
      split; [reflexivity|].
      rewrite length_zip_with_l_eq; [exact IH2|]. rewrite IH2, Lv. reflexivity. }
  destruct (H (length vectors) ltac:(lia)) as [-> _].
  rewrite take_ge by lia. reflexivity.
Qed.

(** C5.  For every partition whose members are rows of [wc] entries,
    [computeConcept] returns the elementwise sum of the member document
    vectors, scaled by the scalar [1/wc], then divided by its own
    Euclidean norm (the norm of the scaled sum). *)
Theorem computeConcept_spec (doc_matrix : matrix) (partition : list nat) (wc : Z) :
  (forall i, i ∈ partition -> length (row doc_matrix i) = Z.to_nat wc) ->
  computeConcept doc_matrix partition (Z.of_nat (length partition)) wc =
  concept_spec (deref doc_matrix partition) wc.
Proof.
  intros Hrows. unfold computeConcept, concept_spec.
  assert (Hd : length (deref doc_matrix partition) = length partition)
    by (unfold deref; apply length_map).
  rewrite <- Hd.
  rewrite vec_sum_elementwise.
  2:{ intros v Hv. unfold deref in Hv. apply list_elem_of_fmap in Hv.
      destruct Hv as (i & -> & Hi). apply Hrows, Hi. }
  assert (Ht : length (elementwise_sum (deref doc_matrix partition) wc)
               = Z.to_nat wc).
  { unfold elementwise_sum.
    assert (G : forall (vs : list vec) (acc : vec),
              (forall v, v ∈ vs -> length v = Z.to_nat wc) ->
              length acc = Z.to_nat wc ->
              length (foldl (zip_with fadd) acc vs) = Z.to_nat wc).
    { induction vs as [|v vs IH]; intros acc Hvs Hacc; simpl; [exact Hacc|].
      apply IH.
      - intros w Hw. apply Hvs. right. exact Hw.
      - rewrite length_zip_with_l_eq; [exact Hacc|].
        rewrite Hacc. symmetry. apply Hvs. left. }
    apply G; [|apply length_replicate].
    intros v Hv. unfold deref in Hv. apply list_elem_of_fmap in Hv.
    destruct Hv as (i & -> & Hi). apply Hrows, Hi. }
  fold (one_over wc).
  rewrite vec_multiply_map by (rewrite Ht; reflexivity).
  rewrite vec_norm_euclidean by (rewrite length_map, Ht; reflexivity).
  rewrite vec_divide_map by (rewrite length_map, Ht; reflexivity).
  reflexivity.
Qed.

Lemma computeConcept_spec_witness :
  (forall i, i ∈ [2; 3] -> length (row scenario_matrix i) = Z.to_nat 3) /\
  computeConcept scenario_matrix [2; 3] (Z.of_nat (length [2; 3])) 3 =
  concept_spec (deref scenario_matrix [2; 3]) 3.
Proof.
  assert (H : forall i, i ∈ [2; 3] ->
            length (row scenario_matrix i) = Z.to_nat 3).
  { intros i Hi. apply list_elem_of_In in Hi. simpl in Hi.
    destruct Hi as [<-|[<-|[]]]; vm_compute; reflexivity. }
  split; [exact H|]. apply (computeConcept_spec _ _ _ H).
Defined.

End Concept.

(** ** The refinement loop *)

Section Loop.

Import SPKMeans Loader Statements.

Lemma spk_loop_exit (dm : matrix) (k dc wc : Z) (st : state) :
  loop_cond st = false -> terminates_at dm k dc wc st.
Proof. intros H fuel. destruct fuel; cbn [spk_loop]; rewrite H; reflexivity. Qed.

Lemma spk_loop_step (dm : matrix) (k dc wc : Z) (st : state) (fuel : nat) :
  loop_cond st = true ->
  spk_loop (S fuel) dm k dc wc st =
  spk_loop fuel dm k dc wc (loop_body dm k dc wc st).
Proof. intros H. cbn [spk_loop]. rewrite H. reflexivity. Qed.

Lemma terminates_at_cond (dm : matrix) (k dc wc : Z) (st : state) :
  terminates_at dm k dc wc st <-> loop_cond st = false.
Proof.
  split; [|apply spk_loop_exit].
  intros H. specialize (H 0). cbn [spk_loop] in H.
  destruct (loop_cond st); [discriminate|reflexivity].
Qed.

Lemma loop_body_dQ (dm : matrix) (k dc wc : Z) (st : state) :
  dQ (loop_body dm k dc wc st) =
  fsub (quality (loop_body dm k dc wc st)) (quality st).
Proof. unfold loop_body. destruct (transfer _ _ _ _). reflexivity. Qed.

Lemma loop_body_iterations (dm : matrix) (k dc wc : Z) (st : state) :
  iterations (loop_body dm k dc wc st) = (iterations st + 1)%Z.
Proof. unfold loop_body. destruct (transfer _ _ _ _). reflexivity. Qed.

Lemma spk_loop_iterations (dm : matrix) (k dc wc : Z) (fuel : nat) :
  forall st st', spk_loop fuel dm k dc wc st = Some st' ->
  (iterations st <= iterations st')%Z.
Proof.
  induction fuel as [|fuel IH]; intros st st'; cbn [spk_loop];
    destruct (loop_cond st); intros H; try discriminate.
  - injection H as <-. lia.
  - apply IH in H. rewrite loop_body_iterations in H. lia.
  - injection H as <-. lia.
Qed.

Lemma Q_THRESHOLD_not_nan : is_nan Q_THRESHOLD = false.
Proof. vm_compute. reflexivity. Qed.

(** The loop test is false exactly when [dQ <= Q_THRESHOLD] or [dQ] is
    NaN. *)
Lemma loop_cond_false (st : state) :
  loop_cond st = false <-> small_change st = true \/ is_nan (dQ st) = true.
Proof.
  unfold loop_cond, small_change. rewrite fle_fgt, Q_THRESHOLD_not_nan.
  rewrite is_nan_double_of_float.
  destruct (is_nan (dQ st)) eqn:N.
  - destruct (dQ st); try discriminate. cbn [double_of_float].
    rewrite fgt_nan_l. tauto.
  - destruct (fgt (double_of_float (dQ st)) Q_THRESHOLD);
      cbn [negb andb]; intuition congruence.
Qed.

(** The promotion to [double] keeps the sign. *)
Lemma binary_round_aux_sign (prec emax : Z) (s : bool) (m e : Z) (l : location) :
  match binary_round_aux prec emax s m e l with
  | S754_zero s' | S754_infinity s' | S754_finite s' _ _ => s' = s
  | S754_nan => True
  end.
Proof.
  unfold binary_round_aux.
  destruct (shr_fexp prec emax m e l) as [mrs' e'].
  destruct (shr_fexp prec emax _ e' loc_Exact) as [mrs'' e''].
  destruct (shr_m mrs''); try exact I; try reflexivity.
  destruct (e'' <=? emax - prec)%Z; reflexivity.
Qed.

Lemma negative_change_is_small (x : float) :
  fgt f0 x = true -> fgt (double_of_float x) Q_THRESHOLD = false.
Proof.
  destruct x as [[]|[]| |[] m e]; try discriminate; try reflexivity.
  intros _. unfold double_of_float, binary_round.
  destruct (shl_align m e _) as [mz ez].
  pose proof (binary_round_aux_sign 53 1024 true (Zpos mz) ez loc_Exact) as H.
  destruct (binary_round_aux 53 1024 true (Zpos mz) ez loc_Exact) as [s|s| |s m' e'];
    try subst s; reflexivity.
Qed.

(** C2, as the code has it.  After an iteration, with
    [dQ = newQuality - oldQuality], the loop ends exactly when the test
    [dQ > Q_THRESHOLD] is false, that is when [dQ <= Q_THRESHOLD] or [dQ]
    is NaN.  An iteration whose [dQ] is negative ends the loop, and an
    iteration with [dQ > Q_THRESHOLD] never does: the loop goes on with
    another pass. *)
Theorem loop_exit_condition (dm : matrix) (k dc wc : Z) (st : state) :
  let st' := loop_body dm k dc wc st in
  dQ st' = fsub (quality st') (quality st) /\
  (terminates_at dm k dc wc st' <->
   small_change st' = true \/ is_nan (dQ st') = true) /\
  (fgt f0 (dQ st') = true -> terminates_at dm k dc wc st') /\
  (fgt (double_of_float (dQ st')) Q_THRESHOLD = true ->
   ~ terminates_at dm k dc wc st' /\
   forall fuel, spk_loop (S fuel) dm k dc wc st' =
                spk_loop fuel dm k dc wc (loop_body dm k dc wc st')).
Proof.
  intros st'. split; [apply loop_body_dQ|]. split; [|split].
  - rewrite terminates_at_cond. apply loop_cond_false.
  - intros H. apply spk_loop_exit. unfold loop_cond.
    apply negative_change_is_small, H.
  - intros H. split.
    + rewrite terminates_at_cond. unfold loop_cond. rewrite H. discriminate.
    + intros fuel. apply spk_loop_step, H.
Qed.

(** C2 as stated fails when [dQ] is NaN.  Six documents in three
    clusters: the first pass leaves cluster 0 empty, its concept vector
    and the quality are NaN, so is [dQ]; the test [dQ > Q_THRESHOLD] is
    false and the loop ends, although [dQ <= Q_THRESHOLD] does not
    hold. *)
Lemma loop_ends_on_nan :
  loadDocFile file_six = Some (6, 2, docs_six)%Z /\
  partitions (loop_body six_matrix 3 6 2 six_start) = [[]; [0; 2; 3]; [1; 4; 5]] /\
  dQ (loop_body six_matrix 3 6 2 six_start) = S754_nan /\
  ~ (terminates_at six_matrix 3 6 2 (loop_body six_matrix 3 6 2 six_start) <->
     small_change (loop_body six_matrix 3 6 2 six_start) = true).
Proof.
  split; [vm_compute; reflexivity|].
  split; [vm_compute; reflexivity|]. split; [vm_compute; reflexivity|].
  intros [H _].
  assert (E : small_change (loop_body six_matrix 3 6 2 six_start) = true).
  { apply H, spk_loop_exit. vm_compute. reflexivity. }
  vm_compute in E. discriminate.
Qed.

(** A run of two iterations: the first one raises the quality by more
    than the threshold, the second one leaves it as it is. *)
Lemma loop_exit_condition_witness :
  fgt (double_of_float (dQ (loop_body improving_matrix 2 4 2 improving_start)))
    Q_THRESHOLD = true /\
  ~ terminates_at improving_matrix 2 4 2
      (loop_body improving_matrix 2 4 2 improving_start) /\
  terminates_at improving_matrix 2 4 2
    (loop_body improving_matrix 2 4 2
       (loop_body improving_matrix 2 4 2 improving_start)).
Proof.
  assert (G : fgt (double_of_float
                     (dQ (loop_body improving_matrix 2 4 2 improving_start)))
                Q_THRESHOLD = true) by (vm_compute; reflexivity).
  split; [exact G|]. split.
  - destruct (loop_exit_condition improving_matrix 2 4 2 improving_start)
      as (_ & _ & _ & H).
    apply (H G).
  - destruct (loop_exit_condition improving_matrix 2 4 2
                (loop_body improving_matrix 2 4 2 improving_start))
      as (_ & H & _).
    apply H. left. vm_compute. reflexivity.
Defined.

(** C10.  For every matrix and every [k], the loop is entered with [dQ]
    equal to ten times [Q_THRESHOLD] whatever the initial quality; the
    test [dQ > Q_THRESHOLD] succeeds the first time, so the body (one
    reassignment pass, the rebuilt partitions, the new concept vectors
    and the new quality) is run at least once: the loop never ends in the
    state it is entered in, and every run of [runSPKMeans] that returns
    has counted at least one iteration. *)
Theorem loop_runs_at_least_once (doc_matrix : matrix) (k dc wc : Z) :
  let dm := txnScheme doc_matrix dc wc in
  let st0 := initial_state dm k dc wc in
  dQ st0 = float_of_double (dmul Q_THRESHOLD (double_of_int 10)) /\
  loop_cond st0 = true /\
  (forall fuel, spk_loop (S fuel) dm k dc wc st0 =
                spk_loop fuel dm k dc wc (loop_body dm k dc wc st0)) /\
  ~ terminates_at dm k dc wc st0 /\
  (forall fuel m st r,
     runSPKMeans fuel doc_matrix k dc wc = Some (m, st, r) ->
     (1 <= iterations st)%Z).
Proof.
  intros dm st0.
  assert (HdQ : dQ st0 = float_of_double (dmul Q_THRESHOLD (double_of_int 10))).
  { unfold st0, initial_state. destruct (initial_partitioning k dc). reflexivity. }
  assert (Hit : iterations st0 = 0%Z).
  { unfold st0, initial_state. destruct (initial_partitioning k dc). reflexivity. }
  assert (Hc : loop_cond st0 = true).
  { unfold loop_cond. rewrite HdQ. vm_compute. reflexivity. }
  split; [exact HdQ|]. split; [exact Hc|]. split; [|split].
  - intros fuel. apply spk_loop_step, Hc.
  - rewrite terminates_at_cond, Hc. discriminate.
  - intros fuel m st r H. unfold runSPKMeans in H.
    fold dm in H. fold st0 in H.
    destruct (spk_loop fuel dm k dc wc st0) as [st1|] eqn:E; [|discriminate].
    injection H as _ <- _. destruct fuel as [|fuel].
    + cbn [spk_loop] in E. rewrite Hc in E. discriminate.
    + rewrite spk_loop_step in E by exact Hc.
      apply spk_loop_iterations in E.
      rewrite loop_body_iterations, Hit in E. lia.
Qed.

Lemma loop_runs_at_least_once_witness :
  (exists m st r, runSPKMeans 5 docs_improving 2 4 2 = Some (m, st, r) /\
                  iterations st = 2%Z /\
                  r_partitions r = [[1]; [0; 2; 3]]) /\
  forall m st r, runSPKMeans 5 docs_improving 2 4 2 = Some (m, st, r) ->
                 (1 <= iterations st)%Z.
Proof.
  split.
  - do 3 eexists. split; [vm_compute; reflexivity|]. split; reflexivity.
  - destruct (loop_runs_at_least_once docs_improving 2 4 2) as (_ & _ & _ & _ & H).
    apply (H 5%nat).
Defined.

End Loop.

(** ** The loader *)

Section LoaderLemmas.

Import Loader Statements.
Local Open Scope Z_scope.

Variables dc wc : Z.

Lemma zero_matrix_replicate :
  zero_matrix dc wc = replicate (Z.to_nat dc) (replicate (Z.to_nat wc) f0).
Proof.
  unfold zero_matrix.
  rewrite (for_loop_insert_all (fun _ => replicate (Z.to_nat wc) f0))
    by apply length_replicate.
  apply list_eq. intros j. rewrite list_lookup_fmap.
  destruct (decide (j < Z.to_nat dc)%nat) as [Hj|Hj].
  - rewrite lookup_seq_lt, lookup_replicate_2 by exact Hj. reflexivity.
  - rewrite lookup_seq_ge by lia. symmetry. apply lookup_ge_None_2.
    rewrite length_replicate. lia.
Qed.

Lemma zero_matrix_shaped : well_shaped dc wc (zero_matrix dc wc).
Proof.
  rewrite zero_matrix_replicate. split.
  - apply length_replicate.
  - intros r Hr. apply elem_of_replicate in Hr. destruct Hr as [-> _].
    apply length_replicate.
Qed.

Lemma zero_matrix_cell (d w : Z) : cell (zero_matrix dc wc) d w = f0.
Proof.
  rewrite zero_matrix_replicate. unfold cell, row, rd.
  destruct (replicate (Z.to_nat dc) (replicate (Z.to_nat wc) f0)
              !! Z.to_nat (d - 1)) as [r|] eqn:E; simpl.
  - apply lookup_replicate in E. destruct E as [-> _].
    destruct (replicate (Z.to_nat wc) f0 !! Z.to_nat (w - 1)) as [x|] eqn:E';
      simpl.
    + apply lookup_replicate in E'. destruct E' as [-> _]. reflexivity.
    + reflexivity.
  - reflexivity.
Qed.

Lemma store_Some (mat mat' : matrix) (r c : Z) (v : float) :
  store dc wc mat r c v = Some mat' ->
  0 <= r < dc /\ 0 <= c < wc /\
  mat' = <[Z.to_nat r := <[Z.to_nat c := v]> (row mat (Z.to_nat r))]> mat.
Proof.
  unfold store.
  destruct (0 <=? r) eqn:E1, (r <? dc) eqn:E2, (0 <=? c) eqn:E3, (c <? wc) eqn:E4;
    simpl; intros H; try discriminate. injection H as <-.
  repeat split; lia.
Qed.

Lemma store_in_range (mat : matrix) (r c : Z) (v : float) :
  0 <= r < dc -> 0 <= c < wc ->
  store dc wc mat r c v =
  Some (<[Z.to_nat r := <[Z.to_nat c := v]> (row mat (Z.to_nat r))]> mat).
Proof.
  intros Hr Hc. unfold store.
  destruct (0 <=? r) eqn:E1, (r <? dc) eqn:E2, (0 <=? c) eqn:E3, (c <? wc) eqn:E4;
    simpl; try reflexivity; lia.
Qed.

Lemma row_shaped (mat : matrix) (r : nat) :
  well_shaped dc wc mat -> (r < Z.to_nat dc)%nat ->
  mat !! r = Some (row mat r) /\ length (row mat r) = Z.to_nat wc.
Proof.
  intros [HL HR] Hr. unfold row.
  destruct (lookup_lt_is_Some_2 mat r ltac:(lia)) as [x Hx]. rewrite Hx. simpl.
  split; [reflexivity|]. apply HR. eapply list_elem_of_lookup_2, Hx.
Qed.

Lemma store_shaped (mat mat' : matrix) (r c : Z) (v : float) :
  well_shaped dc wc mat -> store dc wc mat r c v = Some mat' ->
  well_shaped dc wc mat'.
Proof.
  intros HS H. apply store_Some in H. destruct H as (Hr & Hc & ->).
  destruct (row_shaped mat (Z.to_nat r) HS ltac:(lia)) as [_ Hlen].
  destruct HS as [HL HR]. split.
  - rewrite length_insert. exact HL.
  - intros x Hx. apply list_elem_of_lookup in Hx. destruct Hx as [i Hi].
    destruct (decide (i = Z.to_nat r)) as [->|Hne].
    + rewrite list_lookup_insert_eq in Hi by lia. injection Hi as <-.
      rewrite length_insert. exact Hlen.
    + rewrite list_lookup_insert_ne in Hi by congruence.
      apply HR. eapply list_elem_of_lookup_2, Hi.
Qed.

(** The effect of [mat[d-1][w-1] = v] on the cells. *)
Lemma store_cell (mat mat' : matrix) (d w d' w' : Z) (v : float) :
  well_shaped dc wc mat ->
  store dc wc mat (d - 1) (w - 1) v = Some mat' ->
  1 <= d' <= dc -> 1 <= w' <= wc ->
  cell mat' d' w' = if (d =? d') && (w =? w') then v else cell mat d' w'.
Proof.
  intros HS H Hd' Hw'. apply store_Some in H. destruct H as (Hr & Hc & ->).
  destruct (row_shaped mat (Z.to_nat (d - 1)) HS ltac:(lia)) as [Hrow Hlen].
  destruct HS as [HL HR]. unfold cell.
  destruct (Z.eqb_spec d d') as [<-|Hd]; simpl.
  - unfold row at 1. rewrite list_lookup_insert_eq by lia. simpl.
    destruct (Z.eqb_spec w w') as [<-|Hw]; unfold rd.
    + rewrite list_lookup_insert_eq by lia. reflexivity.
    + rewrite list_lookup_insert_ne by lia. reflexivity.
  - unfold row at 1. rewrite list_lookup_insert_ne by lia. reflexivity.
Qed.

Lemma load_line_shaped (mat mat' : matrix) (line : string) :
  well_shaped dc wc mat -> load_line dc wc mat line = Some mat' ->
  well_shaped dc wc mat'.
Proof.
  unfold load_line. intros HS H.
  destruct (parse_triplet line) as [[[d w] c]|].
  - eapply store_shaped; eassumption.
  - injection H as <-. exact HS.
Qed.

(** A load that has a result has met triplets within the matrix only. *)
Lemma populate_in_range (lines : list string) :
  forall mat mat', populate dc wc lines mat = Some mat' ->
  forall t, t ∈ triplets lines -> in_range dc wc t.
Proof.
  induction lines as [|line rest IH]; intros mat mat' H t Ht.
  - apply elem_of_nil in Ht. destruct Ht.
  - cbn [populate] in H. unfold triplets in Ht. cbn [omap list_omap] in Ht.
    destruct (load_line dc wc mat line) as [mat1|] eqn:E; [|discriminate].
    unfold load_line in E.
    destruct (parse_triplet line) as [[[d w] c]|].
    + apply elem_of_cons in Ht. destruct Ht as [->|Ht].
      * apply store_Some in E. unfold in_range. simpl. lia.
      * eapply IH; eassumption.
    + eapply IH; eassumption.
Qed.

(** And a load that meets such triplets only has a result. *)
Lemma populate_total (lines : list string) :
  forall mat, (forall t, t ∈ triplets lines -> in_range dc wc t) ->
  exists mat', populate dc wc lines mat = Some mat'.
Proof.
  induction lines as [|line rest IH]; intros mat Hin; cbn [populate].
  - eexists. reflexivity.
  - unfold triplets in Hin. cbn [omap list_omap] in Hin. unfold load_line.
    destruct (parse_triplet line) as [[[d w] c]|].
    + destruct (Hin (d, w, c) ltac:(left)) as [Hd Hw]. simpl in Hd, Hw.
      rewrite store_in_range by lia. apply IH.
      intros t Ht. apply Hin. right. exact Ht.
    + apply IH. exact Hin.
Qed.

Lemma populate_shaped (lines : list string) :
  forall mat mat', well_shaped dc wc mat ->
  populate dc wc lines mat = Some mat' -> well_shaped dc wc mat'.
Proof.
  induction lines as [|line rest IH]; intros mat mat' HS H; cbn [populate] in H.
  - injection H as <-. exact HS.
  - destruct (load_line dc wc mat line) as [mat1|] eqn:E; [|discriminate].
    eapply IH; [|exact H]. eapply load_line_shaped; eassumption.
Qed.

(** The cells after the load: the count of the last triplet that names
    the cell, and what the cell held before when none does. *)
Lemma populate_cell (lines : list string) :
  forall mat mat', well_shaped dc wc mat ->
  populate dc wc lines mat = Some mat' ->
  forall d w, 1 <= d <= dc -> 1 <= w <= wc ->
  cell mat' d w =
  match last_count d w (triplets lines) with
  | Some c => float_of_int c
  | None => cell mat d w
  end.
Proof.
  induction lines as [|line rest IH]; intros mat mat' HS H d w Hd Hw;
    cbn [populate] in H.
  - injection H as <-. reflexivity.
  - destruct (load_line dc wc mat line) as [mat1|] eqn:E; [|discriminate].
    pose proof (load_line_shaped _ _ _ HS E) as HS1.
    rewrite (IH mat1 mat' HS1 H d w Hd Hw).
    unfold triplets. cbn [omap list_omap]. unfold load_line in E.
    destruct (parse_triplet line) as [[[d1 w1] c1]|].
    + cbn [last_count]. fold (triplets rest).
      destruct (last_count d w (triplets rest)); [reflexivity|].
      rewrite (store_cell _ _ _ _ d w _ HS E Hd Hw).
      unfold names_cell. simpl.
      destruct ((d1 =? d) && (w1 =? w)); reflexivity.
    + injection E as <-. reflexivity.
Qed.

End LoaderLemmas.

Section LoaderClaims.

Import Loader Statements.
Local Open Scope Z_scope.

Lemma loadDocFile_Some (content : string) (dc wc : Z) (mat : matrix) :
  loadDocFile content = Some (dc, wc, mat) ->
  header content = Some (dc, wc) /\ 0 <= dc /\
  populate dc wc (body_lines content) (zero_matrix dc wc) = Some mat.
Proof.
  unfold loadDocFile, header, body_lines.
  destruct (read_int content) as [[dc0 s1]|]; [|discriminate].
  destruct (read_int s1) as [[wc0 s2]|]; [|discriminate].
  destruct (read_int s2) as [[nz s3]|]; [|discriminate].
  destruct ((dc0 <? 0) || ((0 <? dc0) && (wc0 <? 0))) eqn:E; [discriminate|].
  destruct (populate dc0 wc0 _ _) as [m|] eqn:P; [|discriminate].
  intros H. injection H as <- <- <-. repeat split; try assumption. lia.
Qed.

Lemma loadDocFile_total (content : string) (dc wc : Z) :
  header content = Some (dc, wc) -> 0 <= dc -> 0 <= wc ->
  (forall t, t ∈ triplets (body_lines content) -> in_range dc wc t) ->
  exists mat, loadDocFile content = Some (dc, wc, mat).
Proof.
  unfold loadDocFile, header, body_lines.
  destruct (read_int content) as [[dc0 s1]|]; [|discriminate].
  destruct (read_int s1) as [[wc0 s2]|]; [|discriminate].
  destruct (read_int s2) as [[nz s3]|]; [|discriminate].
  intros H Hdc Hwc Hin. injection H as -> ->.
  destruct ((dc <? 0) || ((0 <? dc) && (wc <? 0))) eqn:E; [lia|].
  destruct (populate_total dc wc _ (zero_matrix dc wc) Hin) as [mat ->].
  eexists. reflexivity.
Qed.

(** C8.  [loadDocFile] allocates a matrix of [dc] rows of [wc] zeros and
    passes over the lines from there; it has a result when the header is
    read and every triplet names a cell of the matrix.  A line from which
    three integers are read, naming a cell of the matrix, sets
    [matrix[docId-1][wordId-1]] to the count and leaves every other cell
    as it is.  A line from which three integers cannot be read leaves the
    matrix as it is, and the load is the same as without that line. *)
Theorem loadDocFile_lines :
  (forall dc wc,
     zero_matrix dc wc = replicate (Z.to_nat dc) (replicate (Z.to_nat wc) f0)) /\
  (forall content dc wc mat,
     loadDocFile content = Some (dc, wc, mat) ->
     populate dc wc (body_lines content) (zero_matrix dc wc) = Some mat /\
     well_shaped dc wc mat) /\
  (forall content dc wc,
     header content = Some (dc, wc) -> 0 <= dc -> 0 <= wc ->
     (forall t, t ∈ triplets (body_lines content) -> in_range dc wc t) ->
     exists mat, loadDocFile content = Some (dc, wc, mat)) /\
  (forall dc wc mat line doc_id word_id count,
     well_shaped dc wc mat ->
     parse_triplet line = Some (doc_id, word_id, count) ->
     1 <= doc_id <= dc -> 1 <= word_id <= wc ->
     exists mat',
       load_line dc wc mat line = Some mat' /\
       well_shaped dc wc mat' /\
       cell mat' doc_id word_id = float_of_int count /\
       forall d w, 1 <= d <= dc -> 1 <= w <= wc ->
         (d, w) <> (doc_id, word_id) -> cell mat' d w = cell mat d w) /\
  (forall dc wc mat line,
     parse_triplet line = None -> load_line dc wc mat line = Some mat) /\
  (forall dc wc before line after mat,
     parse_triplet line = None ->
     populate dc wc (before ++ line :: after) mat =
     populate dc wc (before ++ after) mat).
Proof.
  split; [apply zero_matrix_replicate|].
  split; [|split; [apply loadDocFile_total|split; [|split]]].
  - intros content dc wc mat H.
    apply loadDocFile_Some in H. destruct H as (_ & _ & H).
    split; [exact H|].
    eapply populate_shaped; [apply zero_matrix_shaped|exact H].
  - intros dc wc mat line d w c HS HP Hd Hw.
    unfold load_line. rewrite HP.
    rewrite store_in_range by lia.
    pose proof (store_in_range dc wc mat (d - 1) (w - 1) (float_of_int c)
                  ltac:(lia) ltac:(lia)) as E.
    eexists. split; [reflexivity|]. split; [|split].
    + eapply store_shaped; eassumption.
    + rewrite (store_cell dc wc _ _ d w d w _ HS E Hd Hw).
      rewrite !Z.eqb_refl. reflexivity.
    + intros d' w' Hd' Hw' Hne.
      rewrite (store_cell dc wc _ _ d w d' w' _ HS E Hd' Hw').
      destruct (Z.eqb_spec d d') as [<-|]; [|reflexivity].
      destruct (Z.eqb_spec w w') as [<-|]; [|reflexivity].
      congruence.
  - intros dc wc mat line HP. unfold load_line. rewrite HP. reflexivity.
  - intros dc wc before line after mat HP. revert mat.
    induction before as [|l before IH]; intros mat; cbn [app populate].
    + unfold load_line at 1. rewrite HP. reflexivity.
    + destruct (load_line dc wc mat l); [apply IH|reflexivity].
Qed.

Lemma loadDocFile_lines_witness :
  body_lines file_mixed =
    [""; "1 1 5"; "2 3 7"; "bad line"; "1 2"; " 1   2 +9 extra"; "1 1 3"]%string /\
  triplets (body_lines file_mixed) = [(1, 1, 5); (2, 3, 7); (1, 2, 9); (1, 1, 3)] /\
  loadDocFile file_mixed =
    Some (2, 3, [[fi 3; fi 9; f0]; [f0; f0; fi 7]]) /\
  load_line 2 3 (zero_matrix 2 3) "bad line" = Some (zero_matrix 2 3) /\
  load_line 2 3 (zero_matrix 2 3) "1 2" = Some (zero_matrix 2 3) /\
  well_shaped 2 3 [[fi 3; fi 9; f0]; [f0; f0; fi 7]].
Proof.
  destruct loadDocFile_lines as (_ & Hload & _ & _ & Hskip & _).
  split; [vm_compute; reflexivity|]. split; [vm_compute; reflexivity|].
  split; [vm_compute; reflexivity|].
  split; [apply Hskip; vm_compute; reflexivity|].
  split; [apply Hskip; vm_compute; reflexivity|].
  apply (Hload file_mixed). vm_compute. reflexivity.
Defined.

Lemma last_count_Some (d w c : Z) (ts : list (Z * Z * Z)) :
  last_count d w ts = Some c ->
  exists t, t ∈ ts /\ fst (fst t) = d /\ snd (fst t) = w.
Proof.
  induction ts as [|t ts IH]; cbn [last_count]; [discriminate|].
  destruct (last_count d w ts) as [c'|].
  - intros E. destruct (IH E) as (t' & Ht' & H). exists t'.
    split; [right; exact Ht'|exact H].
  - unfold names_cell. destruct (Z.eqb_spec (fst (fst t)) d) as [E1|]; simpl;
      [|discriminate].
    destruct (Z.eqb_spec (snd (fst t)) w) as [E2|]; [|discriminate].
    intros _. exists t. split; [left|split; assumption].
Qed.

(** C9.  When triplets name the same cell, the loaded matrix holds in
    that cell the count of the last of them: each assignment overwrites
    the one before, nothing is accumulated. *)
Theorem last_triplet_wins (content : string) (dc wc : Z) (mat : matrix)
    (d w c : Z) :
  loadDocFile content = Some (dc, wc, mat) ->
  last_count d w (triplets (body_lines content)) = Some c ->
  cell mat d w = float_of_int c.
Proof.
  intros HL HC. apply loadDocFile_Some in HL. destruct HL as (_ & _ & HP).
  destruct (last_count_Some _ _ _ _ HC) as (t & Ht & <- & <-).
  destruct (populate_in_range dc wc _ _ _ HP t Ht) as [Hd Hw].
  rewrite (populate_cell dc wc _ _ _ (zero_matrix_shaped dc wc) HP _ _ Hd Hw).
  rewrite HC. reflexivity.
Qed.

Lemma last_triplet_wins_witness :
  loadDocFile file_twice = Some (1, 1, [[fi 3]]) /\
  triplets (body_lines file_twice) = [(1, 1, 5); (1, 1, 3)] /\
  last_count 1 1 (triplets (body_lines file_twice)) = Some 3 /\
  cell [[fi 3]] 1 1 = float_of_int 3.
Proof.
  assert (H1 : loadDocFile file_twice = Some (1, 1, [[fi 3]]))
    by (vm_compute; reflexivity).
  assert (H2 : last_count 1 1 (triplets (body_lines file_twice)) = Some 3)
    by (vm_compute; reflexivity).
  split; [exact H1|]. split; [vm_compute; reflexivity|]. split; [exact H2|].
  exact (last_triplet_wins file_twice 1 1 [[fi 3]] 1 1 3 H1 H2).
Defined.

End LoaderClaims.

(** ** Counts that a [float] holds *)

Section ExactCounts.

Local Open Scope Z_scope.

Lemma digits2_pos_size (m : positive) : digits2_pos m = Pos.size m.
Proof. induction m as [m IH|m IH|]; simpl; congruence. Qed.

Lemma Zpos_iter_xO (m p : positive) :
  Zpos (Pos.iter xO m p) = Zpos m * 2 ^ Zpos p.
Proof.
  rewrite <- Z.shiftl_mul_pow2 by lia. unfold Z.shiftl.
  apply (Pos.iter_swap_gen _ _ Zpos xO (Z.mul 2)). reflexivity.
Qed.

Lemma digits2_pos_iter_xO (m p : positive) :
  digits2_pos (Pos.iter xO m p) = (digits2_pos m + p)%positive.
Proof.
  rewrite (Pos.iter_swap_gen _ _ digits2_pos xO Pos.succ) by reflexivity.
  induction p as [|p IH] using Pos.peano_ind.
  - simpl. lia.
  - rewrite Pos.iter_succ, IH. lia.
Qed.

Lemma digits2_pos_small (m : positive) :
  Zpos m < 2 ^ 24 -> (digits2_pos m <= 24)%positive.
Proof.
  intros H. rewrite digits2_pos_size.
  pose proof (Pos.size_le m) as L.
  apply Pos2Z.pos_le_pos in L. rewrite Pos2Z.inj_pow in L.
  destruct (Pos.leb_spec (Pos.size m) 24) as [|G]; [assumption|].
  exfalso.
  assert (2 ^ 25 <= 2 ^ Zpos (Pos.size m)) by (apply Z.pow_le_mono_r; lia).
  lia.
Qed.

(** A mantissa of 24 bits needs no rounding. *)
Lemma binary_round_aux_exact (s : bool) (m : positive) (e : Z) :
  digits2_pos m = 24%positive -> -149 <= e <= 104 ->
  binary_round_aux 24 128 s (Zpos m) e loc_Exact = S754_finite s m e.
Proof.
  intros Hd He. unfold binary_round_aux, shr_fexp. cbn [Zdigits2 shr_record_of_loc].
  rewrite Hd. unfold fexp, emin.
  replace (Z.max (24 + e - 24) (3 - 128 - 24)) with e by lia.
  rewrite Z.sub_diag. cbn [shr shr_m loc_of_shr_record round_nearest_even Zdigits2].
  rewrite Hd.
  replace (Z.max (24 + e - 24) (3 - 128 - 24)) with e by lia.
  rewrite Z.sub_diag. cbn [shr shr_m shr_record_of_loc].
  destruct (Z.leb_spec e (128 - 24)); [reflexivity|lia].
Qed.

Lemma binary_round_small (s : bool) (m : positive) :
  Zpos m <= 2 ^ 24 ->
  int_value (binary_round 24 128 s m 0) = if s then - Zpos m else Zpos m.
Proof.
  intros H. destruct (Z.eq_dec (Zpos m) (2 ^ 24)) as [E|NE].
  - assert (m = 16777216%positive) as -> by lia. destruct s; reflexivity.
  - pose proof (digits2_pos_small m ltac:(lia)) as Hd.
    unfold binary_round. unfold fexp, emin.
    replace (Z.max (Zpos (digits2_pos m) + 0 - 24) (3 - 128 - 24))
      with (Zpos (digits2_pos m) - 24) by lia.
    unfold shl_align.
    destruct (Zpos (digits2_pos m) - 24 - 0) as [|q|q] eqn:Q; try lia.
    + rewrite binary_round_aux_exact by lia.
      unfold int_value. rewrite Z.shiftl_0_r. reflexivity.
    + rewrite binary_round_aux_exact
        by (try rewrite digits2_pos_iter_xO; lia).
      unfold int_value.
      replace (Zpos (digits2_pos m) - 24) with (Zneg q) by lia.
      rewrite Z.shiftr_div_pow2, Zpos_iter_xO by lia.
      rewrite Z.div_mul by lia. reflexivity.
Qed.

(** An [int] of magnitude at most [2^24] is converted to the [float] of
    the same value. *)
Lemma small_count_exact (c : Z) :
  - 2 ^ 24 <= c <= 2 ^ 24 -> int_value (float_of_int c) = c.
Proof.
  intros H. unfold float_of_int, binary_normalize. destruct c as [|m|m].
  - reflexivity.
  - rewrite binary_round_small by lia. reflexivity.
  - rewrite binary_round_small by lia. reflexivity.
Qed.

End ExactCounts.

Section RowSums.

Import Loader Statements.
Local Open Scope Z_scope.

Lemma row_sum_replicate (n : nat) : row_sum (replicate n f0) = 0.
Proof. induction n as [|n IH]; simpl; [reflexivity|]. exact IH. Qed.

Lemma row_sum_insert (r : vec) (i : nat) (x : float) :
  (i < length r)%nat ->
  row_sum (<[i := x]> r) = row_sum r - int_value (rd r i) + int_value x.
Proof.
  revert i. induction r as [|y r IH]; intros i Hi; simpl in Hi; [lia|].
  destruct i as [|i].
  - unfold rd. simpl. lia.
  - simpl. rewrite IH by lia. unfold rd. simpl. lia.
Qed.

Lemma sum_counts_cons (t : Z * Z * Z) (ts : list (Z * Z * Z)) :
  sum_counts (t :: ts) = snd t + sum_counts ts.
Proof. reflexivity. Qed.

Variables dc wc : Z.

(** What a store does to the sum of a row. *)
Lemma store_row_sum (mat mat' : matrix) (d1 w1 d : Z) (v : float) :
  well_shaped dc wc mat ->
  store dc wc mat (d1 - 1) (w1 - 1) v = Some mat' ->
  1 <= d <= dc ->
  row_sum (row mat' (Z.to_nat (d - 1))) =
  row_sum (row mat (Z.to_nat (d - 1))) +
  (if d1 =? d then int_value v - int_value (cell mat d1 w1) else 0).
Proof.
  intros HS H Hd. apply store_Some in H. destruct H as (Hr & Hc & ->).
  destruct (row_shaped dc wc mat (Z.to_nat (d1 - 1)) HS ltac:(lia)) as [Hrow Hlen].
  destruct HS as [HL HR].
  destruct (Z.eqb_spec d1 d) as [<-|Hne].
  - unfold row at 1. rewrite list_lookup_insert_eq by lia. simpl.
    rewrite row_sum_insert by lia. unfold cell. lia.
  - unfold row at 1. rewrite list_lookup_insert_ne by lia.
    fold (row mat (Z.to_nat (d - 1))). lia.
Qed.

Lemma populate_row_sum (lines : list string) :
  forall mat mat', well_shaped dc wc mat ->
  populate dc wc lines mat = Some mat' ->
  NoDup (map fst (triplets lines)) ->
  (forall t, t ∈ triplets lines -> exact_count t) ->
  (forall t, t ∈ triplets lines ->
     int_value (cell mat (fst (fst t)) (snd (fst t))) = 0) ->
  forall d, 1 <= d <= dc ->
  row_sum (row mat' (Z.to_nat (d - 1))) =
  row_sum (row mat (Z.to_nat (d - 1))) +
  sum_counts (filter (fun t => names_doc d t = true) (triplets lines)).
Proof.
  induction lines as [|line rest IH];
    intros mat mat' HS H HND Hex Hzero d Hd; cbn [populate] in H.
  - injection H as <-. unfold triplets, sum_counts. simpl. lia.
  - destruct (load_line dc wc mat line) as [mat1|] eqn:E; [|discriminate].
    pose proof (load_line_shaped dc wc _ _ _ HS E) as HS1.
    pose proof (populate_in_range dc wc _ _ _ H) as Hrange.
    unfold triplets in *. cbn [omap list_omap] in *. unfold load_line in E.
    destruct (parse_triplet line) as [[[d1 w1] c1]|].
    + fold (triplets rest) in *. cbn [map fst] in HND.
      apply NoDup_cons in HND. destruct HND as [Hnotin HND].
      rewrite (IH mat1 mat' HS1 H HND); [| | |exact Hd].
      * rewrite (store_row_sum _ _ _ _ d _ HS E Hd).
        assert (Hc : int_value (float_of_int c1) = c1)
          by (apply (Hex (d1, w1, c1)); left).
        assert (Hz : int_value (cell mat d1 w1) = 0)
          by (apply (Hzero (d1, w1, c1)); left).
        rewrite Hc, Hz.
        destruct (Z.eqb_spec d1 d) as [E1|E1].
        -- rewrite filter_cons_True by (unfold names_doc; simpl; lia).
           rewrite sum_counts_cons. simpl. lia.
        -- rewrite filter_cons_False by (unfold names_doc; simpl; lia).
           lia.
      * intros t Ht. apply Hex. right. exact Ht.
      * intros [[d' w'] c'] Ht. simpl.
        destruct (Hrange _ Ht) as [Hd' Hw']. simpl in Hd', Hw'.
        rewrite (store_cell dc wc _ _ d1 w1 d' w' _ HS E Hd' Hw').
        destruct (Z.eqb_spec d1 d') as [<-|]; simpl.
        -- destruct (Z.eqb_spec w1 w') as [<-|].
           ++ exfalso. apply Hnotin.
              apply (list_elem_of_fmap_2 fst _ (d1, w1, c')), Ht.
           ++ apply (Hzero (d1, w', c')). right. exact Ht.
        -- apply (Hzero (d', w', c')). right. exact Ht.
    + injection E as <-. apply IH; assumption.
Qed.

End RowSums.

Section RowSumsClaim.

Import Loader Statements.
Local Open Scope Z_scope.

(** C7, as the code has it.  For every file that is loaded, in which no
    cell is named by two triplets and every count is one that the
    conversion to [float] keeps as it is, the entries of the row of a
    document sum to the counts of the triplets that name the document. *)
Theorem load_row_sums (content : string) (dc wc : Z) (mat : matrix) :
  loadDocFile content = Some (dc, wc, mat) ->
  NoDup (map fst (triplets (body_lines content))) ->
  (forall t, t ∈ triplets (body_lines content) -> exact_count t) ->
  forall d, 1 <= d <= dc ->
  row_sum (row mat (Z.to_nat (d - 1))) =
  sum_counts (filter (fun t => names_doc d t = true)
                (triplets (body_lines content))).
Proof.
  intros HL HND Hex d Hd.
  apply loadDocFile_Some in HL. destruct HL as (_ & _ & HP).
  rewrite (populate_row_sum dc wc _ _ _ (zero_matrix_shaped dc wc) HP HND Hex);
    [| |exact Hd].
  - rewrite zero_matrix_replicate. unfold row.
    rewrite lookup_replicate_2 by lia. simpl.
    rewrite row_sum_replicate. lia.
  - intros t _. rewrite zero_matrix_cell. reflexivity.
Qed.

Lemma load_row_sums_witness :
  loadDocFile file_plain = Some (2, 3, [[fi 5; fi 9; f0]; [f0; f0; fi 7]]) /\
  triplets (body_lines file_plain) = [(1, 1, 5); (2, 3, 7); (1, 2, 9)] /\
  row_sum (row [[fi 5; fi 9; f0]; [f0; f0; fi 7]] (Z.to_nat (1 - 1))) =
  sum_counts (filter (fun t => names_doc 1 t = true)
                (triplets (body_lines file_plain))).
Proof.
  assert (H1 : loadDocFile file_plain
               = Some (2, 3, [[fi 5; fi 9; f0]; [f0; f0; fi 7]]))
    by (vm_compute; reflexivity).
  assert (H2 : triplets (body_lines file_plain)
               = [(1, 1, 5); (2, 3, 7); (1, 2, 9)])
    by (vm_compute; reflexivity).
  split; [exact H1|]. split; [exact H2|].
  apply (load_row_sums file_plain 2 3 _ H1).
  - rewrite H2. simpl.
    repeat (apply NoDup_cons_2;
            [intros Hin; apply list_elem_of_In in Hin; simpl in Hin;
             intuition congruence|]).
    apply NoDup_nil_2.
  - rewrite H2. intros t Ht. apply list_elem_of_In in Ht. simpl in Ht.
    destruct Ht as [<-|[<-|[<-|[]]]]; apply small_count_exact; simpl; lia.
  - lia.
Defined.

(** C7 as stated fails on a file that names a cell twice (the cell holds
    3, the triplets of the document sum to 8), and on a file with a count
    that a [float] cannot hold (16777217 is stored as 16777216). *)
Lemma load_loses_counts :
  loadDocFile file_twice = Some (1, 1, [[fi 3]]) /\
  ~ load_preserves_sums file_twice /\
  loadDocFile file_large = Some (1, 1, [[fi 16777216]]) /\
  ~ load_preserves_sums file_large.
Proof.
  split; [vm_compute; reflexivity|]. split; [|split; [vm_compute; reflexivity|]].
  - intros H.
    specialize (H 1 1 [[fi 3]] ltac:(vm_compute; reflexivity) 1 ltac:(lia)).
    vm_compute in H. discriminate.
  - intros H.
    specialize (H 1 1 [[fi 16777216]] ltac:(vm_compute; reflexivity) 1 ltac:(lia)).
    vm_compute in H. discriminate.
Qed.

End RowSumsClaim.

(** ** NaN and zero in the arithmetic *)

Section FloatSpecials.

Import Notions.

Lemma fadd_nan_r (x : float) : fadd x S754_nan = S754_nan.
Proof. destruct x; reflexivity. Qed.

Lemma fmul_nan_r (x : float) : fmul x S754_nan = S754_nan.
Proof. destruct x; reflexivity. Qed.

Lemma fdiv_nan_r (x : float) : fdiv x S754_nan = S754_nan.
Proof. destruct x; reflexivity. Qed.

Lemma is_nan_eq (x : float) : is_nan x = true -> x = S754_nan.
Proof. destruct x; try discriminate. reflexivity. Qed.

(** A product with a zero is a zero or NaN. *)
Lemma fmul_zero_l (x y : float) :
  is_zero x = true -> is_zero (fmul x y) || is_nan (fmul x y) = true.
Proof. destruct x; try discriminate. intros _. destruct y; reflexivity. Qed.

Lemma fmul_zero_self (x : float) : is_zero x = true -> fmul x x = f0.
Proof. destruct x as [[]| | |]; try discriminate; reflexivity. Qed.

(** A sum of zeros and NaN is a zero or NaN. *)
Lemma fadd_zero_or_nan (x y : float) :
  is_zero x || is_nan x = true -> is_zero y || is_nan y = true ->
  is_zero (fadd x y) || is_nan (fadd x y) = true.
Proof.
  destruct x as [[]| | |], y as [[]| | |]; try discriminate; reflexivity.
Qed.

(** Zero or NaN divided by zero or NaN is NaN. *)
Lemma fdiv_zero_or_nan (x y : float) :
  is_zero x || is_nan x = true -> is_zero y || is_nan y = true ->
  fdiv x y = S754_nan.
Proof.
  destruct x as [[]| | |], y as [[]| | |]; try discriminate; reflexivity.
Qed.

(** [x - x] is a zero or NaN. *)
Lemma fsub_self (x : float) : is_zero (fsub x x) || is_nan (fsub x x) = true.
Proof.
  destruct x as [[]|[]| |s m e]; try reflexivity.
  unfold fsub, SFsub. rewrite Z.sub_diag. reflexivity.
Qed.

End FloatSpecials.

(** ** A NaN similarity for cluster 0 *)

Section NanBest.

Import SPKMeans Statements Notions.

Lemma scan_keeps_nan (sim : nat -> float) (n : nat) :
  for_loop n (scan_step sim) (0, S754_nan) = (0, S754_nan).
Proof.
  induction n as [|n IH]; cbn [for_loop]; [reflexivity|].
  rewrite IH. unfold scan_step. rewrite fgt_nan_r. reflexivity.
Qed.

Lemma closest_scan_nan (sim : nat -> float) (k : Z) :
  is_nan (sim 0) = true -> fst (closest_scan sim k) = 0.
Proof.
  intros H. unfold closest_scan. rewrite (is_nan_eq _ H), scan_keeps_nan.
  reflexivity.
Qed.

(** X1.  When the similarity of a document to cluster 0 is NaN, the
    document is assigned to cluster 0, whatever its similarities to the
    other clusters and whatever [k >= 1]: no value is [>] NaN, so the
    running best is never replaced. *)
Theorem nan_first_similarity_wins (doc_matrix : matrix) (cs : list vec)
    (k wc : Z) (i : nat) :
  (1 <= k)%Z ->
  is_nan (similarity doc_matrix cs wc i 0) = true ->
  assigned_cluster doc_matrix cs k wc i = 0.
Proof. intros _ H. apply closest_scan_nan, H. Qed.

Lemma nan_first_similarity_wins_witness :
  (1 <= 2)%Z /\
  is_nan (similarity with_empty_matrix (concepts with_empty_start) 2 1 0) = true /\
  assigned_cluster with_empty_matrix (concepts with_empty_start) 2 2 1 = 0.
Proof.
  assert (H : is_nan (similarity with_empty_matrix (concepts with_empty_start)
                        2 1 0) = true) by (vm_compute; reflexivity).
  split; [lia|]. split; [exact H|].
  apply (nan_first_similarity_wins _ _ 2 _ _ ltac:(lia) H).
Defined.

End NanBest.

(** ** Dot products, norms and similarities of special vectors *)

Section SpecialVectors.

Import SPKMeans Statements Notions.

(** Once a term is NaN the dot product is NaN. *)
Lemma vec_dot_nan (a b : vec) (n : Z) (i : nat) :
  i < Z.to_nat n -> is_nan (fmul (rd a i) (rd b i)) = true ->
  vec_dot a b n = S754_nan.
Proof.
  unfold vec_dot. induction (Z.to_nat n) as [|m IH]; intros Hi Hn; [lia|].
  cbn [for_loop]. destruct (decide (i = m)) as [->|Hne].
  - rewrite (is_nan_eq _ Hn). apply fadd_nan_r.
  - rewrite IH by (try lia; assumption). reflexivity.
Qed.

(** The dot product of a zero vector with itself is [+0]. *)
Lemma vec_dot_zero_self (v : vec) (n : Z) :
  zero_vector v n -> vec_dot v v n = f0.
Proof.
  unfold zero_vector, vec_dot.
  induction (Z.to_nat n) as [|m IH]; intros H; cbn [for_loop]; [reflexivity|].
  rewrite IH by (intros i Hi; apply H; lia).
  rewrite fmul_zero_self by (apply H; lia). reflexivity.
Qed.

(** The dot product of a zero vector with any vector is a zero or NaN. *)
Lemma vec_dot_zero_l (v w : vec) (n : Z) :
  zero_vector v n ->
  is_zero (vec_dot v w n) || is_nan (vec_dot v w n) = true.
Proof.
  unfold zero_vector, vec_dot.
  induction (Z.to_nat n) as [|m IH]; intros H; cbn [for_loop]; [reflexivity|].
  apply fadd_zero_or_nan.
  - apply IH. intros i Hi. apply H. lia.
  - apply fmul_zero_l, H. lia.
Qed.

Lemma vec_norm_zero (v : vec) (n : Z) : zero_vector v n -> vec_norm v n = f0.
Proof. intros H. unfold vec_norm. rewrite vec_dot_zero_self by exact H. reflexivity. Qed.

(** The cosine similarity of a zero vector with any vector is NaN. *)
Lemma cosineSimilarity_zero (dv cv : vec) (wc : Z) :
  zero_vector dv wc -> cosineSimilarity dv cv wc = S754_nan.
Proof.
  intros H. unfold cosineSimilarity. rewrite (vec_norm_zero dv wc H).
  apply fdiv_zero_or_nan.
  - apply vec_dot_zero_l, H.
  - destruct (vec_norm cv wc) as [[]|[]| |[] ? ?]; reflexivity.
Qed.

(** The cosine similarity of a vector with a NaN entry is NaN. *)
Lemma cosineSimilarity_nan (dv cv : vec) (wc : Z) (i : nat) :
  i < Z.to_nat wc -> is_nan (rd dv i) = true ->
  cosineSimilarity dv cv wc = S754_nan.
Proof.
  intros Hi Hn. unfold cosineSimilarity.
  rewrite (vec_dot_nan dv cv wc i Hi); [reflexivity|].
  rewrite (is_nan_eq _ Hn). reflexivity.
Qed.

Lemma cosineSimilarity_nan_r (dv cv : vec) (wc : Z) (i : nat) :
  i < Z.to_nat wc -> is_nan (rd cv i) = true ->
  cosineSimilarity dv cv wc = S754_nan.
Proof.
  intros Hi Hn. unfold cosineSimilarity.
  rewrite (vec_dot_nan dv cv wc i Hi); [reflexivity|].
  rewrite (is_nan_eq _ Hn), fmul_nan_r. reflexivity.
Qed.

End SpecialVectors.

(** ** The TXN scheme *)

Section Txn.

Import SPKMeans Statements Notions.

Lemma vec_divide_length (v : vec) (n : Z) (s : float) :
  length (vec_divide v n s) = length v.
Proof.
  unfold vec_divide.
  apply (for_loop_insert_length (fun i r => fdiv (rd r i) s)).
Qed.

Lemma txnScheme_lookup (dm : matrix) (dc wc : Z) (j : nat) :
  txnScheme dm dc wc !! j =
  if decide (j < Z.to_nat dc) then (fun r => vec_normalize r wc) <$> dm !! j
  else dm !! j.
Proof.
  unfold txnScheme, row.
  apply (for_loop_update_lookup (fun _ r => vec_normalize r wc) []).
Qed.

Lemma txnScheme_row (dm : matrix) (dc wc : Z) (j : nat) :
  j < Z.to_nat dc -> j < length dm ->
  row (txnScheme dm dc wc) j = vec_normalize (row dm j) wc.
Proof.
  intros Hj Hl. unfold row. rewrite txnScheme_lookup.
  destruct (decide (j < Z.to_nat dc)); [|lia].
  destruct (lookup_lt_is_Some_2 dm j Hl) as [r ->]. reflexivity.
Qed.

Lemma vec_normalize_map (v : vec) (n : Z) :
  Z.to_nat n = length v ->
  vec_normalize v n = map (fun x => fdiv x (euclidean_norm v)) v.
Proof.
  intros H. unfold vec_normalize.
  rewrite vec_divide_map, vec_norm_euclidean by exact H. reflexivity.
Qed.

(** X2.  [txnScheme] keeps the number of rows and the length of every
    row, leaves the rows from [dc] on as they are, and replaces each of
    the first [dc] rows by that row divided, entry by entry, by its own
    Euclidean norm: a row is normalized from its own entries only. *)
Theorem txnScheme_rows (dm : matrix) (dc wc : Z) :
  length (txnScheme dm dc wc) = length dm /\
  (forall j, length (row (txnScheme dm dc wc) j) = length (row dm j)) /\
  (forall j, Z.to_nat dc <= j -> row (txnScheme dm dc wc) j = row dm j) /\
  (forall j, j < Z.to_nat dc -> length (row dm j) = Z.to_nat wc ->
     row (txnScheme dm dc wc) j =
     map (fun x => fdiv x (euclidean_norm (row dm j))) (row dm j)).
Proof.
  split; [|split; [|split]].
  - unfold txnScheme.
    apply (for_loop_insert_length (fun i m => vec_normalize (row m i) wc)).
  - intros j. unfold row at 1. rewrite txnScheme_lookup.
    destruct (decide (j < Z.to_nat dc)); [|reflexivity].
    unfold row. destruct (dm !! j) as [r|]; simpl; [|reflexivity].
    apply vec_divide_length.
  - intros j Hj. unfold row at 1. rewrite txnScheme_lookup.
    destruct (decide (j < Z.to_nat dc)); [lia|reflexivity].
  - intros j Hj Hl. unfold row at 1. rewrite txnScheme_lookup.
    destruct (decide (j < Z.to_nat dc)); [|lia].
    unfold row in *. destruct (dm !! j) as [r|]; simpl in *.
    + apply vec_normalize_map. lia.
    + reflexivity.
Qed.

(** A row of zeros is normalized to a row of NaN. *)
Lemma vec_normalize_zero (v : vec) (n : Z) (i : nat) :
  Z.to_nat n = length v -> zero_vector v n -> i < Z.to_nat n ->
  rd (vec_normalize v n) i = S754_nan.
Proof.
  intros Hl Hz Hi. unfold vec_normalize.
  rewrite vec_divide_map by exact Hl. rewrite (vec_norm_zero v n Hz).
  unfold rd. rewrite list_lookup_fmap.
  destruct (lookup_lt_is_Some_2 v i ltac:(lia)) as [x Hx]. rewrite Hx. simpl.
  specialize (Hz i Hi). unfold rd in Hz. rewrite Hx in Hz. simpl in Hz.
  destruct x; try discriminate. reflexivity.
Qed.

Lemma similarity_zero_document (dm : matrix) (dc wc : Z) (cs : list vec)
    (j c : nat) :
  j < Z.to_nat dc -> j < length dm ->
  length (row dm j) = Z.to_nat wc -> zero_vector (row dm j) wc ->
  similarity (txnScheme dm dc wc) cs wc j c = S754_nan.
Proof.
  intros Hj Hl Hlen Hz. unfold similarity.
  rewrite txnScheme_row by assumption.
  destruct (Z.to_nat wc) as [|n] eqn:E.
  - apply cosineSimilarity_zero. intros i Hi. lia.
  - apply (cosineSimilarity_nan _ _ _ 0); [lia|].
    rewrite vec_normalize_zero; try reflexivity; try assumption; lia.
Qed.

(** X3.  A document whose row holds only zeros (a document without
    words) is normalized to NaN, its cosine similarity to each of the
    [k >= 1] concept vectors is NaN, and every reassignment pass puts it
    in cluster 0. *)
Theorem zero_document_in_cluster_0 (dm : matrix) (dc wc : Z) (j : nat)
    (cs : list vec) (k : Z) :
  j < Z.to_nat dc -> j < length dm ->
  length (row dm j) = Z.to_nat wc -> zero_vector (row dm j) wc ->
  (1 <= k)%Z ->
  (forall c, c < Z.to_nat k ->
     similarity (txnScheme dm dc wc) cs wc j c = S754_nan) /\
  assigned_cluster (txnScheme dm dc wc) cs k wc j = 0.
Proof.
  intros Hj Hl Hlen Hz Hk. split.
  - intros c _. apply similarity_zero_document; assumption.
  - apply closest_scan_nan.
    rewrite similarity_zero_document by assumption. reflexivity.
Qed.

Lemma zero_document_in_cluster_0_witness :
  0 < Z.to_nat 2 /\ 0 < length docs_with_empty /\ (1 <= 2)%Z /\
  length (row docs_with_empty 0) = Z.to_nat 2 /\
  zero_vector (row docs_with_empty 0) 2 /\
  assigned_cluster with_empty_matrix (concepts with_empty_start) 2 2 0 = 0.
Proof.
  assert (Hz : zero_vector (row docs_with_empty 0) 2).
  { intros i Hi. destruct i as [|[|i]]; [reflexivity|reflexivity|simpl in Hi; lia]. }
  split; [simpl; lia|]. split; [simpl; lia|]. split; [lia|].
  split; [reflexivity|]. split; [exact Hz|].
  apply (zero_document_in_cluster_0 docs_with_empty 2 2 0
           (concepts with_empty_start) 2
           ltac:(simpl; lia) ltac:(simpl; lia) eq_refl Hz ltac:(lia)).
Defined.

End Txn.

(** ** The cosine similarity is symmetric *)

Section Symmetry.

Import SPKMeans.

Lemma fmul_comm (x y : float) : fmul x y = fmul y x.
Proof.
  unfold fmul, SFmul.
  destruct x as [sx|sx| |sx mx ex], y as [sy|sy| |sy my ey];
    try reflexivity; try (rewrite (xorb_comm sx sy); reflexivity).
  rewrite (xorb_comm sx sy), (Pos.mul_comm mx my), (Z.add_comm ex ey).
  reflexivity.
Qed.

Lemma vec_dot_comm (a b : vec) (n : Z) : vec_dot a b n = vec_dot b a n.
Proof.
  unfold vec_dot. induction (Z.to_nat n) as [|m IH]; cbn [for_loop];
    [reflexivity|].
  rewrite IH, (fmul_comm (rd a m) (rd b m)). reflexivity.
Qed.

(** X4.  [cosineSimilarity] does not depend on the order of its two
    vectors, in floating point as well: the bits of the result are the
    same. *)
Theorem cosineSimilarity_symmetric (dv cv : vec) (wc : Z) :
  cosineSimilarity dv cv wc = cosineSimilarity cv dv wc.
Proof.
  unfold cosineSimilarity.
  rewrite (vec_dot_comm dv cv), (fmul_comm (vec_norm dv wc) (vec_norm cv wc)).
  reflexivity.
Qed.

End Symmetry.

(** ** The states of the loop are coherent *)

Section Coherence.

Import SPKMeans Statements Notions.

Lemma concepts_loop_body (dm : matrix) (k dc wc : Z) (st : state) :
  concepts (loop_body dm k dc wc st) =
  compute_concepts dm (partitions (loop_body dm k dc wc st))
    (p_sizes (loop_body dm k dc wc st)) k wc (concepts st).
Proof. unfold loop_body. destruct (transfer _ _ _ _). reflexivity. Qed.

Lemma quality_loop_body (dm : matrix) (k dc wc : Z) (st : state) :
  quality (loop_body dm k dc wc st) =
  computeQuality_total dm (partitions (loop_body dm k dc wc st))
    (p_sizes (loop_body dm k dc wc st)) (concepts (loop_body dm k dc wc st)) k wc.
Proof. unfold loop_body. destruct (transfer _ _ _ _). reflexivity. Qed.

Lemma initial_state_fields (dm : matrix) (k dc wc : Z) :
  partitions (initial_state dm k dc wc) = fst (initial_partitioning k dc) /\
  p_sizes (initial_state dm k dc wc) = snd (initial_partitioning k dc) /\
  concepts (initial_state dm k dc wc) =
    compute_concepts dm (fst (initial_partitioning k dc))
      (snd (initial_partitioning k dc)) k wc (replicate (Z.to_nat k) []) /\
  quality (initial_state dm k dc wc) =
    computeQuality_total dm (partitions (initial_state dm k dc wc))
      (p_sizes (initial_state dm k dc wc)) (concepts (initial_state dm k dc wc))
      k wc /\
  dQ (initial_state dm k dc wc) =
    float_of_double (dmul Q_THRESHOLD (double_of_int 10)) /\
  iterations (initial_state dm k dc wc) = 0%Z.
Proof.
  unfold initial_state. destruct (initial_partitioning k dc) as [ps szs].
  repeat split; reflexivity.
Qed.

Lemma initial_loop_cond (dm : matrix) (k dc wc : Z) :
  loop_cond (initial_state dm k dc wc) = true.
Proof.
  unfold loop_cond.
  destruct (initial_state_fields dm k dc wc) as (_ & _ & _ & _ & -> & _).
  vm_compute. reflexivity.
Qed.

Lemma compute_concepts_length (dm : matrix) (ps : list (list nat))
    (szs : list Z) (k wc : Z) (cs : list vec) :
  length (compute_concepts dm ps szs k wc cs) = length cs.
Proof.
  unfold compute_concepts.
  apply (for_loop_insert_length
           (fun i _ => computeConcept dm (part_at ps i) (size_at szs i) wc)).
Qed.

Lemma compute_concepts_row (dm : matrix) (ps : list (list nat))
    (szs : list Z) (k wc : Z) (cs : list vec) (c : nat) :
  length cs = Z.to_nat k -> c < Z.to_nat k ->
  row (compute_concepts dm ps szs k wc cs) c =
  computeConcept dm (part_at ps c) (size_at szs c) wc.
Proof.
  intros Hl Hc. unfold compute_concepts, row.
  rewrite (for_loop_insert_lookup
             (fun i => computeConcept dm (part_at ps i) (size_at szs i) wc)).
  destruct (decide (c < Z.to_nat k)); [|lia].
  destruct (lookup_lt_is_Some_2 cs c ltac:(lia)) as [x ->]. reflexivity.
Qed.

Lemma concepts_length_after (dm : matrix) (k dc wc : Z) (n : nat) :
  length (concepts (after_passes dm k dc wc n)) = Z.to_nat k.
Proof.
  induction n as [|n IH]; unfold after_passes; simpl.
  - destruct (initial_state_fields dm k dc wc) as (_ & _ & -> & _).
    rewrite compute_concepts_length. apply length_replicate.
  - fold (after_passes dm k dc wc n).
    rewrite concepts_loop_body, compute_concepts_length. exact IH.
Qed.

(** One pass from a state with arrays of [k] entries gives a coherent
    state. *)
Lemma loop_body_coherent (dm : matrix) (k dc wc : Z) (st : state) :
  length (partitions st) = Z.to_nat k ->
  length (p_sizes st) = Z.to_nat k ->
  length (concepts st) = Z.to_nat k ->
  coherent dm k wc (loop_body dm k dc wc st).
Proof.
  intros Lp Ls Lc.
  destruct (loop_body_lengths dm k dc wc st) as [Lp' Ls'].
  unfold coherent. split; [lia|]. split; [lia|]. split; [|split; [|split]].
  - rewrite concepts_loop_body, compute_concepts_length. exact Lc.
  - intros c. rewrite p_sizes_loop_body, partitions_loop_body.
    rewrite size_at_transfer by exact Ls. rewrite part_at_transfer by exact Lp.
    destruct (decide (c < Z.to_nat k)); reflexivity.
  - intros c Hc. rewrite concepts_loop_body.
    apply compute_concepts_row; assumption.
  - apply quality_loop_body.
Qed.

Lemma after_passes_coherent (dm : matrix) (k dc wc : Z) (n : nat) :
  coherent dm k wc (after_passes dm k dc wc (S n)).
Proof.
  unfold after_passes. simpl. fold (after_passes dm k dc wc n).
  destruct (after_passes_lengths dm k dc wc n) as [Lp Ls].
  apply loop_body_coherent; try assumption. apply concepts_length_after.
Qed.

Lemma group_size_nonneg (k dc : Z) (c : nat) :
  (1 <= k)%Z -> (0 <= dc)%Z -> (0 <= group_size k dc c)%Z.
Proof.
  intros Hk Hdc. unfold group_size.
  pose proof (Z.div_pos dc k ltac:(lia) ltac:(lia)).
  pose proof (Z.mod_pos_bound dc k ltac:(lia)).
  destruct (Z.of_nat c =? k - 1)%Z; lia.
Qed.

Lemma initial_state_coherent (dm : matrix) (k dc wc : Z) :
  (1 <= k < 2 ^ 32)%Z -> (0 <= dc < 2 ^ 32)%Z ->
  coherent dm k wc (initial_state dm k dc wc).
Proof.
  intros Hk Hdc.
  destruct (initial_state_fields dm k dc wc) as (Ep & Es & Ec & Eq & _).
  destruct (initial_partitioning_lengths k dc) as [Lp Ls].
  destruct (initial_partitions_map k dc Hk Hdc) as [Mp Ms].
  unfold coherent. rewrite Ep, Es.
  split; [exact Lp|]. split; [exact Ls|]. split; [|split; [|split]].
  - rewrite Ec, compute_concepts_length. apply length_replicate.
  - intros c. unfold size_at, part_at. rewrite Mp, Ms, !list_lookup_fmap.
    destruct (decide (c < Z.to_nat k)) as [Hc|Hc].
    + rewrite lookup_seq_lt by exact Hc. simpl. unfold group.
      rewrite length_seq. pose proof (group_size_nonneg k dc c). lia.
    + rewrite lookup_seq_ge by lia. reflexivity.
  - intros c Hc. rewrite Ec. apply compute_concepts_row; [|exact Hc].
    apply length_replicate.
  - rewrite Eq, Ep, Es. reflexivity.
Qed.

End Coherence.

(** ** An empty partition *)

Section EmptyPartition.

Import SPKMeans Statements Notions.

Lemma euclidean_norm_zeros (n : nat) (z : float) :
  is_zero z = true -> euclidean_norm (replicate n z) = f0.
Proof.
  intros Hz. unfold euclidean_norm.
  assert (H : foldl (fun acc x => fadd acc (fmul x x)) f0 (replicate n z) = f0).
  { induction n as [|n IH]; [reflexivity|].
    rewrite replicate_S_end, foldl_snoc, IH, fmul_zero_self by exact Hz.
    reflexivity. }
  rewrite H. reflexivity.
Qed.

(** The concept vector of an empty partition: [wc] times NaN. *)
Lemma computeConcept_empty (dm : matrix) (wc : Z) :
  computeConcept dm [] 0 wc = replicate (Z.to_nat wc) S754_nan.
Proof.
  unfold computeConcept. fold (one_over wc).
  assert (Hs : vec_sum (deref dm []) wc 0 = replicate (Z.to_nat wc) f0)
    by reflexivity.
  rewrite Hs.
  rewrite vec_multiply_map by (rewrite length_replicate; reflexivity).
  rewrite fmap_replicate.
  rewrite vec_norm_euclidean by (rewrite length_replicate; reflexivity).
  rewrite vec_divide_map by (rewrite length_replicate; reflexivity).
  rewrite fmap_replicate. f_equal.
  assert (Hz : is_zero (fmul f0 (one_over wc))
               || is_nan (fmul f0 (one_over wc)) = true)
    by (apply fmul_zero_l; reflexivity).
  set (z := fmul f0 (one_over wc)) in *. clearbody z.
  destruct (is_zero z) eqn:Ez.
  - rewrite euclidean_norm_zeros by exact Ez.
    apply fdiv_zero_or_nan; [rewrite Ez; reflexivity|reflexivity].
  - simpl in Hz. rewrite (is_nan_eq _ Hz). reflexivity.
Qed.

(** Its quality is NaN as soon as there is a word. *)
Lemma computeQuality_empty (dm : matrix) (wc : Z) :
  (1 <= wc)%Z ->
  computeQuality dm [] 0 (replicate (Z.to_nat wc) S754_nan) wc = S754_nan.
Proof.
  intros Hwc. unfold computeQuality.
  apply (vec_dot_nan _ _ _ 0); [lia|].
  unfold rd at 2. rewrite lookup_replicate_2 by lia. simpl.
  rewrite fmul_nan_r. reflexivity.
Qed.

(** A NaN term makes the total quality NaN. *)
Lemma computeQuality_total_nan (dm : matrix) (ps : list (list nat))
    (szs : list Z) (cs : list vec) (k wc : Z) (c : nat) :
  c < Z.to_nat k ->
  computeQuality dm (part_at ps c) (size_at szs c) (row cs c) wc = S754_nan ->
  computeQuality_total dm ps szs cs k wc = S754_nan.
Proof.
  unfold computeQuality_total.
  induction (Z.to_nat k) as [|m IH]; intros Hc Hn; [lia|].
  cbn [for_loop]. destruct (decide (c = m)) as [->|Hne].
  - rewrite Hn. apply fadd_nan_r.
  - rewrite IH by (try lia; assumption). reflexivity.
Qed.

Lemma coherent_empty_quality (dm : matrix) (k wc : Z) (st : state) (c : nat) :
  coherent dm k wc st -> (1 <= wc)%Z ->
  c < Z.to_nat k -> part_at (partitions st) c = [] ->
  row (concepts st) c = replicate (Z.to_nat wc) S754_nan /\
  quality st = S754_nan.
Proof.
  intros (_ & _ & _ & Hsz & Hcs & Hq) Hwc Hc He.
  assert (Hs : size_at (p_sizes st) c = 0%Z) by (rewrite Hsz, He; reflexivity).
  assert (Hrow : row (concepts st) c = replicate (Z.to_nat wc) S754_nan).
  { rewrite (Hcs c Hc), He, Hs. apply computeConcept_empty. }
  split; [exact Hrow|]. rewrite Hq.
  apply (computeQuality_total_nan _ _ _ _ _ _ c Hc).
  rewrite He, Hs, Hrow. apply computeQuality_empty, Hwc.
Qed.

Lemma nan_quality_ends_loop (dm : matrix) (k dc wc : Z) (st : state) :
  quality (loop_body dm k dc wc st) = S754_nan ->
  dQ (loop_body dm k dc wc st) = S754_nan /\
  terminates_at dm k dc wc (loop_body dm k dc wc st).
Proof.
  intros Hq.
  assert (HdQ : dQ (loop_body dm k dc wc st) = S754_nan)
    by (rewrite loop_body_dQ, Hq; reflexivity).
  split; [exact HdQ|]. apply spk_loop_exit. unfold loop_cond.
  rewrite HdQ. reflexivity.
Qed.

(** X5.  With at least one word, a pass that leaves a partition empty
    ends the loop: the concept vector of the empty partition is NaN in
    every entry, the quality and [dQ] are NaN, and the test
    [dQ > Q_THRESHOLD] fails.  So a pass of the loop that is followed by
    another one has left no partition empty. *)
Theorem empty_partition_ends_loop (dm : matrix) (k dc wc : Z) (n c : nat) :
  (1 <= wc)%Z -> c < Z.to_nat k ->
  part_at (partitions (after_passes dm k dc wc (S n))) c = [] ->
  row (concepts (after_passes dm k dc wc (S n))) c
    = replicate (Z.to_nat wc) S754_nan /\
  quality (after_passes dm k dc wc (S n)) = S754_nan /\
  dQ (after_passes dm k dc wc (S n)) = S754_nan /\
  terminates_at dm k dc wc (after_passes dm k dc wc (S n)).
Proof.
  intros Hwc Hc He.
  destruct (coherent_empty_quality dm k wc _ c
              (after_passes_coherent dm k dc wc n) Hwc Hc He) as [Hrow Hq].
  split; [exact Hrow|]. split; [exact Hq|].
  unfold after_passes in *. simpl in *.
  apply nan_quality_ends_loop, Hq.
Qed.

Lemma empty_partition_ends_loop_witness :
  (1 <= 2)%Z /\ 0 < Z.to_nat 3 /\
  part_at (partitions (after_passes six_matrix 3 6 2 1)) 0 = [] /\
  terminates_at six_matrix 3 6 2 (after_passes six_matrix 3 6 2 1).
Proof.
  assert (He : part_at (partitions (after_passes six_matrix 3 6 2 1)) 0 = [])
    by (vm_compute; reflexivity).
  split; [lia|]. split; [simpl; lia|]. split; [exact He|].
  apply (empty_partition_ends_loop six_matrix 3 6 2 0 0
           ltac:(lia) ltac:(simpl; lia) He).
Defined.

End EmptyPartition.

(** ** A pass that changes nothing *)

Section StablePass.

Import SPKMeans Statements Notions.

Lemma zero_or_nan_is_small (x : float) :
  is_zero x || is_nan x = true -> fgt (double_of_float x) Q_THRESHOLD = false.
Proof. destruct x as [[]|[]| |]; try discriminate; reflexivity. Qed.

Lemma stable_pass (dm : matrix) (k dc wc : Z) (st : state) :
  coherent dm k wc st ->
  partitions (loop_body dm k dc wc st) = partitions st ->
  p_sizes (loop_body dm k dc wc st) = p_sizes st /\
  concepts (loop_body dm k dc wc st) = concepts st /\
  quality (loop_body dm k dc wc st) = quality st /\
  terminates_at dm k dc wc (loop_body dm k dc wc st).
Proof.
  intros (Lp & Ls & Lc & Hsz & Hcs & Hq) Hstable.
  destruct (loop_body_coherent dm k dc wc st Lp Ls Lc)
    as (Lp' & Ls' & Lc' & Hsz' & Hcs' & Hq').
  assert (Es : p_sizes (loop_body dm k dc wc st) = p_sizes st).
  { apply list_eq. intros c.
    destruct (decide (c < Z.to_nat k)) as [Hc|Hc].
    - pose proof (Hsz c) as H1. pose proof (Hsz' c) as H2.
      rewrite Hstable, <- H1 in H2. unfold size_at in H2.
      destruct (lookup_lt_is_Some_2 (p_sizes (loop_body dm k dc wc st)) c
                  ltac:(lia)) as [x Hx].
      destruct (lookup_lt_is_Some_2 (p_sizes st) c ltac:(lia)) as [y Hy].
      rewrite Hx, Hy in *. simpl in H2. congruence.
    - rewrite !lookup_ge_None_2 by lia. reflexivity. }
  assert (Ec : concepts (loop_body dm k dc wc st) = concepts st).
  { apply list_eq. intros c.
    destruct (decide (c < Z.to_nat k)) as [Hc|Hc].
    - pose proof (Hcs c Hc) as H1. pose proof (Hcs' c Hc) as H2.
      rewrite Hstable, Es, <- H1 in H2. unfold row in H2.
      destruct (lookup_lt_is_Some_2 (concepts (loop_body dm k dc wc st)) c
                  ltac:(lia)) as [x Hx].
      destruct (lookup_lt_is_Some_2 (concepts st) c ltac:(lia)) as [y Hy].
      rewrite Hx, Hy in *. simpl in H2. congruence.
    - rewrite !lookup_ge_None_2 by lia. reflexivity. }
  assert (Eq : quality (loop_body dm k dc wc st) = quality st).
  { rewrite Hq', Hstable, Es, Ec, <- Hq. reflexivity. }
  split; [exact Es|]. split; [exact Ec|]. split; [exact Eq|].
  apply spk_loop_exit. unfold loop_cond. rewrite loop_body_dQ, Eq.
  apply zero_or_nan_is_small, fsub_self.
Qed.

(** X6.  A pass that assigns every document to the partition it is in
    already ends the loop: from a coherent state, when the rebuilt
    partitions are the partitions before, the sizes, the concept vectors
    and the quality are the same too, [dQ] is [quality - quality], a zero
    or NaN, and the loop ends with this pass. *)
Theorem stable_pass_ends_loop (dm : matrix) (k dc wc : Z) (st : state) :
  (1 <= k)%Z -> coherent dm k wc st ->
  partitions (loop_body dm k dc wc st) = partitions st ->
  concepts (loop_body dm k dc wc st) = concepts st /\
  quality (loop_body dm k dc wc st) = quality st /\
  dQ (loop_body dm k dc wc st) = fsub (quality st) (quality st) /\
  terminates_at dm k dc wc (loop_body dm k dc wc st).
Proof.
  intros _ Hc Hs.
  destruct (stable_pass dm k dc wc st Hc Hs) as (_ & Ec & Eq & Ht).
  split; [exact Ec|]. split; [exact Eq|]. split; [|exact Ht].
  rewrite loop_body_dQ, Eq. reflexivity.
Qed.

Lemma stable_pass_ends_loop_witness :
  (1 <= 2)%Z /\
  coherent improving_matrix 2 2 (after_passes improving_matrix 2 4 2 1) /\
  partitions (loop_body improving_matrix 2 4 2 (after_passes improving_matrix 2 4 2 1))
    = partitions (after_passes improving_matrix 2 4 2 1) /\
  terminates_at improving_matrix 2 4 2
    (loop_body improving_matrix 2 4 2 (after_passes improving_matrix 2 4 2 1)).
Proof.
  pose proof (after_passes_coherent improving_matrix 2 4 2 0) as Hc.
  assert (Hs : partitions (loop_body improving_matrix 2 4 2
                             (after_passes improving_matrix 2 4 2 1))
               = partitions (after_passes improving_matrix 2 4 2 1))
    by (vm_compute; reflexivity).
  split; [lia|]. split; [exact Hc|]. split; [exact Hs|].
  apply (stable_pass_ends_loop _ 2 _ _ _ ltac:(lia) Hc Hs).
Defined.

End StablePass.

(** ** The run as iterated passes *)

Section Run.

Import SPKMeans Statements Notions.

Variables (dm : matrix) (k dc wc : Z).

Lemma iterations_iter (n : nat) (st : state) :
  iterations (Nat.iter n (loop_body dm k dc wc) st) = (iterations st + Z.of_nat n)%Z.
Proof.
  induction n as [|n IH]; simpl; [lia|].
  rewrite loop_body_iterations, IH. lia.
Qed.

(** The loop returns the first state, among those reached by iterating
    the body, in which the test fails. *)
Lemma spk_loop_Some (fuel : nat) :
  forall st st', spk_loop fuel dm k dc wc st = Some st' ->
  exists n, n <= fuel /\
    st' = Nat.iter n (loop_body dm k dc wc) st /\
    loop_cond st' = false /\
    forall j, j < n -> loop_cond (Nat.iter j (loop_body dm k dc wc) st) = true.
Proof.
  induction fuel as [|fuel IH]; intros st st' H; cbn [spk_loop] in H;
    destruct (loop_cond st) eqn:C; try discriminate.
  - injection H as <-. exists 0. repeat split; try lia; try assumption.
  - destruct (IH _ _ H) as (n & Hn & -> & Hc & Hbefore).
    exists (S n). split; [lia|]. rewrite Nat.iter_succ_r.
    split; [reflexivity|]. split; [exact Hc|].
    intros j Hj. destruct j as [|j]; [exact C|].
    rewrite Nat.iter_succ_r. apply Hbefore. lia.
  - injection H as <-. exists 0. repeat split; try lia; try assumption.
Qed.

Lemma spk_loop_reaches (n : nat) :
  forall st fuel, n <= fuel ->
  loop_cond (Nat.iter n (loop_body dm k dc wc) st) = false ->
  (forall j, j < n -> loop_cond (Nat.iter j (loop_body dm k dc wc) st) = true) ->
  spk_loop fuel dm k dc wc st = Some (Nat.iter n (loop_body dm k dc wc) st).
Proof.
  induction n as [|n IH]; intros st fuel Hf Hc Hbefore.
  - simpl in *. destruct fuel; cbn [spk_loop]; rewrite Hc; reflexivity.
  - destruct fuel as [|fuel]; [lia|]. cbn [spk_loop].
    pose proof (Hbefore 0 ltac:(lia)) as H0. simpl in H0. rewrite H0.
    rewrite Nat.iter_succ_r in *.
    apply IH; [lia|exact Hc|].
    intros j Hj. rewrite <- Nat.iter_succ_r. apply Hbefore. lia.
Qed.

End Run.

Section RunClaim.

Import SPKMeans Statements Notions.

(** X7.  A run with [k >= 1] that returns has made [n >= 1] passes, as
    many as it has counted iterations: its final state is the state after
    [n] passes from the initial one, the test [dQ > Q_THRESHOLD] fails
    there and succeeded after each of the passes before, and the results
    hold the partitions, sizes and concept vectors of that state.  A
    larger bound on the number of iterations gives the same answer. *)
Theorem run_is_iterated_passes (fuel : nat) (doc_matrix : matrix) (k dc wc : Z)
    (m : matrix) (st : state) (r : Results) :
  (1 <= k)%Z ->
  runSPKMeans fuel doc_matrix k dc wc = Some (m, st, r) ->
  m = txnScheme doc_matrix dc wc /\
  r = mkResults k dc wc (partitions st) (p_sizes st) (concepts st) /\
  (exists n, 1 <= n <= fuel /\
     st = after_passes m k dc wc n /\
     iterations st = Z.of_nat n /\
     loop_cond st = false /\
     forall j, j < n -> loop_cond (after_passes m k dc wc j) = true) /\
  forall fuel', fuel <= fuel' ->
    runSPKMeans fuel' doc_matrix k dc wc = Some (m, st, r).
Proof.
  unfold runSPKMeans. intros _ H.
  destruct (spk_loop fuel _ k dc wc _) as [st1|] eqn:E; [|discriminate].
  injection H as <- <- <-.
  set (dm := txnScheme doc_matrix dc wc) in *.
  destruct (spk_loop_Some dm k dc wc fuel _ _ E) as (n & Hn & Hst & Hc & Hbefore).
  assert (Hn1 : 1 <= n).
  { destruct n as [|n]; [|lia]. simpl in Hst. subst st1.
    rewrite initial_loop_cond in Hc. discriminate. }
  split; [reflexivity|]. split; [reflexivity|]. split.
  - exists n. split; [lia|]. split; [exact Hst|]. split; [|split].
    + rewrite Hst, iterations_iter.
      destruct (initial_state_fields dm k dc wc) as (_ & _ & _ & _ & _ & ->).
      lia.
    + exact Hc.
    + exact Hbefore.
  - intros fuel' Hf.
    rewrite (spk_loop_reaches dm k dc wc n _ fuel' ltac:(lia)).
    + rewrite <- Hst. reflexivity.
    + rewrite <- Hst. exact Hc.
    + exact Hbefore.
Qed.

Lemma run_is_iterated_passes_witness :
  (1 <= 2)%Z /\
  exists m st r,
    runSPKMeans 5 docs_improving 2 4 2 = Some (m, st, r) /\
    st = after_passes m 2 4 2 2 /\
    runSPKMeans 9 docs_improving 2 4 2 = Some (m, st, r).
Proof.
  split; [lia|].
  destruct (runSPKMeans 5 docs_improving 2 4 2) as [[[m st] r]|] eqn:E.
  - exists m, st, r. split; [reflexivity|].
    destruct (run_is_iterated_passes 5 docs_improving 2 4 2 m st r
                ltac:(lia) E)
      as (Hm & _ & (n & Hn & Hst & Hit & _) & Hfuel).
    split; [|apply Hfuel; lia].
    assert (Ei : iterations st = 2%Z).
    { vm_compute in E. injection E as _ <- _. reflexivity. }
    assert (n = 2) as -> by lia. exact Hst.
  - vm_compute in E. discriminate.
Defined.

End RunClaim.

(** ** Sizes and order of the rebuilt partitions *)

Section RebuiltPartitions.

Import SPKMeans Statements Notions.

(** The partitions after a pass, in closed form. *)
Lemma part_at_after_pass (dm : matrix) (k dc wc : Z) (n c : nat) :
  part_at (partitions (after_passes dm k dc wc (S n))) c =
  if decide (c < Z.to_nat k)
  then filter (fun i => assigned_cluster dm
                          (concepts (after_passes dm k dc wc n)) k wc i = c)
         (seq 0 (Z.to_nat dc))
  else [].
Proof.
  destruct (after_passes_lengths dm k dc wc n) as [Lp _].
  unfold after_passes. simpl. fold (after_passes dm k dc wc n).
  rewrite partitions_loop_body, part_at_transfer by exact Lp.
  destruct (decide (c < Z.to_nat k)) as [Hc|Hc]; [|reflexivity].
  apply reassign_part_at, Hc.
Qed.

Lemma p_sizes_after_pass (dm : matrix) (k dc wc : Z) (n : nat) :
  p_sizes (after_passes dm k dc wc (S n)) =
  map (fun c => Z.of_nat (length (part_at (partitions (after_passes dm k dc wc (S n))) c)))
    (seq 0 (Z.to_nat k)).
Proof.
  pose proof (after_passes_coherent dm k dc wc n) as H.
  set (st := after_passes dm k dc wc (S n)) in *. clearbody st.
  destruct H as (_ & Ls & _ & Hsz & _).
  apply list_eq. intros c. rewrite list_lookup_fmap.
  destruct (decide (c < Z.to_nat k)) as [Hc|Hc].
  - rewrite lookup_seq_lt by exact Hc. simpl. rewrite <- Hsz. unfold size_at.
    destruct (lookup_lt_is_Some_2 (p_sizes st) c ltac:(lia)) as [x ->].
    reflexivity.
  - rewrite lookup_seq_ge by lia. apply lookup_ge_None_2. lia.
Qed.

(** Sorting [n] items into [K] classes: the classes hold [n] items in
    all. *)
Lemma class_sizes_sum (f : nat -> nat) (K n : nat) :
  (forall i, i < n -> f i < K) ->
  foldr Z.add 0%Z
    (map (fun c => Z.of_nat (length (filter (fun i => f i = c) (seq 0 n))))
       (seq 0 K)) = Z.of_nat n.
Proof.
  induction n as [|n IH]; intros Hf.
  - simpl. induction (seq 0 K) as [|c l IHl]; simpl; [reflexivity|]. exact IHl.
  - specialize (IH ltac:(intros i Hi; apply Hf; lia)).
    pose proof (Hf n ltac:(lia)) as Hn.
    assert (G : forall l : list nat, NoDup l ->
              foldr Z.add 0%Z
                (map (fun c => Z.of_nat
                        (length (filter (fun i => f i = c) (seq 0 (S n))))) l) =
              (foldr Z.add 0%Z
                (map (fun c => Z.of_nat
                        (length (filter (fun i => f i = c) (seq 0 n)))) l)
               + (if decide (f n ∈ l) then 1 else 0))%Z).
    { induction l as [|c l IHl]; intros Hnd.
      - simpl. destruct (decide (f n ∈ [])) as [H|H]; [|reflexivity].
        apply elem_of_nil in H. destruct H.
      - apply NoDup_cons in Hnd. destruct Hnd as [Hc Hnd]. cbn [map foldr].
        rewrite (IHl Hnd), seq_S, filter_app, length_app. cbn [Nat.add].
        destruct (decide (f n = c)) as [E|E].
        + rewrite filter_cons_True by exact E. simpl.
          destruct (decide (f n ∈ c :: l)) as [H|H].
          * destruct (decide (f n ∈ l)) as [H'|H']; [congruence|]. lia.
          * exfalso. apply H, elem_of_cons. left. exact E.
        + rewrite filter_cons_False by exact E. simpl.
          destruct (decide (f n ∈ c :: l)) as [H|H].
          * apply elem_of_cons in H. destruct H as [H|H]; [congruence|].
            destruct (decide (f n ∈ l)); [lia|contradiction].
          * destruct (decide (f n ∈ l)) as [H'|H']; [|lia].
            exfalso. apply H. right. exact H'. }
    rewrite (G _ (NoDup_seq 0 K)), IH.
    destruct (decide (f n ∈ seq 0 K)) as [H|H]; [lia|].
    exfalso. apply H, elem_of_seq. lia.
Qed.

(** X8.  After every pass, for [k >= 1] and [dc >= 0], the recorded
    sizes of the [k] partitions sum to [dc], and each of them lies between
    0 and [dc]. *)
Theorem sizes_after_pass (dm : matrix) (k dc wc : Z) (n : nat) :
  (1 <= k)%Z -> (0 <= dc)%Z ->
  sum_sizes (p_sizes (after_passes dm k dc wc (S n))) = dc /\
  forall c, (0 <= size_at (p_sizes (after_passes dm k dc wc (S n))) c <= dc)%Z.
Proof.
  intros Hk Hdc. split.
  - rewrite p_sizes_after_pass. unfold sum_sizes.
    rewrite (map_ext_in _
      (fun c => Z.of_nat (length
         (filter (fun i => assigned_cluster dm
                    (concepts (after_passes dm k dc wc n)) k wc i = c)
            (seq 0 (Z.to_nat dc)))))).
    + rewrite class_sizes_sum; [lia|].
      intros i _.
      destruct (closest_scan_spec
                  (similarity dm (concepts (after_passes dm k dc wc n)) wc i)
                  k Hk) as (Hc & _).
      unfold assigned_cluster. lia.
    + intros c Hc. apply in_seq in Hc. rewrite part_at_after_pass.
      destruct (decide (c < Z.to_nat k)); [reflexivity|lia].
  - intros c.
    destruct (after_passes_coherent dm k dc wc n) as (_ & _ & _ & Hsz & _).
    rewrite Hsz, part_at_after_pass.
    destruct (decide (c < Z.to_nat k)); [|simpl; lia].
    pose proof (length_filter
                  (fun i => assigned_cluster dm
                              (concepts (after_passes dm k dc wc n)) k wc i = c)
                  (seq 0 (Z.to_nat dc))) as H.
    rewrite length_seq in H. lia.
Qed.

Lemma sizes_after_pass_witness :
  (1 <= 2)%Z /\ (0 <= 4)%Z /\
  p_sizes (after_passes improving_matrix 2 4 2 1) = [1; 3]%Z /\
  sum_sizes (p_sizes (after_passes improving_matrix 2 4 2 1)) = 4%Z.
Proof.
  split; [lia|]. split; [lia|]. split; [vm_compute; reflexivity|].
  apply (sizes_after_pass improving_matrix 2 4 2 0); lia.
Defined.

(** Filtering keeps a list of numbers increasing. *)
Lemma filter_seq_increasing (P : nat -> Prop) `{forall i, Decision (P i)}
    (a n p q x y : nat) :
  p < q ->
  filter P (seq a n) !! p = Some x -> filter P (seq a n) !! q = Some y ->
  x < y.
Proof.
  revert a p q. induction n as [|n IH]; intros a p q Hpq Hx Hy.
  - simpl in Hx. rewrite filter_nil in Hx. discriminate.
  - simpl in Hx, Hy. destruct (decide (P a)) as [Ha|Ha].
    + rewrite filter_cons_True in Hx, Hy by exact Ha.
      destruct q as [|q]; [lia|]. simpl in Hy.
      destruct p as [|p].
      * simpl in Hx. injection Hx as <-.
        apply list_elem_of_lookup_2, list_elem_of_filter in Hy.
        destruct Hy as [_ Hy]. apply elem_of_seq in Hy. lia.
      * simpl in Hx. apply (IH (S a) p q); [lia|assumption|assumption].
    + rewrite filter_cons_False in Hx, Hy by exact Ha.
      apply (IH (S a) p q); assumption.
Qed.

(** X9.  After every pass the members of each partition are in
    increasing document order: the documents keep the order of the input
    within their cluster. *)
Theorem partitions_keep_order (dm : matrix) (k dc wc : Z) (n c p q x y : nat) :
  p < q ->
  part_at (partitions (after_passes dm k dc wc (S n))) c !! p = Some x ->
  part_at (partitions (after_passes dm k dc wc (S n))) c !! q = Some y ->
  x < y.
Proof.
  rewrite part_at_after_pass. destruct (decide (c < Z.to_nat k)).
  - apply filter_seq_increasing.
  - intros _ H. discriminate.
Qed.

Lemma partitions_keep_order_witness :
  part_at (partitions (after_passes improving_matrix 2 4 2 1)) 1 = [0; 2; 3] /\
  0 < 2.
Proof.
  split; [vm_compute; reflexivity|].
  apply (partitions_keep_order improving_matrix 2 4 2 0 1 0 1 0 2);
    [lia|vm_compute; reflexivity|vm_compute; reflexivity].
Defined.

End RebuiltPartitions.

(** ** Degenerate numbers of clusters *)

Section Degenerate.

Import SPKMeans Statements Notions.

Lemma filter_all (P : nat -> Prop) `{forall i, Decision (P i)} (l : list nat) :
  (forall x, x ∈ l -> P x) -> filter P l = l.
Proof.
  induction l as [|a l IH]; intros HP; [reflexivity|].
  rewrite filter_cons_True by (apply HP; left).
  rewrite IH; [reflexivity|]. intros x Hx. apply HP. right. exact Hx.
Qed.

Lemma filter_none (P : nat -> Prop) `{forall i, Decision (P i)} (l : list nat) :
  (forall x, x ∈ l -> ~ P x) -> filter P l = [].
Proof.
  induction l as [|a l IH]; intros HP; [reflexivity|].
  rewrite filter_cons_False by (apply HP; left).
  apply IH. intros x Hx. apply HP. right. exact Hx.
Qed.

(** When every document is assigned to cluster 0, the pass puts them all
    there, in order, and leaves the other partitions empty. *)
Lemma all_in_cluster_0 (dm : matrix) (k dc wc : Z) (n : nat) :
  (1 <= k)%Z ->
  (forall i, assigned_cluster dm (concepts (after_passes dm k dc wc n)) k wc i = 0) ->
  part_at (partitions (after_passes dm k dc wc (S n))) 0 = seq 0 (Z.to_nat dc) /\
  forall c, 1 <= c -> part_at (partitions (after_passes dm k dc wc (S n))) c = [].
Proof.
  intros Hk H0. split.
  - rewrite part_at_after_pass. destruct (decide (0 < Z.to_nat k)); [|lia].
    apply filter_all. intros x _. apply H0.
  - intros c Hc. rewrite part_at_after_pass.
    destruct (decide (c < Z.to_nat k)); [|reflexivity].
    apply filter_none. intros x _. rewrite H0. lia.
Qed.

Lemma run_one_pass (doc_matrix : matrix) (k dc wc : Z) (fuel : nat) :
  terminates_at (txnScheme doc_matrix dc wc) k dc wc
    (after_passes (txnScheme doc_matrix dc wc) k dc wc 1) ->
  runSPKMeans (S fuel) doc_matrix k dc wc =
  Some (txnScheme doc_matrix dc wc,
        after_passes (txnScheme doc_matrix dc wc) k dc wc 1,
        mkResults k dc wc
          (partitions (after_passes (txnScheme doc_matrix dc wc) k dc wc 1))
          (p_sizes (after_passes (txnScheme doc_matrix dc wc) k dc wc 1))
          (concepts (after_passes (txnScheme doc_matrix dc wc) k dc wc 1))) /\
  iterations (after_passes (txnScheme doc_matrix dc wc) k dc wc 1) = 1%Z.
Proof.
  intros Ht. unfold runSPKMeans.
  rewrite spk_loop_step by apply initial_loop_cond.
  unfold after_passes in *. simpl in *. rewrite (Ht fuel).
  split; [reflexivity|]. rewrite loop_body_iterations.
  destruct (initial_state_fields (txnScheme doc_matrix dc wc) k dc wc)
    as (_ & _ & _ & _ & _ & ->).
  reflexivity.
Qed.

(** X10.  More clusters than documents ([0 <= dc < k], at least one
    word): the initial partition 0 is empty, so its concept vector is NaN
    and so is every similarity to it; the first pass puts all the
    documents in cluster 0 and leaves the other partitions empty, the
    quality is NaN, and the run returns after exactly one iteration. *)
Theorem more_clusters_than_documents (doc_matrix : matrix) (k dc wc : Z)
    (fuel : nat) :
  (0 <= dc < k)%Z -> (k < 2 ^ 32)%Z -> (1 <= wc)%Z ->
  exists m st r,
    runSPKMeans (S fuel) doc_matrix k dc wc = Some (m, st, r) /\
    iterations st = 1%Z /\
    part_at (r_partitions r) 0 = seq 0 (Z.to_nat dc) /\
    (forall c, 1 <= c -> part_at (r_partitions r) c = []) /\
    quality st = S754_nan.
Proof.
  intros Hdc Hk Hwc.
  set (dm := txnScheme doc_matrix dc wc).
  assert (Hk' : (1 <= k < 2 ^ 32)%Z) by lia.
  assert (Hdc' : (0 <= dc < 2 ^ 32)%Z) by lia.
  pose proof (initial_state_coherent dm k dc wc Hk' Hdc') as Hcoh.
  destruct (initial_state_fields dm k dc wc) as (Ep & _).
  assert (He0 : part_at (partitions (initial_state dm k dc wc)) 0 = []).
  { rewrite Ep.
    destruct (initial_partitioning_closed k dc 0 Hk' Hdc' ltac:(lia)) as [-> _].
    unfold group, group_size.
    rewrite (Z.div_small dc k), (Z.mod_small dc k) by lia.
    destruct (Z.of_nat 0 =? k - 1)%Z eqn:E; [|reflexivity].
    replace dc with 0%Z by lia. reflexivity. }
  destruct (coherent_empty_quality dm k wc _ 0 Hcoh Hwc ltac:(lia) He0)
    as [Hrow _].
  assert (Hall : forall i,
            assigned_cluster dm (concepts (after_passes dm k dc wc 0)) k wc i = 0).
  { intros i. apply closest_scan_nan. unfold similarity, after_passes. simpl.
    rewrite Hrow.
    rewrite (cosineSimilarity_nan_r _ _ _ 0); [reflexivity|lia|].
    unfold rd. rewrite lookup_replicate_2 by lia. reflexivity. }
  destruct (all_in_cluster_0 dm k dc wc 0 ltac:(lia) Hall) as [H0 Hrest].
  assert (Hempty : exists c, c < Z.to_nat k /\
            part_at (partitions (after_passes dm k dc wc 1)) c = []).
  { destruct (decide (k = 1%Z)) as [->|Hne].
    - exists 0. split; [simpl; lia|]. rewrite H0.
      replace dc with 0%Z by lia. reflexivity.
    - exists 1. split; [lia|]. apply Hrest. lia. }
  destruct Hempty as (c & Hc & Hec).
  destruct (coherent_empty_quality dm k wc _ c
              (after_passes_coherent dm k dc wc 0) Hwc Hc Hec) as [_ Hq].
  assert (Ht : terminates_at dm k dc wc (after_passes dm k dc wc 1)).
  { unfold after_passes in *. simpl in *. apply nan_quality_ends_loop, Hq. }
  destruct (run_one_pass doc_matrix k dc wc fuel Ht) as [Hrun Hit].
  do 3 eexists. split; [exact Hrun|]. split; [exact Hit|].
  split; [exact H0|]. split; [exact Hrest|exact Hq].
Qed.

Lemma more_clusters_than_documents_witness :
  (0 <= 2 < 3)%Z /\ (3 < 2 ^ 32)%Z /\ (1 <= 2)%Z /\
  exists m st r,
    runSPKMeans 1 docs_with_empty 3 2 2 = Some (m, st, r) /\
    iterations st = 1%Z /\
    part_at (r_partitions r) 0 = seq 0 (Z.to_nat 2).
Proof.
  split; [lia|]. split; [lia|]. split; [lia|].
  destruct (more_clusters_than_documents docs_with_empty 3 2 2 0
              ltac:(lia) ltac:(lia) ltac:(lia))
    as (m & st & r & H1 & H2 & H3 & _).
  exists m, st, r. split; [exact H1|]. split; [exact H2|exact H3].
Defined.

(** X11.  A single cluster: the first pass assigns every document to
    cluster 0, where the initial partitioning has put them already, so the
    loop ends with it: the run returns after exactly one iteration with
    all the documents, in order, in the one partition. *)
Theorem single_cluster (doc_matrix : matrix) (dc wc : Z) (fuel : nat) :
  (0 <= dc < 2 ^ 32)%Z ->
  exists m st r,
    runSPKMeans (S fuel) doc_matrix 1 dc wc = Some (m, st, r) /\
    iterations st = 1%Z /\
    r_partitions r = [seq 0 (Z.to_nat dc)] /\
    r_p_sizes r = [dc].
Proof.
  intros Hdc.
  set (dm := txnScheme doc_matrix dc wc).
  pose proof (initial_state_coherent dm 1 dc wc ltac:(lia) Hdc) as Hcoh.
  destruct (initial_state_fields dm 1 dc wc) as (Ep & Es & _).
  destruct (initial_partitions_map 1 dc ltac:(lia) Hdc) as [Mp Ms].
  assert (Ep' : partitions (initial_state dm 1 dc wc) = [seq 0 (Z.to_nat dc)]).
  { rewrite Ep, Mp. simpl. unfold group, group_size. simpl.
    rewrite Z.div_1_r, Z.mod_1_r, Z.add_0_r. reflexivity. }
  assert (Es' : p_sizes (initial_state dm 1 dc wc) = [dc]).
  { rewrite Es, Ms. simpl. unfold group_size. simpl.
    rewrite Z.div_1_r, Z.mod_1_r, Z.add_0_r. reflexivity. }
  assert (Hall : forall i,
            assigned_cluster dm (concepts (after_passes dm 1 dc wc 0)) 1 wc i = 0)
    by (intros i; reflexivity).
  destruct (all_in_cluster_0 dm 1 dc wc 0 ltac:(lia) Hall) as [H0 _].
  destruct (after_passes_lengths dm 1 dc wc 1) as [Lp _].
  assert (Hstable : partitions (loop_body dm 1 dc wc (initial_state dm 1 dc wc))
                    = partitions (initial_state dm 1 dc wc)).
  { rewrite Ep'.
    change (after_passes dm 1 dc wc 1)
      with (loop_body dm 1 dc wc (initial_state dm 1 dc wc)) in H0, Lp.
    set (ps := partitions (loop_body dm 1 dc wc (initial_state dm 1 dc wc))) in *.
    clearbody ps.
    destruct ps as [|p [|p' ps]]; cbn [length] in Lp;
      try (exfalso; revert Lp; vm_compute; congruence).
    unfold part_at in H0. cbn in H0. rewrite H0. reflexivity. }
  destruct (stable_pass dm 1 dc wc _ Hcoh Hstable) as (Hsz & _ & _ & Ht).
  destruct (run_one_pass doc_matrix 1 dc wc fuel Ht) as [Hrun Hit].
  do 3 eexists. split; [exact Hrun|]. split; [exact Hit|].
  cbn [r_partitions r_p_sizes]. fold dm.
  change (after_passes dm 1 dc wc 1)
    with (loop_body dm 1 dc wc (initial_state dm 1 dc wc)).
  rewrite Hstable, Hsz, Ep', Es'. split; reflexivity.
Qed.

Lemma single_cluster_witness :
  (0 <= 4 < 2 ^ 32)%Z /\
  exists m st r,
    runSPKMeans 1 docs_scenario 1 4 3 = Some (m, st, r) /\
    iterations st = 1%Z /\
    r_partitions r = [seq 0 (Z.to_nat 4)].
Proof.
  split; [lia|].
  destruct (single_cluster docs_scenario 4 3 0 ltac:(lia))
    as (m & st & r & H1 & H2 & H3 & _).
  exists m, st, r. split; [exact H1|]. split; [exact H2|exact H3].
Defined.

End Degenerate.

(** ** What the load depends on *)

Section LoadedFrom.

Import SPKMeans Loader Statements Notions.
Local Open Scope Z_scope.





Lemma last_count_from (d w c : Z) (ts : list (Z * Z * Z)) :
  last_count d w ts = Some c ->
  exists t, t ∈ ts /\ fst (fst t) = d /\ snd t = c.
Proof.
  induction ts as [|t ts IH]; cbn [last_count]; [discriminate|].
  destruct (last_count d w ts) as [c'|].
  - intros E. destruct (IH E) as (t' & Ht' & H). exists t'.
    split; [right; exact Ht'|exact H].
  - unfold names_cell. destruct (Z.eqb_spec (fst (fst t)) d) as [E1|]; simpl;
      [|discriminate].
    destruct (snd (fst t) =? w); [|discriminate].
    intros E. injection E as E. exists t. split; [left|split; assumption].
Qed.

(** The row of a document whose triplets all have the count 0 (or that
    has no triplet) holds only zeros. *)
Lemma silent_row_zero (content : string) (dc wc : Z) (mat : matrix) (d : Z) :
  loadDocFile content = Some (dc, wc, mat) -> 1 <= d <= dc ->
  (forall t, t ∈ triplets (body_lines content) -> fst (fst t) = d -> snd t = 0) ->
  (Z.to_nat (d - 1) < length mat)%nat /\
  length (row mat (Z.to_nat (d - 1))) = Z.to_nat wc /\
  zero_vector (row mat (Z.to_nat (d - 1))) wc.
Proof.
  intros HL Hd Hsilent. apply loadDocFile_Some in HL.
  destruct HL as (_ & _ & HP).
  pose proof (populate_shaped dc wc _ _ _ (zero_matrix_shaped dc wc) HP)
    as [Hlen Hrows].
  assert (Hlt : (Z.to_nat (d - 1) < length mat)%nat) by lia.
  split; [exact Hlt|]. split.
  - destruct (lookup_lt_is_Some_2 mat _ Hlt) as [r Hr].
    unfold row. rewrite Hr. simpl. apply Hrows.
    eapply list_elem_of_lookup_2. exact Hr.
  - intros i Hi.
    pose proof (populate_cell dc wc _ _ _ (zero_matrix_shaped dc wc) HP
                  d (Z.of_nat i + 1) Hd ltac:(lia)) as Hc.
    replace (rd (row mat (Z.to_nat (d - 1))) i)
      with (cell mat d (Z.of_nat i + 1))
      by (unfold cell; f_equal; lia).
    rewrite Hc.
    destruct (last_count d (Z.of_nat i + 1) (triplets (body_lines content)))
      as [c|] eqn:E.
    + destruct (last_count_from _ _ _ _ E) as (t & Ht & Hd' & Hc').
      rewrite <- Hc', (Hsilent t Ht Hd'). reflexivity.
    + rewrite zero_matrix_cell by lia. reflexivity.
Qed.

(** X13.  Loader and clustering composed: a document of the file that no
    triplet names, or whose triplets all have the count 0, is loaded as a
    row of zeros, and every reassignment pass of the clustering of the
    loaded matrix puts it in cluster 0, whatever the concept vectors and
    the number [k >= 1] of clusters are. *)
Theorem silent_document_in_cluster_0 (content : string) (dc wc : Z)
    (mat : matrix) (d : Z) :
  loadDocFile content = Some (dc, wc, mat) -> 1 <= d <= dc ->
  (forall t, t ∈ triplets (body_lines content) -> fst (fst t) = d -> snd t = 0) ->
  zero_vector (row mat (Z.to_nat (d - 1))) wc /\
  forall (cs : list vec) (k : Z), 1 <= k ->
    assigned_cluster (txnScheme mat dc wc) cs k wc (Z.to_nat (d - 1)) = 0%nat.
Proof.
  intros HL Hd Hsilent.
  destruct (silent_row_zero content dc wc mat d HL Hd Hsilent)
    as (Hlt & Hlen & Hz).
  split; [exact Hz|]. intros cs k _. apply closest_scan_nan.
  rewrite similarity_zero_document; try assumption; [reflexivity|lia].
Qed.

Lemma silent_document_in_cluster_0_witness :
  loadDocFile file_silent_document = Some (2, 2, [[f0; fi 4]; [f0; f0]]) /\
  1 <= 2 <= 2 /\
  forall (cs : list vec) (k : Z), 1 <= k ->
    assigned_cluster (txnScheme [[f0; fi 4]; [f0; f0]] 2 2) cs k 2
      (Z.to_nat (2 - 1)) = 0%nat.
Proof.
  assert (HL : loadDocFile file_silent_document
               = Some (2, 2, [[f0; fi 4]; [f0; f0]]))
    by (vm_compute; reflexivity).
  split; [exact HL|]. split; [lia|].
  refine (proj2 (silent_document_in_cluster_0 file_silent_document 2 2
                   [[f0; fi 4]; [f0; f0]] 2 HL ltac:(lia) _)).
  intros t Ht.
  assert (E : triplets (body_lines file_silent_document) = [(1, 2, 4)])
    by (vm_compute; reflexivity).
  rewrite E in Ht.
  apply elem_of_cons in Ht. destruct Ht as [->|Ht].
  - simpl. discriminate.
  - apply elem_of_nil in Ht. destruct Ht.
Defined.

End LoadedFrom.

(** ** The order of the report *)

Section PairOrder.

Import SPKMeans Reporter Notions.
Local Open Scope Z_scope.

Ltac order_cases :=
  unfold fgt, feq, is_nan, SFeqb, SFltb, SFcompare;
  repeat match goal with
  | x : spec_float |- _ => destruct x as [[]|[]| |[] ? ?]
  end;
  simpl; intros; try discriminate; try reflexivity;
  repeat match goal with
  | H : context [Pos.compare_cont Eq ?a ?b] |- _ =>
      change (Pos.compare_cont Eq a b) with (Pos.compare a b) in H
  | |- context [Pos.compare_cont Eq ?a ?b] =>
      change (Pos.compare_cont Eq a b) with (Pos.compare a b)
  end;
  repeat match goal with
  | H : context [Z.compare ?a ?b] |- _ =>
      destruct (Z.compare_spec a b); simpl in H
  | |- context [Z.compare ?a ?b] => destruct (Z.compare_spec a b); simpl
  | H : context [Pos.compare ?a ?b] |- _ =>
      destruct (Pos.compare_spec a b); simpl in H
  | |- context [Pos.compare ?a ?b] => destruct (Pos.compare_spec a b); simpl
  end;
  subst; try discriminate; try reflexivity; try lia.

Lemma fgt_asym (x y : spec_float) : fgt x y = true -> fgt y x = false.
Proof. order_cases. Qed.

(** Away from NaN, [<=] is transitive, alone and with [<]. *)
Lemma fgt_neg_trans (x y z : spec_float) :
  is_nan y = false ->
  fgt x y = false -> fgt y z = false -> fgt x z = false.
Proof. order_cases. Qed.

Lemma fgt_le_trans_l (x y z : spec_float) :
  is_nan z = false ->
  fgt y x = true -> fgt y z = false -> fgt z x = true.
Proof. order_cases. Qed.

Lemma fgt_le_trans_r (x y z : spec_float) :
  is_nan x = false ->
  fgt x y = false -> fgt z y = true -> fgt z x = true.
Proof. order_cases. Qed.

Lemma fgt_false_feq (x y : spec_float) :
  is_nan x = false -> is_nan y = false ->
  fgt x y = false -> fgt y x = false -> feq x y = true.
Proof. order_cases. Qed.

Lemma pair_lt_irrefl (x : float * Z) : pair_lt x x = false.
Proof.
  unfold pair_lt. rewrite fgt_irrefl, Z.ltb_irrefl. reflexivity.
Qed.

Lemma pair_lt_trans (x y z : float * Z) :
  is_nan (fst x) = false -> is_nan (fst y) = false -> is_nan (fst z) = false ->
  pair_lt x y = true -> pair_lt y z = true -> pair_lt x z = true.
Proof.
  unfold pair_lt. destruct x as [x i], y as [y j], z as [z l]. cbn [fst snd].
  intros Nx Ny Nz Hxy Hyz.
  apply orb_true_iff in Hxy. apply orb_true_iff in Hyz. apply orb_true_iff.
  destruct Hxy as [Hxy|Hxy]; destruct Hyz as [Hyz|Hyz].
  - left. eapply fgt_trans; eassumption.
  - apply andb_true_iff in Hyz. destruct Hyz as [Hyz _].
    apply negb_true_iff in Hyz. left.
    eapply fgt_le_trans_l; eassumption.
  - apply andb_true_iff in Hxy. destruct Hxy as [Hxy _].
    apply negb_true_iff in Hxy. left.
    eapply fgt_le_trans_r; eassumption.
  - apply andb_true_iff in Hxy. destruct Hxy as [Hxy Hij].
    apply andb_true_iff in Hyz. destruct Hyz as [Hyz Hjl].
    apply negb_true_iff in Hxy. apply negb_true_iff in Hyz.
    right. apply andb_true_iff. split.
    + apply negb_true_iff. exact (fgt_neg_trans x y z Ny Hxy Hyz).
    + lia.
Qed.

Lemma pair_lt_total (x y : float * Z) :
  snd x <> snd y -> pair_lt x y = false -> pair_lt y x = true.
Proof.
  unfold pair_lt. destruct x as [x i], y as [y j]. cbn [fst snd].
  intros Hne H. apply orb_false_iff in H. destruct H as [H1 H2].
  rewrite H1 in *. cbn [negb andb].
  destruct (fgt x y); [reflexivity|]. cbn [negb andb orb] in *. lia.
Qed.

(** The order of the pairs, read on weights that are not NaN. *)
Lemma pair_lt_shown_before (values : vec) (a b : nat) :
  is_nan (rd values a) = false -> is_nan (rd values b) = false ->
  pair_lt (rd values b, Z.of_nat b) (rd values a, Z.of_nat a) = true ->
  shown_before values a b.
Proof.
  unfold pair_lt, shown_before. cbn [fst snd]. intros Na Nb H.
  apply orb_true_iff in H. destruct H as [H|H]; [left; exact H|].
  apply andb_true_iff in H. destruct H as [H1 H2].
  apply negb_true_iff in H1.
  destruct (fgt (rd values a) (rd values b)) eqn:E; [left; reflexivity|].
  right. split; [|lia]. apply fgt_false_feq; assumption.
Qed.

End PairOrder.

Section Queue.

Import SPKMeans Reporter Notions.
Local Open Scope Z_scope.

Lemma pq_top_None (q : list (float * Z)) : pq_top q = None -> q = [].
Proof.
  destruct q as [|x r]; [reflexivity|]. cbn [pq_top].
  destruct (pq_top r); discriminate.
Qed.

Lemma pq_top_Some (q : list (float * Z)) :
  q <> [] -> exists m, pq_top q = Some m.
Proof.
  destruct (pq_top q) as [m|] eqn:E; [eexists; reflexivity|].
  intros H. destruct (H (pq_top_None q E)).
Qed.

Lemma good_queue_cons (x : float * Z) (q : list (float * Z)) :
  good_queue (x :: q) ->
  is_nan (fst x) = false /\ (forall y, y ∈ q -> snd y <> snd x) /\ good_queue q.
Proof.
  intros [Hd Hn]. cbn [map] in Hd. apply NoDup_cons in Hd.
  destruct Hd as [Hx Hd]. apply Forall_cons in Hn. destruct Hn as [Nx Hn].
  split; [exact Nx|]. split; [|split; assumption].
  intros y Hy E. apply Hx. rewrite <- E.
  apply (list_elem_of_fmap_2 snd). exact Hy.
Qed.

Lemma good_queue_nan (q : list (float * Z)) (x : float * Z) :
  good_queue q -> x ∈ q -> is_nan (fst x) = false.
Proof.
  intros [_ Hn] Hx. rewrite Forall_forall in Hn. apply Hn. exact Hx.
Qed.

Lemma good_queue_perm (q q' : list (float * Z)) :
  q ≡ₚ q' -> good_queue q -> good_queue q'.
Proof.
  intros HP [Hd Hn]. split.
  - rewrite <- HP. exact Hd.
  - rewrite <- HP. exact Hn.
Qed.

(** [top] is an element of the queue, and every other one is below it. *)
Lemma pq_top_greatest (q : list (float * Z)) :
  good_queue q -> forall m, pq_top q = Some m ->
  m ∈ q /\ forall x, x ∈ q -> x = m \/ pair_lt x m = true.
Proof.
  induction q as [|x r IH]; intros Hg m; cbn [pq_top]; [discriminate|].
  destruct (good_queue_cons x r Hg) as (Nx & Hne & Hr).
  destruct (pq_top r) as [y|] eqn:E.
  - destruct (IH Hr y eq_refl) as [Hy Hmax].
    pose proof (good_queue_nan r y Hr Hy) as Ny.
    destruct (pair_lt x y) eqn:Exy; intros H; injection H as <-.
    + split; [right; exact Hy|].
      intros z Hz. apply elem_of_cons in Hz. destruct Hz as [->|Hz].
      * right. exact Exy.
      * apply Hmax. exact Hz.
    + split; [left|].
      assert (Hyx : pair_lt y x = true).
      { apply pair_lt_total; [|exact Exy]. intros Eq. apply (Hne y Hy).
        symmetry. exact Eq. }
      intros z Hz. apply elem_of_cons in Hz. destruct Hz as [->|Hz].
      * left. reflexivity.
      * right. destruct (Hmax z Hz) as [->|Hzy]; [exact Hyx|].
        apply (pair_lt_trans z y x); try assumption.
        apply (good_queue_nan r z Hr Hz).
  - intros H. injection H as <-. apply pq_top_None in E. subst r.
    split; [left|]. intros z Hz. apply elem_of_cons in Hz.
    destruct Hz as [->|Hz]; [left; reflexivity|].
    apply elem_of_nil in Hz. destruct Hz.
Qed.

(** [pop] removes the top, and nothing else. *)
Lemma pq_pop_perm (q : list (float * Z)) :
  forall m, pq_top q = Some m -> q ≡ₚ m :: pq_pop q.
Proof.
  induction q as [|x r IH]; intros m; cbn [pq_top pq_pop]; [discriminate|].
  destruct (pq_top r) as [y|] eqn:E.
  - destruct (pair_lt x y); intros H; injection H as <-.
    + rewrite (IH y eq_refl) at 1. apply Permutation_swap.
    + reflexivity.
  - intros H. injection H as <-. apply pq_top_None in E. subst r. reflexivity.
Qed.

Lemma descending_lookup (l : list (float * Z)) :
  descending l -> forall p q a b, (p < q)%nat ->
  l !! p = Some a -> l !! q = Some b -> pair_lt b a = true.
Proof.
  induction l as [|x l IH]; intros Hd p q a b Hpq Ha Hb.
  - rewrite lookup_nil in Ha. discriminate.
  - destruct Hd as [Hx Hd]. destruct q as [|q]; [lia|]. cbn in Hb.
    destruct p as [|p].
    + cbn in Ha. injection Ha as <-. apply Hx.
      eapply list_elem_of_lookup_2. exact Hb.
    + cbn in Ha. apply (IH Hd p q); [lia|assumption|assumption].
Qed.

(** Draining [n] pairs of a queue that holds at least [n]: they come in
    descending order, and what stays in the queue is below them all. *)
Lemma drain_spec (n : nat) :
  forall q, good_queue q -> (n <= length q)%nat ->
  exists rest,
    q ≡ₚ drain n q ++ rest /\ length (drain n q) = n /\
    descending (drain n q) /\
    forall a c, a ∈ drain n q -> c ∈ rest -> pair_lt c a = true.
Proof.
  induction n as [|n IH]; intros q Hg Hn; cbn [drain].
  - exists q. split; [reflexivity|]. split; [reflexivity|]. split; [exact I|].
    intros a c Ha. apply elem_of_nil in Ha. destruct Ha.
  - destruct (pq_top_Some q) as [m Hm].
    { intros ->. simpl in Hn. lia. }
    rewrite Hm.
    destruct (pq_top_greatest q Hg m Hm) as [Hin Hmax].
    pose proof (pq_pop_perm q m Hm) as HP.
    pose proof (good_queue_perm _ _ HP Hg) as Hg'.
    destruct (good_queue_cons _ _ Hg') as (Nm & Hne & Hgp).
    assert (Hlen : (n <= length (pq_pop q))%nat).
    { apply Permutation_length in HP. simpl in HP. lia. }
    destruct (IH (pq_pop q) Hgp Hlen) as (rest & HP' & HL & HD & HB).
    assert (Hbelow : forall x, x ∈ pq_pop q -> pair_lt x m = true).
    { intros x Hx. destruct (Hmax x) as [->|H]; [|exfalso|exact H].
      - rewrite HP. right. exact Hx.
      - apply (Hne m Hx). reflexivity. }
    exists rest. split; [|split; [|split]].
    + rewrite HP at 1. cbn [app]. rewrite HP' at 1. reflexivity.
    + cbn [length]. rewrite HL. reflexivity.
    + split; [|exact HD]. intros b Hb. apply Hbelow. rewrite HP'.
      apply elem_of_app. left. exact Hb.
    + intros a c Ha Hc. apply elem_of_cons in Ha. destruct Ha as [->|Ha].
      * apply Hbelow. rewrite HP'. apply elem_of_app. right. exact Hc.
      * apply HB; assumption.
Qed.

Lemma drain_elem_of (n : nat) :
  forall q a, a ∈ drain n q -> a ∈ q.
Proof.
  induction n as [|n IH]; intros q a; cbn [drain].
  - intros H. apply elem_of_nil in H. destruct H.
  - destruct (pq_top q) as [m|] eqn:Hm.
    + pose proof (pq_pop_perm q m Hm) as HP. intros H.
      apply elem_of_cons in H. rewrite HP. destruct H as [->|H].
      * left.
      * right. apply IH. exact H.
    + intros H. apply elem_of_nil in H. destruct H.
Qed.

(** The lines printed are the words of the drained pairs, as long as
    their slots of the vocabulary are set. *)
Lemma show_top_drain (words : list (option string)) (n : nat) :
  forall q, (n <= length q)%nat ->
  (forall m, m ∈ q -> exists w, words !! Z.to_nat (snd m) = Some (Some w)) ->
  show_top n q words =
  Some (map (fun m => Word_line (word_at words (Z.to_nat (snd m)))) (drain n q)).
Proof.
  induction n as [|n IH]; intros q Hn Hw; cbn [show_top drain]; [reflexivity|].
  destruct (pq_top_Some q) as [m Hm].
  { intros ->. simpl in Hn. lia. }
  rewrite Hm. pose proof (pq_pop_perm q m Hm) as HP.
  destruct m as [x index].
  destruct (Hw (x, index)) as [w Ew]; [rewrite HP; left|].
  cbn [snd] in Ew. rewrite Ew.
  rewrite IH.
  - cbn [map snd].
    replace (word_at words (Z.to_nat index)) with w
      by (unfold word_at; rewrite Ew; reflexivity).
    reflexivity.
  - apply Permutation_length in HP. simpl in HP. lia.
  - intros m Hm'. apply Hw. rewrite HP. right. exact Hm'.
Qed.

(** A vocabulary slot that is not set, reached by the loop. *)
Lemma show_top_unset (words : list (option string)) (n : nat) :
  forall q a, a ∈ drain n q ->
  (forall w, words !! Z.to_nat (snd a) <> Some (Some w)) ->
  show_top n q words = None.
Proof.
  induction n as [|n IH]; intros q a; cbn [show_top drain].
  - intros H. apply elem_of_nil in H. destruct H.
  - destruct (pq_top q) as [[x index]|] eqn:Hm; [|reflexivity].
    intros Ha Hun. apply elem_of_cons in Ha.
    destruct (words !! Z.to_nat index) as [[w|]|] eqn:Ew; try reflexivity.
    destruct Ha as [->|Ha].
    + cbn [snd] in Hun. destruct (Hun w Ew).
    + rewrite (IH _ a Ha Hun). reflexivity.
Qed.

Lemma fill_queue_pairs (values : vec) :
  fill_queue values =
  reverse (map (fun i => (rd values i, Z.of_nat i)) (seq 0 (length values))).
Proof.
  unfold fill_queue. generalize (length values) as n.
  induction n as [|n IH]; [reflexivity|].
  cbn [for_loop]. rewrite IH, seq_S, map_app, reverse_app. reflexivity.
Qed.

Lemma fill_queue_length (values : vec) :
  length (fill_queue values) = length values.
Proof.
  rewrite fill_queue_pairs, length_reverse, length_map, length_seq.
  reflexivity.
Qed.

Lemma fill_queue_elem_of (values : vec) (m : float * Z) :
  m ∈ fill_queue values <->
  exists i, (i < length values)%nat /\ m = (rd values i, Z.of_nat i).
Proof.
  rewrite fill_queue_pairs, elem_of_reverse, list_elem_of_fmap. split.
  - intros (i & -> & Hi). apply elem_of_seq in Hi. exists i. split; [lia|reflexivity].
  - intros (i & Hi & ->). exists i. split; [reflexivity|].
    apply elem_of_seq. lia.
Qed.

Lemma fill_queue_good (values : vec) :
  existsb is_nan values = false -> good_queue (fill_queue values).
Proof.
  intros Hn. split.
  - rewrite fill_queue_pairs.
    change (NoDup (snd <$> reverse ((fun i => (rd values i, Z.of_nat i))
                                      <$> seq 0 (length values)))).
    rewrite fmap_reverse, reverse_Permutation, <- list_fmap_compose.
    apply NoDup_fmap_2; [|apply NoDup_seq].
    intros i j H. cbn in H. lia.
  - apply Forall_forall. intros m Hm. apply fill_queue_elem_of in Hm.
    destruct Hm as (i & Hi & ->). cbn [fst].
    destruct (lookup_lt_is_Some_2 values i Hi) as [x Hx].
    unfold rd. rewrite Hx. change (is_nan x = false).
    destruct (is_nan x) eqn:E; [|reflexivity].
    assert (existsb is_nan values = true); [|congruence].
    apply existsb_exists. exists x. split; [|exact E].
    apply list_elem_of_In. eapply list_elem_of_lookup_2. exact Hx.
Qed.

End Queue.

Section Report.

Import SPKMeans Loader Statements Reporter Notions.
Local Open Scope Z_scope.

Lemma vec_sum_length (vectors : list vec) (n count : Z) :
  length (vec_sum vectors n count) = Z.to_nat n.
Proof.
  unfold vec_sum. generalize (Z.to_nat count) as m.
  induction m as [|m IH]; cbn [for_loop].
  - apply length_replicate.
  - rewrite (for_loop_insert_length
               (fun i r => fadd (rd r i) (rd (row vectors m) i))).
    exact IH.
Qed.

Lemma no_nan_existsb (values : vec) :
  (forall x, x ∈ values -> is_nan x = false) -> existsb is_nan values = false.
Proof.
  intros H. destruct (existsb is_nan values) eqn:E; [|reflexivity].
  apply existsb_exists in E. destruct E as (x & Hx & Ex).
  apply list_elem_of_In in Hx. rewrite (H x Hx) in Ex. discriminate.
Qed.

Lemma rd_no_nan (values : vec) (a : nat) :
  (forall x, x ∈ values -> is_nan x = false) -> (a < length values)%nat ->
  is_nan (rd values a) = false.
Proof.
  intros H Ha. destruct (lookup_lt_is_Some_2 values a Ha) as [x Hx].
  unfold rd. rewrite Hx. apply H. eapply list_elem_of_lookup_2. exact Hx.
Qed.

Lemma shown_indices_elem_of (values : vec) (n a : nat) :
  a ∈ shown_indices values n <->
  (a < length values)%nat /\
  (rd values a, Z.of_nat a) ∈ drain n (fill_queue values).
Proof.
  unfold shown_indices. rewrite list_elem_of_fmap. split.
  - intros (m & -> & Hm).
    pose proof (drain_elem_of _ _ _ Hm) as Hq.
    apply fill_queue_elem_of in Hq. destruct Hq as (i & Hi & ->).
    cbn [snd]. rewrite Nat2Z.id. split; [exact Hi|exact Hm].
  - intros [_ Hm]. exists (rd values a, Z.of_nat a).
    cbn [snd]. rewrite Nat2Z.id. split; [reflexivity|exact Hm].
Qed.

Lemma shown_indices_lookup (values : vec) (n p a : nat) :
  shown_indices values n !! p = Some a ->
  drain n (fill_queue values) !! p = Some (rd values a, Z.of_nat a).
Proof.
  unfold shown_indices. intros H.
  change (((fun m : float * Z => Z.to_nat (snd m))
             <$> drain n (fill_queue values)) !! p = Some a) in H.
  rewrite list_lookup_fmap in H.
  destruct (drain n (fill_queue values) !! p) as [m|] eqn:E; [|discriminate].
  cbn in H. injection H as <-.
  pose proof (drain_elem_of _ _ _ (list_elem_of_lookup_2 _ _ _ E)) as Hq.
  apply fill_queue_elem_of in Hq. destruct Hq as (i & Hi & ->).
  cbn [snd]. rewrite Nat2Z.id. reflexivity.
Qed.

(** The words shown for a vector of weights without NaN: [n] of them,
    in descending order of the pairs, above all that are not shown. *)
Lemma shown_indices_spec (values : vec) (n : nat) :
  (forall x, x ∈ values -> is_nan x = false) -> (n <= length values)%nat ->
  length (shown_indices values n) = n /\
  (forall a, a ∈ shown_indices values n -> (a < length values)%nat) /\
  (forall p q a b, (p < q)%nat ->
     shown_indices values n !! p = Some a ->
     shown_indices values n !! q = Some b -> shown_before values a b) /\
  (forall a c, a ∈ shown_indices values n -> (c < length values)%nat ->
     c ∉ shown_indices values n -> shown_before values a c).
Proof.
  intros Hnan Hn.
  pose proof (fill_queue_good values (no_nan_existsb values Hnan)) as Hg.
  destruct (drain_spec n (fill_queue values) Hg
              ltac:(rewrite fill_queue_length; exact Hn))
    as (rest & HP & HL & HD & HB).
  split; [|split; [|split]].
  - unfold shown_indices. rewrite length_map. exact HL.
  - intros a Ha. apply shown_indices_elem_of in Ha. tauto.
  - intros p q a b Hpq Ha Hb.
    pose proof (list_elem_of_lookup_2 _ _ _ Ha) as Ha'.
    pose proof (list_elem_of_lookup_2 _ _ _ Hb) as Hb'.
    apply shown_indices_elem_of in Ha'. apply shown_indices_elem_of in Hb'.
    apply shown_indices_lookup in Ha. apply shown_indices_lookup in Hb.
    apply pair_lt_shown_before; try (apply rd_no_nan; tauto).
    exact (descending_lookup _ HD p q _ _ Hpq Ha Hb).
  - intros a c Ha Hc Hnot.
    apply shown_indices_elem_of in Ha. destruct Ha as [Ha Hda].
    apply pair_lt_shown_before; try (apply rd_no_nan; assumption).
    apply HB; [exact Hda|].
    assert (Hq : (rd values c, Z.of_nat c) ∈ fill_queue values).
    { apply fill_queue_elem_of. exists c. split; [exact Hc|reflexivity]. }
    rewrite HP in Hq. apply elem_of_app in Hq. destruct Hq as [Hq|Hq];
      [|exact Hq].
    exfalso. apply Hnot. apply shown_indices_elem_of. split; assumption.
Qed.

Lemma display_partition_shown (doc_matrix : matrix) (r : Results)
    (words : list (option string)) (n : Z) (i : nat) :
  0 <= r_wc r -> n <= r_wc r ->
  (forall x, x ∈ partition_sum doc_matrix r i -> is_nan x = false) ->
  (forall j, (j < Z.to_nat (r_wc r))%nat -> exists w, words !! j = Some (Some w)) ->
  display_partition doc_matrix r words n i =
  Some (partition_lines words i
          (shown_indices (partition_sum doc_matrix r i) (Z.to_nat n))).
Proof.
  intros Hwc Hn Hnan Hwords. unfold display_partition.
  destruct (r_wc r <? 0) eqn:E; [lia|].
  pose proof (vec_sum_length (deref doc_matrix (part_at (r_partitions r) i))
                (r_wc r) (size_at (r_p_sizes r) i)) as HL.
  fold (partition_sum doc_matrix r i) in HL.
  rewrite take_ge by lia.
  rewrite (no_nan_existsb _ Hnan).
  rewrite show_top_drain.
  - unfold partition_lines, shown_indices. rewrite map_map. reflexivity.
  - rewrite fill_queue_length. lia.
  - intros m Hm. apply fill_queue_elem_of in Hm. destruct Hm as (j & Hj & ->).
    cbn [snd]. rewrite Nat2Z.id. apply Hwords. lia.
Qed.

Lemma display_loop_Some (doc_matrix : matrix) (r : Results)
    (words : list (option string)) (n : Z) (f : nat -> list output) (K : nat) :
  (forall i, (i < K)%nat -> display_partition doc_matrix r words n i = Some (f i)) ->
  for_loop K (display_step doc_matrix r words n) (Some []) =
  Some (concat (map f (seq 0 K))).
Proof.
  induction K as [|K IH]; intros H; [reflexivity|].
  cbn [for_loop]. rewrite IH by (intros i Hi; apply H; lia).
  unfold display_step. rewrite H by lia.
  rewrite seq_S, map_app, concat_app. cbn [map concat Nat.add].
  rewrite app_nil_r. reflexivity.
Qed.

Lemma display_loop_None (doc_matrix : matrix) (r : Results)
    (words : list (option string)) (n : Z) (K i : nat) :
  (i < K)%nat -> display_partition doc_matrix r words n i = None ->
  for_loop K (display_step doc_matrix r words n) (Some []) = None.
Proof.
  intros Hi Hnone. induction K as [|K IH]; [lia|].
  cbn [for_loop]. destruct (decide (i = K)) as [->|Hne].
  - unfold display_step at 1. rewrite Hnone.
    destruct (for_loop K _ _); reflexivity.
  - rewrite IH by lia. reflexivity.
Qed.

Lemma displayResults_shown (doc_matrix : matrix) (r : Results)
    (words : list (option string)) (num_to_show : Z) :
  0 <= r_wc r ->
  (forall i x, (i < Z.to_nat (r_k r))%nat ->
     x ∈ partition_sum doc_matrix r i -> is_nan x = false) ->
  (forall j, (j < Z.to_nat (r_wc r))%nat -> exists w, words !! j = Some (Some w)) ->
  displayResults doc_matrix r words num_to_show =
  Some (concat (map (fun i => partition_lines words i
                       (shown_indices (partition_sum doc_matrix r i)
                          (Z.to_nat (Z.min num_to_show (r_wc r)))))
                  (seq 0 (Z.to_nat (r_k r))))).
Proof.
  intros Hwc Hnan Hwords.
  set (n := if num_to_show >? r_wc r then r_wc r else num_to_show).
  assert (Hn : n <= r_wc r)
    by (unfold n; destruct (Z.gtb_spec num_to_show (r_wc r)); lia).
  assert (En : Z.to_nat n = Z.to_nat (Z.min num_to_show (r_wc r)))
    by (unfold n; destruct (Z.gtb_spec num_to_show (r_wc r)); lia).
  unfold displayResults. fold n. rewrite <- En.
  apply (display_loop_Some doc_matrix r words n
           (fun i => partition_lines words i
                       (shown_indices (partition_sum doc_matrix r i) (Z.to_nat n)))).
  intros i Hi. apply display_partition_shown; try assumption.
  intros x Hx. apply (Hnan i x Hi Hx).
Qed.

(** X14.  The report of a result whose partition sums hold no NaN, with
    a vocabulary that has a word in each of the [wc] slots: for every
    partition, its header and then [min(num_to_show, wc)] words (none
    when [num_to_show] is negative), each of another index below [wc];
    a word shown before another has the greater weight in the sum of the
    partition, or the same weight and the greater index; and every word
    that is not shown comes after all the shown ones in that order. *)
Theorem report_shows_top_words (doc_matrix : matrix) (r : Results)
    (words : list (option string)) (num_to_show : Z) :
  0 <= r_wc r ->
  (forall i x, (i < Z.to_nat (r_k r))%nat ->
     x ∈ partition_sum doc_matrix r i -> is_nan x = false) ->
  (forall j, (j < Z.to_nat (r_wc r))%nat -> exists w, words !! j = Some (Some w)) ->
  exists shown : nat -> list nat,
    displayResults doc_matrix r words num_to_show =
    Some (concat (map (fun i => partition_lines words i (shown i))
                    (seq 0 (Z.to_nat (r_k r))))) /\
    forall i, (i < Z.to_nat (r_k r))%nat ->
      length (shown i) = Z.to_nat (Z.min num_to_show (r_wc r)) /\
      (forall a, a ∈ shown i -> (a < Z.to_nat (r_wc r))%nat) /\
      (forall p q a b, (p < q)%nat ->
         shown i !! p = Some a -> shown i !! q = Some b ->
         shown_before (partition_sum doc_matrix r i) a b) /\
      (forall a c, a ∈ shown i -> (c < Z.to_nat (r_wc r))%nat ->
         c ∉ shown i -> shown_before (partition_sum doc_matrix r i) a c).
Proof.
  intros Hwc Hnan Hwords.
  exists (fun i => shown_indices (partition_sum doc_matrix r i)
                     (Z.to_nat (Z.min num_to_show (r_wc r)))).
  split; [apply displayResults_shown; assumption|].
  intros i Hi.
  assert (HL : length (partition_sum doc_matrix r i) = Z.to_nat (r_wc r))
    by apply vec_sum_length.
  destruct (shown_indices_spec (partition_sum doc_matrix r i)
              (Z.to_nat (Z.min num_to_show (r_wc r)))
              (fun x Hx => Hnan i x Hi Hx) ltac:(lia))
    as (H1 & H2 & H3 & H4).
  rewrite <- HL. repeat split; assumption.
Qed.

Lemma report_shows_top_words_witness :
  0 <= r_wc report_results /\
  displayResults report_matrix report_results report_words 2 =
  Some [Partition_header 1; Word_line "bee"; Word_line "ant"] /\
  exists shown : nat -> list nat,
    displayResults report_matrix report_results report_words 2 =
    Some (concat (map (fun i => partition_lines report_words i (shown i))
                    (seq 0 (Z.to_nat (r_k report_results))))) /\
    length (shown 0%nat) = 2%nat.
Proof.
  split; [vm_compute; discriminate|].
  split; [vm_compute; reflexivity|].
  assert (Hnan : forall i x, (i < Z.to_nat (r_k report_results))%nat ->
            x ∈ partition_sum report_matrix report_results i -> is_nan x = false).
  { intros i x Hi Hx. assert (i = 0%nat) as -> by (cbn in Hi; lia).
    assert (E : partition_sum report_matrix report_results 0
                = [fi 3; fi 3; fi 1]) by (vm_compute; reflexivity).
    rewrite E in Hx. repeat (apply elem_of_cons in Hx; destruct Hx as [->|Hx];
      [vm_compute; reflexivity|]). apply elem_of_nil in Hx. destruct Hx. }
  assert (Hwords : forall j, (j < Z.to_nat (r_wc report_results))%nat ->
            exists w, report_words !! j = Some (Some w)).
  { intros j Hj. cbn in Hj.
    destruct j as [|[|[|j]]]; [eexists; reflexivity..|lia]. }
  destruct (report_shows_top_words report_matrix report_results report_words 2
              ltac:(vm_compute; discriminate) Hnan Hwords) as (shown & E & H).
  exists shown. split; [exact E|].
  destruct (H 0%nat ltac:(vm_compute; lia)) as [HL _]. exact HL.
Defined.

(** Draining as many pairs as the queue holds gives them all. *)
Lemma drain_all (q : list (float * Z)) (n : nat) :
  good_queue q -> (length q <= n)%nat -> forall m, m ∈ q -> m ∈ drain n q.
Proof.
  revert q. induction n as [|n IH]; intros q Hg Hn m Hm.
  - destruct q; [apply elem_of_nil in Hm; destruct Hm|simpl in Hn; lia].
  - cbn [drain]. destruct (pq_top_Some q) as [t Ht].
    { intros ->. apply elem_of_nil in Hm. destruct Hm. }
    rewrite Ht. pose proof (pq_pop_perm q t Ht) as HP.
    pose proof (good_queue_perm _ _ HP Hg) as Hg'.
    destruct (good_queue_cons _ _ Hg') as (_ & _ & Hgp).
    rewrite HP in Hm. apply elem_of_cons in Hm. destruct Hm as [->|Hm].
    + left.
    + right. apply IH; [exact Hgp| |exact Hm].
      apply Permutation_length in HP. simpl in HP. lia.
Qed.

Lemma displayResults_unset (doc_matrix : matrix) (r : Results)
    (words : list (option string)) (num_to_show : Z) (j : nat) :
  1 <= r_k r -> 0 <= r_wc r <= num_to_show ->
  (forall x, x ∈ partition_sum doc_matrix r 0 -> is_nan x = false) ->
  (j < Z.to_nat (r_wc r))%nat -> words !! j = Some None ->
  displayResults doc_matrix r words num_to_show = None.
Proof.
  intros Hk Hwc Hnan Hj Hunset. unfold displayResults.
  set (n := if num_to_show >? r_wc r then r_wc r else num_to_show).
  assert (En : Z.to_nat n = Z.to_nat (r_wc r))
    by (unfold n; destruct (Z.gtb_spec num_to_show (r_wc r)); lia).
  apply (display_loop_None _ _ _ _ _ 0%nat); [lia|].
  unfold display_partition.
  destruct (r_wc r <? 0) eqn:E; [lia|].
  pose proof (vec_sum_length (deref doc_matrix (part_at (r_partitions r) 0))
                (r_wc r) (size_at (r_p_sizes r) 0)) as HL.
  fold (partition_sum doc_matrix r 0) in HL.
  rewrite take_ge by lia. rewrite (no_nan_existsb _ Hnan).
  rewrite (show_top_unset words (Z.to_nat n) _
             (rd (partition_sum doc_matrix r 0) j, Z.of_nat j)).
  - reflexivity.
  - apply drain_all.
    + apply fill_queue_good, no_nan_existsb, Hnan.
    + rewrite fill_queue_length. lia.
    + apply fill_queue_elem_of. exists j. split; [lia|reflexivity].
  - intros w. cbn [snd]. rewrite Nat2Z.id, Hunset. discriminate.
Qed.

(** X15.  A vocabulary with a slot below [wc] that was never set (the
    vocabulary file has fewer than [wc] lines): when all the words are to
    be shown ([wc <= num_to_show]) and there is a partition, the report
    reads the slot that is not set and has no defined result. *)
Theorem report_needs_vocabulary (doc_matrix : matrix) (r : Results)
    (words : list (option string)) (num_to_show : Z) (j : nat) :
  1 <= r_k r -> 0 <= r_wc r <= num_to_show ->
  (forall x, x ∈ partition_sum doc_matrix r 0 -> is_nan x = false) ->
  (j < Z.to_nat (r_wc r))%nat -> words !! j = Some None ->
  displayResults doc_matrix r words num_to_show = None.
Proof. apply displayResults_unset. Qed.

Lemma report_needs_vocabulary_witness :
  1 <= r_k report_results /\ 0 <= r_wc report_results <= 10 /\
  displayResults report_matrix report_results
    [Some "ant"%string; Some "bee"%string; None] 10 = None.
Proof.
  split; [vm_compute; discriminate|].
  split; [split; vm_compute; discriminate|].
  apply (report_needs_vocabulary report_matrix report_results _ 10 2).
  - vm_compute. discriminate.
  - split; vm_compute; discriminate.
  - intros x Hx.
    assert (E : partition_sum report_matrix report_results 0
                = [fi 3; fi 3; fi 1]) by (vm_compute; reflexivity).
    rewrite E in Hx. repeat (apply elem_of_cons in Hx; destruct Hx as [->|Hx];
      [vm_compute; reflexivity|]). apply elem_of_nil in Hx. destruct Hx.
  - vm_compute. lia.
  - reflexivity.
Defined.

(** ** The vocabulary *)

Lemma read_words_length (wc : Z) (lines : list string) :
  forall i words, length (read_words lines wc i words) = length words.
Proof.
  induction lines as [|line rest IH]; intros i words; cbn [read_words];
    [reflexivity|].
  destruct (i >=? wc); [reflexivity|]. rewrite IH, length_insert. reflexivity.
Qed.

Lemma read_words_lookup (wc : Z) (lines : list string) :
  forall i words j, 0 <= i -> length words = Z.to_nat wc ->
  read_words lines wc i words !! j =
  if decide (Z.to_nat i <= j < Z.to_nat wc)%nat
  then match lines !! (j - Z.to_nat i)%nat with
       | Some line => Some (Some line)
       | None => words !! j
       end
  else words !! j.
Proof.
  induction lines as [|line rest IH]; intros i words j Hi HL;
    cbn [read_words].
  - rewrite lookup_nil. destruct (decide _); reflexivity.
  - destruct (Z.geb_spec i wc) as [Hge|Hlt].
    + destruct (decide _) as [H|_]; [lia|reflexivity].
    + rewrite IH by (try rewrite length_insert; lia).
      destruct (decide (j = Z.to_nat i)) as [->|Hne].
      * rewrite list_lookup_insert_eq by lia.
        destruct (decide (Z.to_nat (i + 1) <= Z.to_nat i < Z.to_nat wc)%nat);
          [lia|].
        destruct (decide (Z.to_nat i <= Z.to_nat i < Z.to_nat wc)%nat); [|lia].
        rewrite Nat.sub_diag. reflexivity.
      * rewrite list_lookup_insert_ne by lia.
        destruct (decide (Z.to_nat (i + 1) <= j < Z.to_nat wc)%nat) as [H1|H1];
          destruct (decide (Z.to_nat i <= j < Z.to_nat wc)%nat) as [H2|H2];
          try lia; try reflexivity.
        replace (j - Z.to_nat i)%nat with (S (j - Z.to_nat (i + 1))) by lia.
        reflexivity.
Qed.

Lemma loadWordsFile_lookup (content : string) (wc : Z)
    (words : list (option string)) (j : nat) :
  loadWordsFile content wc = Some words -> (j < Z.to_nat wc)%nat ->
  words !! j = Some (getlines content EmptyString false !! j).
Proof.
  unfold loadWordsFile. destruct (wc <? 0) eqn:E; [discriminate|].
  intros H Hj. injection H as <-.
  rewrite read_words_lookup by (try apply length_replicate; lia).
  destruct (decide _) as [_|H]; [|cbn in H; lia].
  cbn [Z.to_nat]. rewrite Nat.sub_0_r.
  destruct (getlines content EmptyString false !! j); [reflexivity|].
  apply lookup_replicate_2. exact Hj.
Qed.

(** X16.  [loadWordsFile] returns an array of [wc] slots for every
    [wc >= 0]; slot [j] holds line [j] of the file (counted from 0) when
    the file has such a line, and is left as allocated, not initialised,
    when the file has fewer lines.  The lines from [wc] on are not
    read into it. *)
Theorem loadWordsFile_slots (content : string) (wc : Z) :
  0 <= wc ->
  exists words,
    loadWordsFile content wc = Some words /\
    length words = Z.to_nat wc /\
    forall j, (j < Z.to_nat wc)%nat ->
      words !! j = Some (getlines content EmptyString false !! j).
Proof.
  intros Hwc.
  destruct (loadWordsFile content wc) as [words|] eqn:E.
  - exists words. split; [reflexivity|]. split.
    + unfold loadWordsFile in E. destruct (wc <? 0); [discriminate|].
      injection E as <-. rewrite read_words_length. apply length_replicate.
    + intros j Hj. apply (loadWordsFile_lookup content wc words j E Hj).
  - unfold loadWordsFile in E. destruct (wc <? 0) eqn:E'; [lia|discriminate].
Qed.

Lemma loadWordsFile_slots_witness :
  0 <= 3 /\
  loadWordsFile vocabulary_long 3
    = Some [Some "ant"%string; Some "bee"%string; Some "cat"%string] /\
  loadWordsFile vocabulary_short 3
    = Some [Some "ant"%string; Some "bee"%string; None] /\
  exists words,
    loadWordsFile vocabulary_short 3 = Some words /\ length words = Z.to_nat 3.
Proof.
  split; [lia|]. split; [vm_compute; reflexivity|].
  split; [vm_compute; reflexivity|].
  destruct (loadWordsFile_slots vocabulary_short 3 ltac:(lia))
    as (words & H1 & H2 & _).
  exists words. split; assumption.
Defined.

(** X17.  The vocabulary and the report composed, as [main] does with
    [num_to_show = 10]: for a result with a partition, no NaN in the
    partition sums and all its [wc <= num_to_show] words to be shown, the
    report on the array that [loadWordsFile] returns for [wc] has a
    defined result exactly when the vocabulary file has at least [wc]
    lines. *)
Theorem report_defined_iff_vocabulary (doc_matrix : matrix) (r : Results)
    (vocabulary : string) (words : list (option string)) (num_to_show : Z) :
  1 <= r_k r -> 0 <= r_wc r <= num_to_show ->
  (forall i x, (i < Z.to_nat (r_k r))%nat ->
     x ∈ partition_sum doc_matrix r i -> is_nan x = false) ->
  loadWordsFile vocabulary (r_wc r) = Some words ->
  (is_Some (displayResults doc_matrix r words num_to_show) <->
   (Z.to_nat (r_wc r) <= length (getlines vocabulary EmptyString false))%nat).
Proof.
  intros Hk Hwc Hnan HW. split.
  - intros HS.
    destruct (decide (Z.to_nat (r_wc r)
                      <= length (getlines vocabulary EmptyString false))%nat)
      as [H|H]; [exact H|exfalso].
    set (j := length (getlines vocabulary EmptyString false)) in *.
    assert (Hj : words !! j = Some None).
    { rewrite (loadWordsFile_lookup vocabulary (r_wc r) words j HW) by lia.
      rewrite lookup_ge_None_2 by (unfold j; lia). reflexivity. }
    rewrite (displayResults_unset doc_matrix r words num_to_show j Hk Hwc
               (fun x Hx => Hnan 0%nat x ltac:(lia) Hx) ltac:(lia) Hj) in HS.
    destruct HS as [? HS]. discriminate.
  - intros HL. rewrite displayResults_shown; [eexists; reflexivity|lia|exact Hnan|].
    intros j Hj.
    rewrite (loadWordsFile_lookup vocabulary (r_wc r) words j HW Hj).
    destruct (lookup_lt_is_Some_2 (getlines vocabulary EmptyString false) j
                ltac:(lia)) as [w ->].
    exists w. reflexivity.
Qed.

Lemma report_defined_iff_vocabulary_witness :
  1 <= r_k report_results /\ 0 <= r_wc report_results <= 10 /\
  is_Some (displayResults report_matrix report_results
             [Some "ant"%string; Some "bee"%string; Some "cat"%string] 10) /\
  ~ is_Some (displayResults report_matrix report_results
               [Some "ant"%string; Some "bee"%string; None] 10).
Proof.
  assert (Hk : 1 <= r_k report_results) by (vm_compute; discriminate).
  assert (Hwc : 0 <= r_wc report_results <= 10)
    by (split; vm_compute; discriminate).
  assert (Hnan : forall i x, (i < Z.to_nat (r_k report_results))%nat ->
            x ∈ partition_sum report_matrix report_results i -> is_nan x = false).
  { intros i x Hi Hx. assert (i = 0%nat) as -> by (cbn in Hi; lia).
    assert (E : partition_sum report_matrix report_results 0
                = [fi 3; fi 3; fi 1]) by (vm_compute; reflexivity).
    rewrite E in Hx. repeat (apply elem_of_cons in Hx; destruct Hx as [->|Hx];
      [vm_compute; reflexivity|]). apply elem_of_nil in Hx. destruct Hx. }
  assert (HL : loadWordsFile vocabulary_long (r_wc report_results)
               = Some [Some "ant"%string; Some "bee"%string; Some "cat"%string])
    by (vm_compute; reflexivity).
  assert (HS : loadWordsFile vocabulary_short (r_wc report_results)
               = Some [Some "ant"%string; Some "bee"%string; None])
    by (vm_compute; reflexivity).
  split; [exact Hk|]. split; [exact Hwc|]. split.
  - apply (report_defined_iff_vocabulary report_matrix report_results
             vocabulary_long _ 10 Hk Hwc Hnan HL).
    vm_compute. lia.
  - intros H.
    apply (report_defined_iff_vocabulary report_matrix report_results
             vocabulary_short _ 10 Hk Hwc Hnan HS) in H.
    vm_compute in H. lia.
Defined.

End Report.
